(** * json-toolkit: the value model of [json.h]

    A shallow embedding of [include/json-toolkit/json.h]: the node
    hierarchy, the [Json] handle (a [std::shared_ptr] to a node), the
    [Array] and [Object] views, and [json::compare].

    Nodes live in an explicit heap; a handle is a pointer into it, so that
    two handles can share one node.  Operations are written in a small
    state-and-outcome monad: they thread the heap (and the three
    function-local static singletons) and either return, throw a C++
    exception, fail an [assert], or run into undefined behaviour. *)

From Stdlib Require Import ZArith Zpower Lia Bool Sorted OrderedTypeEx.
From Stdlib Require Import Floats.SpecFloat.
From stdpp Require Import base option list strings.

Local Open Scope Z_scope.

(** ** Machine integers *)

(** [int] is a 32-bit two's complement integer.  Signed overflow is undefined
    in C++; on the usual targets the subtraction wraps, and the model writes
    that wrap-around out. *)
Definition INT_MIN : Z := - 2 ^ 31.
Definition INT_MAX : Z := 2 ^ 31 - 1.

Definition int_range (z : Z) : Prop := INT_MIN <= z <= INT_MAX.

Definition int_wrap (z : Z) : Z := (z + 2 ^ 31) mod 2 ^ 32 - 2 ^ 31.

(** [size_t] / [std::vector::size_type] is an unsigned 64-bit integer. *)
Definition size_t_of_int (i : Z) : Z := i mod 2 ^ 64.

(** [std::vector<Json>::max_size()]: at most [PTRDIFF_MAX / sizeof(Json)]
    elements, a [Json] being one [std::shared_ptr] (16 bytes). *)
Definition vector_max_size : Z := (2 ^ 63 - 1) / 16.

Definition b2z (b : bool) : Z := if b then 1 else 0.

(** [(0 < x) - (x < 0)] on [int]. *)
Definition int_sign (x : Z) : Z := b2z (0 <? x) - b2z (x <? 0).

(** ** Doubles *)

(** [double] is IEEE 754 binary64, taken from the Standard Library's
    executable specification of floating-point numbers. *)
Definition double : Set := spec_float.
Definition dbl_prec : Z := 53.
Definition dbl_emax : Z := 1024.
Definition dbl_sub (x y : double) : double := SFsub dbl_prec dbl_emax x y.
Definition dbl_lt (x y : double) : bool := SFltb x y.
Definition dbl_zero : double := S754_zero false.
Definition dbl_nan : double := S754_nan.
Definition dbl_of_pos (p : positive) : double :=
  binary_normalize dbl_prec dbl_emax (Z.pos p) 0 false.

(** ** Strings *)

(** A character as the [unsigned char] the comparison reads. *)
Definition byte_of (c : Ascii.ascii) : Z := Z.of_N (Ascii.N_of_ascii c).

(** [std::char_traits<char>::compare] on the common prefix of two strings:
    the difference of the first two bytes that differ, [0] when there are
    none. *)
Fixpoint traits_compare (s t : string) : Z :=
  match s, t with
  | String a s', String b t' =>
      if Ascii.eqb a b then traits_compare s' t' else byte_of a - byte_of b
  | _, _ => 0
  end.

(** The difference of two sizes, brought into [int]. *)
Definition size_compare (n1 n2 : nat) : Z :=
  let d := Z.of_nat n1 - Z.of_nat n2 in
  if INT_MAX <? d then INT_MAX else if d <? INT_MIN then INT_MIN else d.

(** [std::string::compare]: lexicographic on the characters taken as
    unsigned bytes, a proper prefix sorting first.  The C++ standard fixes
    the sign of the result only; the value is the one the GNU library
    returns, which compares the common prefix and, when that gives [0], the
    sizes: [-2] on ["a"] and ["c"].  [compare] and [object_compare] return
    this value as it is. *)
Definition string_compare (s t : string) : Z :=
  let r := traits_compare s t in
  if r =? 0 then size_compare (String.length s) (String.length t) else r.

(** The lexicographic order of two strings as a sign: [-1] when [s] sorts
    before [t], [0] when they are the same, [1] when [s] sorts after. *)
Definition lexicographic (s t : string) : Z :=
  match String.compare s t with
  | Lt => -1
  | Eq => 0
  | Gt => 1
  end.

(** ** The data model *)

Module JsonType.
Inductive t : Set :=
| Null
| Boolean
| Integer
| Number
| String
| Array
| Object.

(** [static_cast<int>] of the enumerator. *)
Definition to_int (k : t) : Z :=
  match k with
  | Null => 0
  | Boolean => 1
  | Integer => 2
  | Number => 3
  | String => 4
  | Array => 5
  | Object => 6
  end.

Definition eqb (a b : t) : bool := to_int a =? to_int b.
End JsonType.

(** The address of a heap-allocated [details::Node]. *)
Definition ptr : Set := nat.

(** [class Json]: the one data member [d], a [std::shared_ptr<details::Node>].
    [Array] and [Object] derive from it and add no member. *)
Record Json : Set := mkJson { impl : ptr }.
Arguments mkJson impl%_nat.

(** [std::map<std::string, Json>]: the entries in increasing key order. *)
Definition json_map : Set := list (string * Json).

(** The subclasses of [details::Node], each with its [value] member. *)
Inductive Node : Set :=
| NullNode
| BooleanNode (value : bool)
| IntegerNode (value : Z)
| NumberNode (value : double)
| StringNode (value : string)
| ArrayNode (value : list Json)
| ObjectNode (value : json_map).

(** [virtual JsonType type() const]. *)
Definition Node_type (n : Node) : JsonType.t :=
  match n with
  | NullNode => JsonType.Null
  | BooleanNode _ => JsonType.Boolean
  | IntegerNode _ => JsonType.Integer
  | NumberNode _ => JsonType.Number
  | StringNode _ => JsonType.String
  | ArrayNode _ => JsonType.Array
  | ObjectNode _ => JsonType.Object
  end.

(** The program state: the heap of nodes, and the three function-local
    statics [static_instance] of [NullNode::get], [BooleanNode::True] and
    [BooleanNode::False], which are initialised the first time control
    passes through their declaration.

    The reference counts of the [std::shared_ptr]s are not part of the
    state.  A node is destroyed when its last handle goes; here its address
    is only never used again, so what the heap holds at an address means
    something for the program as long as a handle refers to it, and the
    properties below are stated for such handles. *)
Record state : Type := mkState {
  heap : list Node;
  null_instance : option ptr;
  true_instance : option ptr;
  false_instance : option ptr
}.

Definition empty_state : state := mkState [] None None None.

(** ** Outcomes and the monad *)

Inductive exn : Set :=
| out_of_range.

Inductive outcome (A : Type) : Type :=
| Ret (a : A)
| Throw (e : exn)
| AssertFailed
| Undefined
| OutOfFuel.
Arguments Ret {A} a.
Arguments Throw {A} e.
Arguments AssertFailed {A}.
Arguments Undefined {A}.
Arguments OutOfFuel {A}.

Definition M (A : Type) : Type := state -> outcome (A * state).

Definition ret {A} (a : A) : M A := fun s => Ret (a, s).

Definition bind {A B} (m : M A) (k : A -> M B) : M B :=
  fun s =>
    match m s with
    | Ret (a, s') => k a s'
    | Throw e => Throw e
    | AssertFailed => AssertFailed
    | Undefined => Undefined
    | OutOfFuel => OutOfFuel
    end.

Definition throw {A} (e : exn) : M A := fun _ => Throw e.
Definition undefined {A} : M A := fun _ => Undefined.
Definition out_of_fuel {A} : M A := fun _ => OutOfFuel.

(** [assert(c)]. *)
Definition assert (c : bool) : M unit :=
  fun s => if c then Ret (tt, s) else AssertFailed.


Declare Scope json_scope.
Delimit Scope json_scope with json.
Notation "'let*' x := m 'in' k" := (bind m (fun x => k))
  (at level 10, x name, m at level 100, k at level 200) : json_scope.
Local Open Scope json_scope.

(** ** Allocation and the singletons *)

(** [std::make_shared<T>(...)]: a new node at a fresh address. *)
Definition make_shared (n : Node) : M ptr :=
  fun s =>
    Ret (length (heap s),
         mkState (heap s ++ [n]) (null_instance s) (true_instance s)
                 (false_instance s)).

(** [p->...]: reading the node a pointer refers to. *)
Definition deref (p : ptr) : M Node :=
  fun s =>
    match heap s !! p with
    | Some n => Ret (n, s)
    | None => Undefined
    end.

(** Writing the payload of a node in place. *)
Definition store (p : ptr) (n : Node) : M unit :=
  fun s =>
    Ret (tt, mkState (<[p := n]> (heap s)) (null_instance s) (true_instance s)
                     (false_instance s)).

Definition NullNode_get : M ptr :=
  fun s =>
    match null_instance s with
    | Some p => Ret (p, s)
    | None =>
        Ret (length (heap s),
             mkState (heap s ++ [NullNode]) (Some (length (heap s)))
                     (true_instance s) (false_instance s))
    end.

Definition BooleanNode_True : M ptr :=
  fun s =>
    match true_instance s with
    | Some p => Ret (p, s)
    | None =>
        Ret (length (heap s),
             mkState (heap s ++ [BooleanNode true]) (null_instance s)
                     (Some (length (heap s))) (false_instance s))
    end.

Definition BooleanNode_False : M ptr :=
  fun s =>
    match false_instance s with
    | Some p => Ret (p, s)
    | None =>
        Ret (length (heap s),
             mkState (heap s ++ [BooleanNode false]) (null_instance s)
                     (true_instance s) (Some (length (heap s))))
    end.

(** ** [Json]: constructors *)

(** [Json::Json()]. *)
Definition Json_default : M Json :=
  let* p := make_shared (ObjectNode []) in ret (mkJson p).

(** [Json::Json(std::nullptr_t)]. *)
Definition Json_nullptr : M Json :=
  let* p := NullNode_get in ret (mkJson p).

(** [Json::Json(bool bval)]. *)
Definition Json_bool (bval : bool) : M Json :=
  let* p := make_shared (BooleanNode bval) in ret (mkJson p).

(** [Json::Json(int ival)]. *)
Definition Json_int (ival : Z) : M Json :=
  let* p := make_shared (IntegerNode ival) in ret (mkJson p).

(** [Json::Json(double nval)]. *)
Definition Json_double (nval : double) : M Json :=
  let* p := make_shared (NumberNode nval) in ret (mkJson p).

(** [Json::Json(const std::string& str)] and [Json::Json(const char* str)]. *)
Definition Json_string (str : string) : M Json :=
  let* p := make_shared (StringNode str) in ret (mkJson p).

(** [Json::Json(const std::shared_ptr<details::Node>& impl)]. *)
Definition Json_impl (p : ptr) : Json := mkJson p.

(** [Json::Json(const Json&) = default]: the copy shares the node. *)
Definition Json_copy (other : Json) : Json := mkJson (impl other).

(** ** [Json]: introspection and the value interface *)

Definition type (j : Json) : M JsonType.t :=
  let* n := deref (impl j) in ret (Node_type n).

Definition isNull (j : Json) : M bool :=
  let* k := type j in ret (JsonType.eqb k JsonType.Null).
Definition isBoolean (j : Json) : M bool :=
  let* k := type j in ret (JsonType.eqb k JsonType.Boolean).
Definition isInteger (j : Json) : M bool :=
  let* k := type j in ret (JsonType.eqb k JsonType.Integer).
Definition isNumber (j : Json) : M bool :=
  let* k := type j in ret (JsonType.eqb k JsonType.Number).
Definition isString (j : Json) : M bool :=
  let* k := type j in ret (JsonType.eqb k JsonType.String).
Definition isArray (j : Json) : M bool :=
  let* k := type j in ret (JsonType.eqb k JsonType.Array).
Definition isObject (j : Json) : M bool :=
  let* k := type j in ret (JsonType.eqb k JsonType.Object).

(** The unchecked downcasts [static_cast<const XNode*>(d.get())->value]:
    reading the payload through the wrong node class is undefined. *)
Definition BooleanNode_value (j : Json) : M bool :=
  let* n := deref (impl j) in
  match n with BooleanNode v => ret v | _ => undefined end.
Definition IntegerNode_value (j : Json) : M Z :=
  let* n := deref (impl j) in
  match n with IntegerNode v => ret v | _ => undefined end.
Definition NumberNode_value (j : Json) : M double :=
  let* n := deref (impl j) in
  match n with NumberNode v => ret v | _ => undefined end.
Definition StringNode_value (j : Json) : M string :=
  let* n := deref (impl j) in
  match n with StringNode v => ret v | _ => undefined end.
Definition ArrayNode_value (j : Json) : M (list Json) :=
  let* n := deref (impl j) in
  match n with ArrayNode v => ret v | _ => undefined end.
Definition ObjectNode_value (j : Json) : M json_map :=
  let* n := deref (impl j) in
  match n with ObjectNode v => ret v | _ => undefined end.

Definition toBool (j : Json) : M bool :=
  let* c := isBoolean j in let* _ := assert c in BooleanNode_value j.
Definition toInt (j : Json) : M Z :=
  let* c := isInteger j in let* _ := assert c in IntegerNode_value j.
Definition toNumber (j : Json) : M double :=
  let* c := isNumber j in let* _ := assert c in NumberNode_value j.
Definition toString (j : Json) : M string :=
  let* c := isString j in let* _ := assert c in StringNode_value j.

(** ** [std::vector<Json>] and [std::map<std::string, Json>] *)

(** [v.at(n)]: bounds-checked, throws [std::out_of_range]. *)
Definition vector_at (v : list Json) (n : Z) : M Json :=
  if n <? Z.of_nat (length v)
  then match v !! Z.to_nat n with
       | Some x => ret x
       | None => undefined
       end
  else throw out_of_range.

(** A [Json&]: the place of a handle stored inside a container node. *)
Inductive Json_ref : Set :=
| ArraySlot (node : ptr) (index : nat)
| ObjectSlot (node : ptr) (key : string).

(** [m.find(key)], [it->second] when found. *)
Fixpoint map_find (key : string) (m : json_map) : option Json :=
  match m with
  | [] => None
  | (k, x) :: m' => if String.eqb key k then Some x else map_find key m'
  end.

(** Insertion of a new entry at its place in key order. *)
Fixpoint map_insert (key : string) (x : Json) (m : json_map) : json_map :=
  match m with
  | [] => [(key, x)]
  | (k, y) :: m' =>
      match String.compare key k with
      | Lt => (key, x) :: (k, y) :: m'
      | Eq => (k, x) :: m'
      | Gt => (k, y) :: map_insert key x m'
      end
  end.

(** ** [Json]: the array interface *)

(** [int Json::length() const]. *)
Definition Json_length (j : Json) : M Z :=
  let* c := isArray j in
  let* _ := assert c in
  let* v := ArrayNode_value j in
  ret (int_wrap (Z.of_nat (length v))).

(** [Json Json::at(int index) const]; the [int] converts to [size_type]. *)
Definition Json_at (j : Json) (index : Z) : M Json :=
  let* c := isArray j in
  let* _ := assert c in
  let* v := ArrayNode_value j in
  vector_at v (size_t_of_int index).

(** [Json& Json::operator[](int index)]: [std::vector::operator[]] does no
    bounds check, and an index past the end is undefined behaviour. *)
Definition Json_index (j : Json) (index : Z) : M Json_ref :=
  let* c := isArray j in
  let* _ := assert c in
  let* v := ArrayNode_value j in
  if size_t_of_int index <? Z.of_nat (length v)
  then ret (ArraySlot (impl j) (Z.to_nat (size_t_of_int index)))
  else undefined.

(** [void Json::push(const Json& val)]. *)
Definition push (j : Json) (val : Json) : M unit :=
  let* c := isArray j in
  let* _ := assert c in
  let* v := ArrayNode_value j in
  store (impl j) (ArrayNode (v ++ [val])).

(** ** The views *)

(** [Array::Array()] and [Object::Object()]. *)
Definition Array_default : M Json :=
  let* p := make_shared (ArrayNode []) in ret (Json_impl p).
Definition Object_default : M Json :=
  let* p := make_shared (ObjectNode []) in ret (Json_impl p).

(** [Array::Array(const std::shared_ptr<details::Node>& impl)]. *)
Definition Array_from_impl (p : ptr) : M Json :=
  let* n := deref p in
  if JsonType.eqb (Node_type n) JsonType.Array
  then ret (Json_impl p)
  else let* q := NullNode_get in ret (Json_impl q).

(** [Object::Object(const std::shared_ptr<details::Node>& obj)]. *)
Definition Object_from_impl (p : ptr) : M Json :=
  let* n := deref p in
  if JsonType.eqb (Node_type n) JsonType.Object
  then ret (Json_impl p)
  else let* q := NullNode_get in ret (Json_impl q).

Definition toArray (j : Json) : M Json := Array_from_impl (impl j).
Definition toObject (j : Json) : M Json := Object_from_impl (impl j).

(** [Array::data()] and [Object::data()]. *)
Definition Array_data (j : Json) : M (list Json) :=
  let* c := isArray j in
  let* _ := assert c in
  ArrayNode_value j.
Definition Object_data (j : Json) : M json_map :=
  let* c := isObject j in
  let* _ := assert c in
  ObjectNode_value j.

(** ** [Json]: the object interface *)

(** [Json& Json::operator[](const std::string& key)]: [std::map::operator[]]
    inserts a value-initialised [Json()] when the key is absent. *)
Definition Json_index_key (j : Json) (key : string) : M Json_ref :=
  let* c := isObject j in
  let* _ := assert c in
  let* m := ObjectNode_value j in
  match map_find key m with
  | Some _ => ret (ObjectSlot (impl j) key)
  | None =>
      let* x := Json_default in
      let* _ := store (impl j) (ObjectNode (map_insert key x m)) in
      ret (ObjectSlot (impl j) key)
  end.

(** [Json Json::operator[](const std::string& key) const]; [return nullptr]
    converts through [Json(std::nullptr_t)]. *)
Definition Json_index_key_const (j : Json) (key : string) : M Json :=
  let* c := isObject j in
  let* _ := assert c in
  let* m := ObjectNode_value j in
  match map_find key m with
  | Some x => ret x
  | None => Json_nullptr
  end.

(** Reading the handle a reference designates. *)
Definition ref_get (r : Json_ref) : M Json :=
  match r with
  | ArraySlot p i =>
      let* v := ArrayNode_value (mkJson p) in
      match v !! i with Some x => ret x | None => undefined end
  | ObjectSlot p key =>
      let* m := ObjectNode_value (mkJson p) in
      match map_find key m with Some x => ret x | None => undefined end
  end.

(** [r = val] through a reference ([Json& operator=(const Json&) = default]):
    the slot inside the container node is overwritten. *)
Definition ref_set (r : Json_ref) (val : Json) : M unit :=
  match r with
  | ArraySlot p i =>
      let* v := ArrayNode_value (mkJson p) in
      if decide (i < length v)%nat
      then store p (ArrayNode (<[i := val]> v))
      else undefined
  | ObjectSlot p key =>
      let* m := ObjectNode_value (mkJson p) in
      match map_find key m with
      | Some _ => store p (ObjectNode (map_insert key val m))
      | None => undefined
      end
  end.

(** ** [Json]: scalar assignment

    Each operator overwrites the member [d] of the assigned handle and returns
    [*this]; the model returns the handle's new contents. *)

(** [Json& Json::operator=(const Json&) = default]: the handle shares the
    node of [other] from then on. *)
Definition assign_Json (this other : Json) : M Json :=
  ret (mkJson (impl other)).

(** [Json& Json::operator=(std::nullptr_t)]. *)
Definition assign_nullptr (this : Json) : M Json :=
  let* p := NullNode_get in ret (mkJson p).

(** [Json& Json::operator=(bool val)]. *)
Definition assign_bool (this : Json) (val : bool) : M Json :=
  let* p := (if val then BooleanNode_True else BooleanNode_False) in
  ret (mkJson p).

(** [Json& Json::operator=(int val)]. *)
Definition assign_int (this : Json) (val : Z) : M Json :=
  let* p := make_shared (IntegerNode val) in ret (mkJson p).

(** [Json& Json::operator=(double val)]. *)
Definition assign_double (this : Json) (val : double) : M Json :=
  let* p := make_shared (NumberNode val) in ret (mkJson p).

(** [Json& Json::operator=(const std::string& str)] and
    [Json& Json::operator=(const char* str)]. *)
Definition assign_string (this : Json) (str : string) : M Json :=
  let* p := make_shared (StringNode str) in ret (mkJson p).

(** [bool Json::operator==(std::nullptr_t) const]. *)
Definition eq_nullptr (j : Json) : M bool :=
  let* k := type j in ret (JsonType.eqb k JsonType.Null).

(** ** Ordering *)

(** The arithmetic [number_compare<T>] uses on the [value] member of its
    nodes: subtraction, [<], and the conversion of the literal [0]. *)
Class Arith (T : Type) : Type := {
  arith_sub : T -> T -> T;
  arith_lt : T -> T -> bool;
  arith_zero : T
}.

#[export] Instance int_Arith : Arith Z := {|
  arith_sub x y := int_wrap (x - y);
  arith_lt := Z.ltb;
  arith_zero := 0
|}.

#[export] Instance double_Arith : Arith double := {|
  arith_sub := dbl_sub;
  arith_lt := dbl_lt;
  arith_zero := dbl_zero
|}.

(** [template<typename T> int number_compare(lhs_node, rhs_node)], on the
    [value] members of the two nodes. *)
Definition number_compare {T : Type} `{Arith T} (lhs_value rhs_value : T) : Z :=
  let diff := arith_sub lhs_value rhs_value in
  b2z (arith_lt arith_zero diff) - b2z (arith_lt diff arith_zero).

(** The [for] loop of [array_compare], from index [i] on, with [todo]
    iterations left before [i] reaches [lhs.length()]. *)
Fixpoint array_compare_loop (cmp : Json -> Json -> M Z) (lhs rhs : Json)
    (i : Z) (todo : nat) : M Z :=
  match todo with
  | O => ret 0
  | S todo' =>
      let* l := Json_at lhs i in
      let* r := Json_at rhs i in
      let* c := cmp l r in
      if negb (c =? 0) then ret c
      else array_compare_loop cmp lhs rhs (i + 1) todo'
  end.

(** [int array_compare(const Array& lhs, const Array& rhs)]; [cmp] is the
    recursive call of [json::compare]. *)
Definition array_compare (cmp : Json -> Json -> M Z) (lhs rhs : Json) : M Z :=
  let* ll := Json_length lhs in
  let* rl := Json_length rhs in
  let size_diff := int_wrap (ll - rl) in
  if negb (size_diff =? 0) then ret (int_sign size_diff)
  else array_compare_loop cmp lhs rhs 0 (Z.to_nat ll).

(** The [for] loop of [object_compare]: the two iterators advance together
    until [lhs_it] reaches the end; reading through [rhs_it] at the end of its
    map is undefined. *)
Fixpoint object_compare_loop (cmp : Json -> Json -> M Z)
    (lhs_it rhs_it : json_map) : M Z :=
  match lhs_it with
  | [] => ret 0
  | (lk, lv) :: lhs_it' =>
      match rhs_it with
      | [] => undefined
      | (rk, rv) :: rhs_it' =>
          let c := string_compare lk rk in
          if negb (c =? 0) then ret c
          else
            let* c := cmp lv rv in
            if negb (c =? 0) then ret c
            else object_compare_loop cmp lhs_it' rhs_it'
      end
  end.

(** [int object_compare(const Object& lhs, const Object& rhs)]. *)
Definition object_compare (cmp : Json -> Json -> M Z) (lhs rhs : Json) : M Z :=
  let* lm := Object_data lhs in
  let* rm := Object_data rhs in
  let size_diff :=
    int_wrap (int_wrap (Z.of_nat (length lm)) - int_wrap (Z.of_nat (length rm))) in
  if negb (size_diff =? 0) then ret (int_sign size_diff)
  else object_compare_loop cmp lm rm.

(** The body of [int compare(const Json& lhs, const Json& rhs)]; [cmp] stands
    for the calls of [json::compare] that [array_compare] and
    [object_compare] make on the elements.  The [switch] has a [case] for
    each of the seven enumerators, so the [assert(false)] and the [throw]
    after it are never reached. *)
Definition compare_body (cmp : Json -> Json -> M Z) (lhs rhs : Json) : M Z :=
  let* lt := type lhs in
  let* rt := type rhs in
  let type_diff := JsonType.to_int lt - JsonType.to_int rt in
  if negb (type_diff =? 0) then ret (int_sign type_diff)
  else
    match lt with
    | JsonType.Null => ret 0
    | JsonType.Boolean =>
        let* l := BooleanNode_value lhs in
        let* r := BooleanNode_value rhs in
        ret (b2z l - b2z r)
    | JsonType.Integer =>
        let* l := IntegerNode_value lhs in
        let* r := IntegerNode_value rhs in
        ret (number_compare l r)
    | JsonType.Number =>
        let* l := NumberNode_value lhs in
        let* r := NumberNode_value rhs in
        ret (number_compare l r)
    | JsonType.String =>
        let* l := toString lhs in
        let* r := toString rhs in
        ret (string_compare l r)
    | JsonType.Array =>
        let* la := toArray lhs in
        let* ra := toArray rhs in
        array_compare cmp la ra
    | JsonType.Object =>
        let* lo := toObject lhs in
        let* ro := toObject rhs in
        object_compare cmp lo ro
    end.

(** [int compare(const Json& lhs, const Json& rhs)].  The recursion follows
    the pointers of the heap, so the model takes fuel: one unit per level of
    nesting. *)
Fixpoint compare (fuel : nat) (lhs rhs : Json) : M Z :=
  match fuel with
  | O => out_of_fuel
  | S fuel' => compare_body (compare fuel') lhs rhs
  end.

(** [bool operator==(const Json& lhs, const Json& rhs)]. *)
Definition equals (fuel : nat) (lhs rhs : Json) : M bool :=
  if decide (impl lhs = impl rhs) then ret true
  else
    let* lt := type lhs in
    let* rt := type rhs in
    if negb (JsonType.eqb lt rt) then ret false
    else let* c := compare fuel lhs rhs in ret (c =? 0).

(** [bool operator!=(const Json& lhs, const Json& rhs)]. *)
Definition not_equals (fuel : nat) (lhs rhs : Json) : M bool :=
  let* e := equals fuel lhs rhs in ret (negb e).

(** ** Building states for examples *)

(** The value a computation returns, if it returns. *)
Definition result {A} (o : outcome (A * state)) : option A :=
  match o with
  | Ret (a, _) => Some a
  | _ => None
  end.

(** An array of the given integers, built with [Array()] and [push]. *)
Fixpoint push_ints (a : Json) (l : list Z) : M unit :=
  match l with
  | [] => ret tt
  | x :: l' =>
      let* e := Json_int x in
      let* _ := push a e in
      push_ints a l'
  end.

Definition array_of_ints (l : list Z) : M Json :=
  let* a := Array_default in
  let* _ := push_ints a l in
  ret a.

(** ** Invariants of the state *)

(** Each initialised singleton pointer refers to its node. *)
Definition statics_ok (s : state) : Prop :=
  (forall p, null_instance s = Some p -> heap s !! p = Some NullNode) /\
  (forall p, true_instance s = Some p -> heap s !! p = Some (BooleanNode true)) /\
  (forall p, false_instance s = Some p -> heap s !! p = Some (BooleanNode false)).

(** The keys of a [std::map] are strictly increasing. *)
Definition string_lt (a b : string) : Prop := String.compare a b = Lt.

Definition map_sorted (m : json_map) : Prop := StronglySorted string_lt m.*1.

(** [tree n s j]: the value [j] refers to is a tree of nodes of [s] of depth
    at most [n], whose containers have a size [int] can hold. *)
Fixpoint tree (n : nat) (s : state) (j : Json) : Prop :=
  match n with
  | O => False
  | S n' =>
      match heap s !! impl j with
      | None => False
      | Some (ArrayNode v) =>
          Z.of_nat (length v) <= INT_MAX /\ Forall (tree n' s) v
      | Some (ObjectNode m) =>
          Z.of_nat (length m) <= INT_MAX /\ Forall (fun kv => tree n' s kv.2) m
      | Some _ => True
      end
  end.

(** ** Specification-level ordering of sequences *)

(** "Element-wise comparison in index order, first non-zero result wins":
    [elementwise cmp s l r c] holds when comparing [l] and [r] position by
    position with [cmp] in state [s] gives [0] up to the first position whose
    result [c] is not [0], or gives [0] everywhere and [c = 0]. *)
Inductive elementwise (cmp : Json -> Json -> M Z) (s : state) :
    list Json -> list Json -> Z -> Prop :=
| elementwise_nil : elementwise cmp s [] [] 0
| elementwise_zero x y l r c :
    cmp x y s = Ret (0, s) ->
    elementwise cmp s l r c ->
    elementwise cmp s (x :: l) (y :: r) c
| elementwise_first x y l r c :
    cmp x y s = Ret (c, s) ->
    c <> 0 ->
    length l = length r ->
    elementwise cmp s (x :: l) (y :: r) c.

(** "Compare the key-ordered sequences of (key, value) pairs
    lexicographically by key first, then by value, first non-zero result
    wins": [by_key_then_value cmp s l r c] holds when this rule allows the
    result [c] on [l] and [r].  At the first position where the entries
    differ, a key that sorts before the other one in the lexicographic order
    makes the result negative, a key that sorts after it makes the result
    positive, and under the same key the result is the comparison of the two
    values by [cmp]; [c = 0] when no position differs. *)
Inductive by_key_then_value (cmp : Json -> Json -> M Z) (s : state) :
    json_map -> json_map -> Z -> Prop :=
| by_key_nil : by_key_then_value cmp s [] [] 0
| by_key_same k x y l r c :
    cmp x y s = Ret (0, s) ->
    by_key_then_value cmp s l r c ->
    by_key_then_value cmp s ((k, x) :: l) ((k, y) :: r) c
| by_key_before k k' x y l r c :
    lexicographic k k' = -1 ->
    c < 0 ->
    length l = length r ->
    by_key_then_value cmp s ((k, x) :: l) ((k', y) :: r) c
| by_key_after k k' x y l r c :
    lexicographic k k' = 1 ->
    0 < c ->
    length l = length r ->
    by_key_then_value cmp s ((k, x) :: l) ((k', y) :: r) c
| by_value k x y l r c :
    cmp x y s = Ret (c, s) ->
    c <> 0 ->
    length l = length r ->
    by_key_then_value cmp s ((k, x) :: l) ((k, y) :: r) c.

(** What the loop of [object_compare] returns on two maps of the same size:
    the result of [std::string::compare] on the first two keys that differ,
    or of [cmp] on the first two values that do under the same key. *)
Inductive entrywise (cmp : Json -> Json -> M Z) (s : state) :
    json_map -> json_map -> Z -> Prop :=
| entrywise_nil : entrywise cmp s [] [] 0
| entrywise_zero k x y l r c :
    cmp x y s = Ret (0, s) ->
    entrywise cmp s l r c ->
    entrywise cmp s ((k, x) :: l) ((k, y) :: r) c
| entrywise_key k k' x y l r :
    string_compare k k' <> 0 ->
    length l = length r ->
    entrywise cmp s ((k, x) :: l) ((k', y) :: r) (string_compare k k')
| entrywise_value k x y l r c :
    cmp x y s = Ret (c, s) ->
    c <> 0 ->
    length l = length r ->
    entrywise cmp s ((k, x) :: l) ((k, y) :: r) c.

(** ** Signs of doubles *)

(** [(0 < d) - (d < 0)] on a [double]. *)
Definition float_sign (d : double) : Z :=
  b2z (dbl_lt dbl_zero d) - b2z (dbl_lt d dbl_zero).

(** A number that is not zero and has the sign bit [sx]. *)
Definition signed (sx : bool) (d : double) : Prop :=
  match d with
  | S754_finite s _ _ => s = sx
  | S754_infinity s => s = sx
  | _ => False
  end.

(** The exact difference of two finite numbers, in units of the smaller of
    their exponents. *)
Definition exact_diff (sx : bool) (mx : positive) (ex : Z)
    (sy : bool) (my : positive) (ey : Z) : Z :=
  cond_Zopp sx (Z.pos (fst (shl_align mx ex (Z.min ex ey))))
  - cond_Zopp sy (Z.pos (fst (shl_align my ey (Z.min ex ey)))).

(** The values a [double] can take: canonical mantissa, exponent in range. *)
Definition dbl_valid (d : double) : Prop := valid_binary dbl_prec dbl_emax d = true.

(** The result of the native comparison of two doubles as an [int] sign;
    unordered operands (a NaN) give [0]. *)
Definition dbl_compare_sign (x y : double) : Z :=
  match SFcompare x y with
  | Some Lt => -1
  | Some Gt => 1
  | _ => 0
  end.

(** A double as an integer number of units [2^emin]; the infinities are
    placed beyond every finite number. *)
Definition scaled (prec emax : Z) (d : spec_float) : Z :=
  match d with
  | S754_zero _ => 0
  | S754_infinity s => cond_Zopp s (2 ^ (emax - emin prec emax))
  | S754_nan => 0
  | S754_finite s m e => cond_Zopp s (Z.pos m * 2 ^ (e - emin prec emax))
  end.

(** ** Values on which the order is total *)

(** Three results, of comparing [a] with [b], [b] with [c] and [a] with
    [c], that a transitive order can give. *)
Definition consistent (c1 c2 c3 : Z) : Prop :=
  (c1 <= 0 -> c2 <= 0 -> c3 <= 0 /\ (c1 < 0 \/ c2 < 0 -> c3 < 0)) /\
  (0 <= c1 -> 0 <= c2 -> 0 <= c3 /\ (0 < c1 \/ 0 < c2 -> 0 < c3)).

(** Integers any two of which have a difference [int] can hold. *)
Definition small_int (x : Z) : Prop := - 2 ^ 30 <= x < 2 ^ 30.

(** Doubles that are ordered: every value but the NaN. *)
Definition dbl_ordered (d : double) : Prop := dbl_valid d /\ d <> dbl_nan.

Definition dbl_scaled (d : double) : Z := scaled dbl_prec dbl_emax d.

(** [orderable n s j]: a tree of depth at most [n] whose integers are small
    and whose doubles are ordered. *)
Fixpoint orderable (n : nat) (s : state) (j : Json) : Prop :=
  match n with
  | O => False
  | S n' =>
      match heap s !! impl j with
      | None => False
      | Some (IntegerNode x) => small_int x
      | Some (NumberNode d) => dbl_ordered d
      | Some (ArrayNode v) =>
          Z.of_nat (length v) <= INT_MAX /\ Forall (orderable n' s) v
      | Some (ObjectNode m) =>
          Z.of_nat (length m) <= INT_MAX /\
          Forall (fun kv => orderable n' s kv.2) m
      | Some _ => True
      end
  end.

(** ** States for examples *)

(** [static const Json null = Json(nullptr);] is initialised before [main]:
    the state a program starts in, and the handle [json::null]. *)
Definition program_start : state := mkState [NullNode] (Some 0%nat) None None.
Definition json_null : Json := mkJson 0.

(** An example state: the null singleton, an object [{"a": 1}], the array
    [[1, "x"]] and an empty array. *)
Definition example_state : state :=
  mkState
    [ NullNode;
      ObjectNode [("a"%string, mkJson 2)];
      IntegerNode 1;
      ArrayNode [mkJson 2; mkJson 4];
      StringNode "x";
      ArrayNode [] ]
    (Some 0%nat) None None.

(** A state to compare in: the integers 1, 2, 3, the arrays [[1,2]],
    [[1,2,3]] and [[1,3]], the objects [{"a":1}] and [{"a":1,"b":2}]. *)
Definition order_state : state :=
  mkState
    [ IntegerNode 1; IntegerNode 2; IntegerNode 3;
      ArrayNode [mkJson 0; mkJson 1];
      ArrayNode [mkJson 0; mkJson 1; mkJson 2];
      ArrayNode [mkJson 0; mkJson 2];
      ObjectNode [("a"%string, mkJson 0)];
      ObjectNode [("a"%string, mkJson 0); ("b"%string, mkJson 1)] ]
    None None None.

(** A state to compare containers and strings in: the integers 1 and 2,
    the arrays [[1]] and [[1,2]], the objects [{"a":1}], [{"c":1}] and
    [{"a":2}], the strings ["ab"] and ["b"]. *)
Definition keys_state : state :=
  mkState
    [ IntegerNode 1; IntegerNode 2;
      ArrayNode [mkJson 0];
      ArrayNode [mkJson 0; mkJson 1];
      ObjectNode [("a"%string, mkJson 0)];
      ObjectNode [("c"%string, mkJson 0)];
      ObjectNode [("a"%string, mkJson 1)];
      StringNode "ab"; StringNode "b" ]
    None None None.


(** ** Frames *)


(** A state with numbers: a NaN, [1.0], [2.0], and the integers [2^31 - 1]
    and [-1]. *)
Definition number_state : state :=
  mkState
    [ NumberNode dbl_nan; NumberNode (dbl_of_pos 1); NumberNode (dbl_of_pos 2);
      IntegerNode INT_MAX; IntegerNode (-1) ]
    None None None.

(** The handle [e] refers to an integer node that holds [x]. *)
Definition int_at (s : state) (e : Json) (x : Z) : Prop :=
  heap s !! impl e = Some (IntegerNode x).

(** ** Callers: element and entry assignment *)

(** [a.push(x1); ...; a.push(xn);] *)
Fixpoint push_list (a : Json) (xs : list Json) : M unit :=
  match xs with
  | [] => ret tt
  | x :: xs' => let* _ := push a x in push_list a xs'
  end.

(** [arr[index] = val;]: [operator[](int)], then the copy assignment of the
    handle it refers to. *)
Definition assign_index (j : Json) (index : Z) (val : Json) : M unit :=
  let* r := Json_index j index in ref_set r val.

(** [obj[key] = val;]: [operator[](const std::string&)], then the copy
    assignment of the handle it refers to. *)
Definition assign_key (j : Json) (key : string) (val : Json) : M unit :=
  let* r := Json_index_key j key in ref_set r val.

(** The nodes with a container payload; the others are the scalars. *)
Definition is_container (n : Node) : Prop :=
  match n with
  | ArrayNode _ | ObjectNode _ => True
  | _ => False
  end.

(** [nodes_kept s s']: every address of the heap of [s] holds in [s'] a
    node of the same kind, with the same payload when it is a scalar. *)
Definition nodes_kept (s s' : state) : Prop :=
  forall p n, heap s !! p = Some n ->
    exists n', heap s' !! p = Some n' /\ Node_type n' = Node_type n /\
               (~ is_container n -> n' = n).

(** One call of an operation of the interface that returns, from the state
    before to the state after. *)
Inductive api_step (s s' : state) : Prop :=
| step_Json_default j : Json_default s = Ret (j, s') -> api_step s s'
| step_Json_nullptr j : Json_nullptr s = Ret (j, s') -> api_step s s'
| step_Json_bool b j : Json_bool b s = Ret (j, s') -> api_step s s'
| step_Json_int i j : Json_int i s = Ret (j, s') -> api_step s s'
| step_Json_double d j : Json_double d s = Ret (j, s') -> api_step s s'
| step_Json_string str j : Json_string str s = Ret (j, s') -> api_step s s'
| step_Array_default j : Array_default s = Ret (j, s') -> api_step s s'
| step_Object_default j : Object_default s = Ret (j, s') -> api_step s s'
| step_toArray j a : toArray j s = Ret (a, s') -> api_step s s'
| step_toObject j o : toObject j s = Ret (o, s') -> api_step s s'
| step_assign_nullptr j j' : assign_nullptr j s = Ret (j', s') -> api_step s s'
| step_assign_bool j b j' : assign_bool j b s = Ret (j', s') -> api_step s s'
| step_assign_int j i j' : assign_int j i s = Ret (j', s') -> api_step s s'
| step_assign_double j d j' : assign_double j d s = Ret (j', s') -> api_step s s'
| step_assign_string j str j' :
    assign_string j str s = Ret (j', s') -> api_step s s'
| step_push j x : push j x s = Ret (tt, s') -> api_step s s'
| step_index_key j key r : Json_index_key j key s = Ret (r, s') -> api_step s s'
| step_index_key_const j key x :
    Json_index_key_const j key s = Ret (x, s') -> api_step s s'
| step_ref_set r val : ref_set r val s = Ret (tt, s') -> api_step s s'
| step_compare n a b c : compare n a b s = Ret (c, s') -> api_step s s'
| step_equals n a b e : equals n a b s = Ret (e, s') -> api_step s s'.

(** Any number of calls, one after the other. *)
Inductive api_steps : state -> state -> Prop :=
| api_steps_refl s : api_steps s s
| api_steps_step s1 s2 s3 :
    api_step s1 s2 -> api_steps s2 s3 -> api_steps s1 s3.

(** The elementary changes of the state the operations are made of: a node
    is allocated, a singleton is initialised, or the payload of a container
    node is replaced by a payload of the same kind. *)
Inductive micro_step (s : state) : state -> Prop :=
| micro_alloc n :
    micro_step s (mkState (heap s ++ [n]) (null_instance s) (true_instance s)
                          (false_instance s))
| micro_null :
    null_instance s = None ->
    micro_step s (mkState (heap s ++ [NullNode]) (Some (length (heap s)))
                          (true_instance s) (false_instance s))
| micro_true :
    true_instance s = None ->
    micro_step s (mkState (heap s ++ [BooleanNode true]) (null_instance s)
                          (Some (length (heap s))) (false_instance s))
| micro_false :
    false_instance s = None ->
    micro_step s (mkState (heap s ++ [BooleanNode false]) (null_instance s)
                          (true_instance s) (Some (length (heap s))))
| micro_store p n n' :
    heap s !! p = Some n -> is_container n -> Node_type n' = Node_type n ->
    micro_step s (mkState (<[p := n']> (heap s)) (null_instance s)
                          (true_instance s) (false_instance s)).

Inductive micro_steps : state -> state -> Prop :=
| micro_steps_refl s : micro_steps s s
| micro_steps_step s1 s2 s3 :
    micro_step s1 s2 -> micro_steps s2 s3 -> micro_steps s1 s3.

(** [same_elsewhere p s s']: the two states have the same nodes at every
    address but [p], and the same singletons. *)
Definition same_elsewhere (p : ptr) (s s' : state) : Prop :=
  (forall q, q <> p -> heap s' !! q = heap s !! q) /\
  null_instance s' = null_instance s /\
  true_instance s' = true_instance s /\
  false_instance s' = false_instance s.

(** * Properties *)

(** ** Arithmetic *)

Lemma int_wrap_id (z : Z) : int_range z -> int_wrap z = z.
Proof.
  unfold int_range, INT_MIN, INT_MAX, int_wrap. intros Hz.
  rewrite Z.mod_small; lia.
Qed.

Lemma int_wrap_range (z : Z) : int_range (int_wrap z).
Proof.
  unfold int_range, INT_MIN, INT_MAX, int_wrap.
  pose proof (Z.mod_pos_bound (z + 2 ^ 31) (2 ^ 32)). lia.
Qed.

Lemma int_sign_neg (z : Z) : z < 0 -> int_sign z = -1.
Proof.
  intros Hz. unfold int_sign.
  destruct (Z.ltb_spec 0 z), (Z.ltb_spec z 0); simpl; lia.
Qed.

Lemma int_sign_pos (z : Z) : 0 < z -> int_sign z = 1.
Proof.
  intros Hz. unfold int_sign.
  destruct (Z.ltb_spec 0 z), (Z.ltb_spec z 0); simpl; lia.
Qed.

Lemma int_sign_zero : int_sign 0 = 0.
Proof. reflexivity. Qed.

Lemma size_t_of_int_nonneg (i : Z) :
  0 <= i -> int_range i -> size_t_of_int i = i.
Proof.
  unfold int_range, INT_MAX, size_t_of_int. intros H0 Hi.
  apply Z.mod_small. lia.
Qed.

Lemma size_t_of_int_neg (i : Z) :
  i < 0 -> int_range i -> size_t_of_int i = i + 2 ^ 64.
Proof.
  unfold int_range, INT_MIN, size_t_of_int. intros H0 Hi.
  symmetry. apply (Z.mod_unique_pos _ _ (-1)); lia.
Qed.

(** On integers whose difference [int] can hold, [number_compare] is the
    sign of the difference. *)
Lemma number_compare_int_small (x y : Z) :
  int_range (x - y) -> number_compare x y = int_sign (x - y).
Proof.
  intros Hr. unfold number_compare. simpl.
  rewrite (int_wrap_id _ Hr). reflexivity.
Qed.

Lemma number_compare_int_refl (x : Z) : number_compare x x = 0.
Proof. unfold number_compare. simpl. rewrite Z.sub_diag. reflexivity. Qed.

Lemma number_compare_double_refl (x : double) : number_compare x x = 0.
Proof.
  unfold number_compare. simpl.
  destruct x as [[]|[]| |sx mx ex]; try reflexivity.
  unfold dbl_sub, SFsub. rewrite Z.sub_diag. reflexivity.
Qed.

(** ** Strings and maps *)

Lemma String_compare_refl (a : string) : String.compare a a = Eq.
Proof.
  induction a as [|c a IH]; simpl; [reflexivity|].
  unfold Ascii.compare. rewrite N.compare_refl. exact IH.
Qed.

Lemma size_compare_S (n m : nat) : size_compare (S n) (S m) = size_compare n m.
Proof.
  unfold size_compare.
  replace (Z.of_nat (S n) - Z.of_nat (S m)) with (Z.of_nat n - Z.of_nat m) by lia.
  reflexivity.
Qed.

Lemma byte_of_inj (a b : Ascii.ascii) : byte_of a = byte_of b -> a = b.
Proof.
  unfold byte_of. intros H. apply N2Z.inj in H.
  rewrite <- (Ascii.ascii_N_embedding a), <- (Ascii.ascii_N_embedding b), H. reflexivity.
Qed.

Lemma string_compare_cons (a b : Ascii.ascii) (s t : string) :
  string_compare (String a s) (String b t)
  = if Ascii.eqb a b then string_compare s t else byte_of a - byte_of b.
Proof.
  unfold string_compare. simpl traits_compare. simpl String.length.
  destruct (Ascii.eqb_spec a b) as [->|Hne].
  - rewrite size_compare_S. reflexivity.
  - destruct (Z.eqb_spec (byte_of a - byte_of b) 0) as [E|]; [|reflexivity].
    exfalso. apply Hne, byte_of_inj. lia.
Qed.

(** The sign of [std::string::compare] is the lexicographic order. *)
Lemma string_compare_sign (a : string) :
  forall b, Z.sgn (string_compare a b) = lexicographic a b.
Proof.
  unfold lexicographic.
  induction a as [|x a IH]; intros [|y b].
  - reflexivity.
  - unfold string_compare, size_compare, INT_MIN, INT_MAX. simpl.
    repeat match goal with |- context [?u <? ?v] =>
      destruct (Z.ltb_spec u v) end; lia.
  - unfold string_compare, size_compare, INT_MIN, INT_MAX. simpl.
    repeat match goal with |- context [?u <? ?v] =>
      destruct (Z.ltb_spec u v) end; lia.
  - rewrite string_compare_cons. simpl String.compare. unfold Ascii.compare.
    destruct (Ascii.eqb_spec x y) as [->|Hne].
    + rewrite N.compare_refl. apply IH.
    + destruct (N.compare_spec (Ascii.N_of_ascii x) (Ascii.N_of_ascii y)) as [E|E|E];
        unfold byte_of; [|lia|lia].
      exfalso. apply Hne, byte_of_inj. unfold byte_of. rewrite E. reflexivity.
Qed.

Lemma string_compare_refl (a : string) : string_compare a a = 0.
Proof.
  apply Z.sgn_null_iff. rewrite string_compare_sign. unfold lexicographic.
  rewrite String_compare_refl. reflexivity.
Qed.

Lemma string_compare_eq (a b : string) : string_compare a b = 0 -> a = b.
Proof.
  intros H. apply String.compare_eq_iff.
  pose proof (string_compare_sign a b) as E. rewrite H in E.
  unfold lexicographic in E.
  destruct (String.compare a b); [reflexivity|discriminate E|discriminate E].
Qed.

Lemma string_lt_irrefl (a : string) : ~ string_lt a a.
Proof.
  unfold string_lt. rewrite String_compare_refl. discriminate.
Qed.

Lemma map_find_None (key : string) (m : json_map) :
  map_find key m = None <-> key ∉ m.*1.
Proof.
  induction m as [|[k x] m IH]; simpl.
  - split; [intros _; apply not_elem_of_nil | reflexivity].
  - destruct (String.eqb_spec key k) as [->|Hne].
    + split; [discriminate|]. intros H. exfalso. apply H. left.
    + rewrite IH. rewrite not_elem_of_cons. tauto.
Qed.

Lemma map_find_Some (key : string) (x : Json) (m : json_map) :
  map_sorted m -> (key, x) ∈ m -> map_find key m = Some x.
Proof.
  unfold map_sorted. induction m as [|[k y] m IH]; simpl; intros Hs Hin.
  - apply elem_of_nil in Hin. contradiction.
  - apply StronglySorted_inv in Hs as [Hs Hall].
    apply elem_of_cons in Hin as [Heq|Hin].
    + inversion Heq; subst. rewrite String.eqb_refl. reflexivity.
    + destruct (String.eqb_spec key k) as [->|Hne]; [|auto].
      exfalso. rewrite Forall_forall in Hall.
      apply (string_lt_irrefl k), Hall.
      apply (list_elem_of_fmap_2 fst) in Hin. exact Hin.
Qed.

Lemma map_find_insert (key : string) (x : Json) (m : json_map) :
  map_find key (map_insert key x m) = Some x.
Proof.
  induction m as [|[k y] m IH]; simpl.
  - rewrite String.eqb_refl. reflexivity.
  - destruct (String.compare key k) eqn:E; simpl.
    + apply String.compare_eq_iff in E. subst.
      rewrite String.eqb_refl. reflexivity.
    + rewrite String.eqb_refl. reflexivity.
    + destruct (String.eqb_spec key k) as [->|Hne]; [|exact IH].
      rewrite String_compare_refl in E. discriminate.
Qed.

Lemma map_insert_length (key : string) (x : Json) (m : json_map) :
  map_find key m = None ->
  length (map_insert key x m) = S (length m).
Proof.
  induction m as [|[k y] m IH]; simpl; [reflexivity|].
  destruct (String.eqb_spec key k) as [->|Hne]; [discriminate|].
  intros Hf. destruct (String.compare key k) eqn:E; simpl.
  - apply String.compare_eq_iff in E. contradiction.
  - reflexivity.
  - rewrite IH; auto.
Qed.

Lemma string_lt_trans (a b c : string) :
  string_lt a b -> string_lt b c -> string_lt a c.
Proof.
  unfold string_lt. intros Hab Hbc.
  apply OrderedTypeEx.String_as_OT.cmp_lt.
  apply (OrderedTypeEx.String_as_OT.lt_trans a b c);
    apply OrderedTypeEx.String_as_OT.cmp_lt; assumption.
Qed.

Lemma map_insert_keys (P : string -> Prop) (key : string) (x : Json)
    (m : json_map) :
  P key -> Forall P m.*1 -> Forall P (map_insert key x m).*1.
Proof.
  intros Hk. induction m as [|[k y] m IH]; simpl; intros Hm.
  - apply Forall_cons_2; [exact Hk|apply Forall_nil_2].
  - apply Forall_cons in Hm as [Hy Hm].
    destruct (String.compare key k); simpl.
    + apply Forall_cons_2; assumption.
    + apply Forall_cons_2; [exact Hk|]. apply Forall_cons_2; assumption.
    + apply Forall_cons_2; [exact Hy|apply IH, Hm].
Qed.

(** Insertion keeps the keys of a map strictly increasing. *)
Lemma map_insert_sorted (key : string) (x : Json) (m : json_map) :
  map_sorted m -> map_sorted (map_insert key x m).
Proof.
  unfold map_sorted. induction m as [|[k y] m IH]; simpl; intros Hs.
  - repeat constructor.
  - apply StronglySorted_inv in Hs as [Hs Hall].
    destruct (String.compare key k) eqn:E; simpl.
    + constructor; assumption.
    + constructor; [constructor; assumption|].
      constructor; [exact E|].
      eapply Forall_impl; [exact Hall|].
      intros a Ha. apply (string_lt_trans key k a E Ha).
    + constructor; [apply IH, Hs|].
      apply map_insert_keys; [|exact Hall].
      unfold string_lt. rewrite String.compare_antisym, E. reflexivity.
Qed.

(** ** Reading and allocating nodes *)

Ltac unfold_ops :=
  unfold Json_index_key_const, Json_index_key, Json_at, Json_index,
    Json_length, push, toArray, toObject, Array_from_impl, Object_from_impl,
    Array_data, Object_data, Array_default, Object_default,
    toBool, toInt, toNumber, toString,
    isNull, isBoolean, isInteger, isNumber, isString, isArray, isObject,
    eq_nullptr, type,
    BooleanNode_value, IntegerNode_value, NumberNode_value, StringNode_value,
    ArrayNode_value, ObjectNode_value,
    assign_nullptr, assign_bool, assign_int, assign_double, assign_string,
    Json_default, Json_nullptr, Json_bool, Json_int, Json_double, Json_string,
    Json_impl, Json_copy, vector_at,
    make_shared, store, deref, assert, bind, ret, throw, undefined in *.

Lemma lookup_fresh (h : list Node) (n : Node) :
  (h ++ [n]) !! length h = Some n.
Proof. apply list_lookup_middle. reflexivity. Qed.

Lemma lookup_old (h t : list Node) (p : ptr) (n : Node) :
  h !! p = Some n -> (h ++ t) !! p = Some n.
Proof. apply lookup_app_l_Some. Qed.

Lemma lookup_allocated (h : list Node) (p : ptr) (n : Node) :
  h !! p = Some n -> p <> length h.
Proof. intros H%lookup_lt_Some. lia. Qed.

(** Evaluation of an operation on a handle whose node is known. *)
Ltac eval_node H := unfold_ops; repeat (rewrite H; simpl); try reflexivity.

Lemma type_node (s : state) (j : Json) (n : Node) :
  heap s !! impl j = Some n -> type j s = Ret (Node_type n, s).
Proof. intros H. eval_node H. Qed.

Lemma Json_length_node (s : state) (j : Json) (v : list Json) :
  heap s !! impl j = Some (ArrayNode v) ->
  Json_length j s = Ret (int_wrap (Z.of_nat (length v)), s).
Proof. intros H. eval_node H. Qed.

Lemma Json_at_node (s : state) (j : Json) (v : list Json) (i : Z) :
  heap s !! impl j = Some (ArrayNode v) ->
  Json_at j i s = vector_at v (size_t_of_int i) s.
Proof. intros H. eval_node H. Qed.

Lemma Array_data_node (s : state) (j : Json) (v : list Json) :
  heap s !! impl j = Some (ArrayNode v) -> Array_data j s = Ret (v, s).
Proof. intros H. eval_node H. Qed.

Lemma Object_data_node (s : state) (j : Json) (m : json_map) :
  heap s !! impl j = Some (ObjectNode m) -> Object_data j s = Ret (m, s).
Proof. intros H. eval_node H. Qed.

Lemma toArray_node (s : state) (j : Json) (v : list Json) :
  heap s !! impl j = Some (ArrayNode v) -> toArray j s = Ret (j, s).
Proof. intros H. destruct j. eval_node H. Qed.

Lemma toObject_node (s : state) (j : Json) (m : json_map) :
  heap s !! impl j = Some (ObjectNode m) -> toObject j s = Ret (j, s).
Proof. intros H. destruct j. eval_node H. Qed.

Lemma vector_at_in_range (s : state) (v : list Json) (n : nat) (x : Json) :
  v !! n = Some x -> vector_at v (Z.of_nat n) s = Ret (x, s).
Proof.
  intros H. unfold vector_at. pose proof (lookup_lt_Some _ _ _ H).
  destruct (Z.ltb_spec (Z.of_nat n) (Z.of_nat (length v))); [|lia].
  rewrite Nat2Z.id, H. reflexivity.
Qed.

Lemma vector_at_out_of_range (s : state) (v : list Json) (n : Z) :
  Z.of_nat (length v) <= n -> vector_at v n s = Throw out_of_range.
Proof.
  intros H. unfold vector_at.
  destruct (Z.ltb_spec n (Z.of_nat (length v))); [lia|reflexivity].
Qed.

(** [NullNode::get()] returns the one null node, whatever the state. *)
Lemma NullNode_get_canonical (s : state) :
  statics_ok s ->
  exists p s',
    NullNode_get s = Ret (p, s') /\
    null_instance s' = Some p /\
    heap s' !! p = Some NullNode /\
    (exists t, heap s' = heap s ++ t) /\
    statics_ok s'.
Proof.
  intros Hok. pose proof Hok as (Hn & Ht & Hf). unfold NullNode_get.
  destruct (null_instance s) as [p|] eqn:E.
  - exists p, s. split; [reflexivity|]. split; [exact E|].
    split; [apply Hn; reflexivity|]. split; [|exact Hok].
    exists []. rewrite app_nil_r. reflexivity.
  - eexists _, _. split; [reflexivity|]. simpl.
    split; [reflexivity|]. split; [apply lookup_fresh|].
    split; [eexists; reflexivity|]. split; [|split]; simpl.
    + intros p [= <-]. apply lookup_fresh.
    + intros p Hp. apply lookup_old, Ht, Hp.
    + intros p Hp. apply lookup_old, Hf, Hp.
Qed.

Lemma NullNode_get_idem (s s' : state) (p : ptr) :
  NullNode_get s = Ret (p, s') -> NullNode_get s' = Ret (p, s').
Proof.
  unfold NullNode_get. destruct (null_instance s) eqn:E.
  - intros [= <- <-]. rewrite E. reflexivity.
  - intros [= <- <-]. reflexivity.
Qed.

Lemma program_start_is_static_init :
  Json_nullptr empty_state = Ret (json_null, program_start).
Proof. reflexivity. Qed.

Lemma statics_ok_empty : statics_ok empty_state.
Proof. repeat split; intros p; discriminate. Qed.

Lemma statics_ok_make_shared (s s' : state) (n : Node) (p : ptr) :
  statics_ok s -> make_shared n s = Ret (p, s') -> statics_ok s'.
Proof.
  intros (Hn & Ht & Hf) [= <- <-].
  repeat split; simpl; intros q Hq; apply lookup_old; auto.
Qed.

(** [push] keeps the singletons: it only rewrites an array node. *)
Lemma statics_ok_push (s s' : state) (j x : Json) :
  statics_ok s -> push j x s = Ret (tt, s') -> statics_ok s'.
Proof.
  intros (Hn & Ht & Hf). unfold_ops.
  destruct (heap s !! impl j) as [n|] eqn:E; [|discriminate].
  destruct n; simpl; try discriminate. rewrite E. intros [= <-].
  repeat split; simpl; intros q Hq;
    (rewrite list_lookup_insert_ne; [auto|]); intros Heq;
    [apply Hn in Hq|apply Ht in Hq|apply Hf in Hq]; congruence.
Qed.

Lemma statics_ok_example : statics_ok example_state.
Proof.
  repeat split; intros p; simpl; [|discriminate|discriminate].
  intros [= <-]. reflexivity.
Defined.

(** ** Construction *)

(** C9. A default-constructed handle refers to a new node of kind [Object]
    whose mapping has no entry; it is not null. *)
Theorem default_constructed_is_empty_object (s : state) :
  exists j s',
    Json_default s = Ret (j, s') /\
    type j s' = Ret (JsonType.Object, s') /\
    Object_data j s' = Ret ([], s') /\
    isNull j s' = Ret (false, s') /\
    heap s' = heap s ++ [ObjectNode []].
Proof.
  eexists _, _. split; [reflexivity|].
  match goal with |- type ?j ?s' = _ /\ _ =>
    assert (heap s' !! impl j = Some (ObjectNode [])) as H
      by apply lookup_fresh
  end.
  split; [apply (type_node _ _ _ H)|].
  split; [apply (Object_data_node _ _ _ H)|].
  split; [eval_node H|reflexivity].
Qed.

(** Two handles constructed from [nullptr] share the null singleton. *)
Lemma Json_nullptr_shared (s : state) :
  exists a s1 b s2,
    Json_nullptr s = Ret (a, s1) /\ Json_nullptr s1 = Ret (b, s2) /\
    impl a = impl b /\ s2 = s1.
Proof.
  destruct (NullNode_get s) as [[p s1]| | | |] eqn:E;
    try (unfold NullNode_get in E; destruct (null_instance s); discriminate).
  exists (mkJson p), s1, (mkJson p), s1.
  unfold Json_nullptr, bind, ret.
  rewrite E, (NullNode_get_idem _ _ _ E). auto.
Qed.

(** C2 (the code departs from the claim).  [Json(bool)] goes through
    [std::make_shared<BooleanNode>]: two handles constructed from the same
    boolean refer to two different nodes, none of them the singleton that
    [operator=(bool)] uses, while two handles constructed from [nullptr] do
    share one node. *)
Theorem Json_bool_allocates_a_new_node (bval : bool) (s : state) :
  (exists a s1 b s2,
     Json_bool bval s = Ret (a, s1) /\ Json_bool bval s1 = Ret (b, s2) /\
     impl a <> impl b /\
     heap s2 !! impl a = Some (BooleanNode bval) /\
     heap s2 !! impl b = Some (BooleanNode bval)) /\
  (exists a s1 b s2,
     Json_nullptr s = Ret (a, s1) /\ Json_nullptr s1 = Ret (b, s2) /\
     impl a = impl b).
Proof.
  split.
  - eexists _, _, _, _. split; [reflexivity|]. split; [reflexivity|].
    simpl. rewrite length_app. simpl. split; [lia|]. split.
    + apply lookup_old, lookup_fresh.
    + replace (length (heap s) + 1)%nat with (length (heap s ++ [BooleanNode bval]))
        by (rewrite length_app; reflexivity).
      apply lookup_fresh.
  - destruct (Json_nullptr_shared s) as (a & s1 & b & s2 & H1 & H2 & H3 & _).
    eauto 10.
Qed.

(** ** Keyed access *)

Lemma Json_index_key_const_node (s : state) (j : Json) (m : json_map)
    (key : string) :
  heap s !! impl j = Some (ObjectNode m) ->
  Json_index_key_const j key s =
    match map_find key m with
    | Some x => Ret (x, s)
    | None => Json_nullptr s
    end.
Proof. intros H. eval_node H. destruct (map_find key m); reflexivity. Qed.

(** C6. On an object, the read-only keyed lookup of a key the mapping does
    not hold returns a handle on the null singleton and leaves the object as
    it is; the lookup of a key the mapping holds returns the mapped handle. *)
Theorem keyed_read_of_missing_key_is_null (s : state) (j : Json)
    (m : json_map) (key : string) :
  statics_ok s ->
  heap s !! impl j = Some (ObjectNode m) ->
  map_sorted m ->
  (key ∉ m.*1 ->
   exists n s',
     Json_index_key_const j key s = Ret (n, s') /\
     NullNode_get s = Ret (impl n, s') /\
     type n s' = Ret (JsonType.Null, s') /\
     heap s' !! impl j = Some (ObjectNode m)) /\
  (forall x, (key, x) ∈ m -> Json_index_key_const j key s = Ret (x, s)).
Proof.
  intros Hok Hj Hs. rewrite (Json_index_key_const_node _ _ _ _ Hj). split.
  - intros Hk%map_find_None. rewrite Hk.
    destruct (NullNode_get_canonical s Hok) as (p & s' & Hg & _ & Hp & [t Ht] & _).
    exists (mkJson p), s'. unfold Json_nullptr, bind, ret. rewrite Hg.
    split; [reflexivity|]. split; [reflexivity|].
    split; [apply (type_node s' (mkJson p) _ Hp)|].
    rewrite Ht. apply lookup_old, Hj.
  - intros x Hx. rewrite (map_find_Some _ _ _ Hs Hx). reflexivity.
Qed.

Lemma keyed_read_of_missing_key_is_null_witness :
  statics_ok example_state /\
  heap example_state !! impl (mkJson 1) =
    Some (ObjectNode [("a"%string, mkJson 2)]) /\
  map_sorted [("a"%string, mkJson 2)] /\
  ("b"%string ∉ [("a"%string, mkJson 2)].*1 ->
   exists n s',
     Json_index_key_const (mkJson 1) "b" example_state = Ret (n, s') /\
     NullNode_get example_state = Ret (impl n, s') /\
     type n s' = Ret (JsonType.Null, s') /\
     heap s' !! impl (mkJson 1) = Some (ObjectNode [("a"%string, mkJson 2)])) /\
  (forall x, ("a"%string, x) ∈ [("a"%string, mkJson 2)] ->
     Json_index_key_const (mkJson 1) "a" example_state = Ret (x, example_state)).
Proof.
  assert (map_sorted [("a"%string, mkJson 2)]) as Hs
    by (repeat constructor).
  split; [exact statics_ok_example|]. split; [reflexivity|].
  split; [exact Hs|]. split.
  - apply (keyed_read_of_missing_key_is_null example_state (mkJson 1)
             [("a"%string, mkJson 2)] "b" statics_ok_example eq_refl Hs).
  - apply (keyed_read_of_missing_key_is_null example_state (mkJson 1)
             [("a"%string, mkJson 2)] "a" statics_ok_example eq_refl Hs).
Defined.

(** C10. On an object, the mutable keyed access of a key the mapping does not
    hold allocates a default-constructed value, an empty object, inserts it
    under that key in the node itself, where every copy of the handle finds
    it, and returns the reference to it; the read-only lookup of the same key
    leaves the node as it was. *)
Theorem keyed_access_inserts_default (s : state) (j : Json) (m : json_map)
    (key : string) :
  heap s !! impl j = Some (ObjectNode m) ->
  key ∉ m.*1 ->
  (exists r x s',
     Json_index_key j key s = Ret (r, s') /\
     r = ObjectSlot (impl j) key /\
     ref_get r s' = Ret (x, s') /\
     impl x = length (heap s) /\
     type x s' = Ret (JsonType.Object, s') /\
     Object_data x s' = Ret ([], s') /\
     heap s' !! impl j = Some (ObjectNode (map_insert key x m)) /\
     length (map_insert key x m) = S (length m) /\
     Json_index_key_const (Json_copy j) key s' = Ret (x, s')) /\
  (exists n s',
     Json_index_key_const j key s = Ret (n, s') /\
     heap s' !! impl j = Some (ObjectNode m)).
Proof.
  intros Hj Hk%map_find_None. split.
  - pose proof (lookup_allocated _ _ _ Hj) as Hne.
    pose proof (lookup_lt_Some _ _ _ Hj) as Hlt.
    set (x := mkJson (length (heap s))).
    set (s' := mkState (<[impl j := ObjectNode (map_insert key x m)]>
                          (heap s ++ [ObjectNode []]))
                       (null_instance s) (true_instance s) (false_instance s)).
    assert (Json_index_key j key s = Ret (ObjectSlot (impl j) key, s')) as Hrun.
    { unfold_ops. repeat (rewrite Hj; simpl). rewrite Hk. reflexivity. }
    assert (heap s' !! impl j = Some (ObjectNode (map_insert key x m))) as Hj'.
    { simpl. apply list_lookup_insert_eq. rewrite length_app. lia. }
    assert (heap s' !! impl x = Some (ObjectNode [])) as Hx.
    { simpl. rewrite list_lookup_insert_ne by exact Hne. apply lookup_fresh. }
    exists (ObjectSlot (impl j) key), x, s'.
    split; [exact Hrun|]. split; [reflexivity|].
    split.
    { unfold ref_get, ObjectNode_value, bind, ret, deref. simpl impl.
      rewrite Hj'. rewrite map_find_insert. reflexivity. }
    split; [reflexivity|].
    split; [apply (type_node _ _ _ Hx)|].
    split; [apply (Object_data_node _ _ _ Hx)|].
    split; [exact Hj'|].
    split; [apply map_insert_length, Hk|].
    rewrite (Json_index_key_const_node s' (Json_copy j) _ key Hj').
    rewrite map_find_insert. reflexivity.
  - rewrite (Json_index_key_const_node _ _ _ _ Hj), Hk.
    unfold Json_nullptr, NullNode_get, bind, ret.
    destruct (null_instance s).
    + eexists _, _. split; [reflexivity|exact Hj].
    + eexists _, _. split; [reflexivity|]. simpl. apply lookup_old, Hj.
Qed.

Lemma keyed_access_inserts_default_witness :
  heap example_state !! impl (mkJson 1) =
    Some (ObjectNode [("a"%string, mkJson 2)]) /\
  ("b"%string ∉ [("a"%string, mkJson 2)].*1) /\
  exists r x s',
    Json_index_key (mkJson 1) "b" example_state = Ret (r, s') /\
    ref_get r s' = Ret (x, s') /\
    type x s' = Ret (JsonType.Object, s').
Proof.
  assert ("b"%string ∉ [("a"%string, mkJson 2)].*1) as Hk.
  { apply map_find_None. reflexivity. }
  split; [reflexivity|]. split; [exact Hk|].
  destruct (keyed_access_inserts_default example_state (mkJson 1)
              [("a"%string, mkJson 2)] "b" eq_refl Hk)
    as [(r & x & s' & H1 & _ & H2 & _ & H3 & _) _].
  exists r, x, s'. auto.
Defined.

(** ** Views *)

Lemma Array_from_impl_node (s : state) (p : ptr) (n : Node) :
  heap s !! p = Some n ->
  Array_from_impl p s =
    if JsonType.eqb (Node_type n) JsonType.Array then Ret (mkJson p, s)
    else Json_nullptr s.
Proof.
  intros H. unfold Array_from_impl, Json_nullptr, Json_impl, deref, bind, ret.
  rewrite H. destruct (JsonType.eqb _ _); reflexivity.
Qed.

Lemma Object_from_impl_node (s : state) (p : ptr) (n : Node) :
  heap s !! p = Some n ->
  Object_from_impl p s =
    if JsonType.eqb (Node_type n) JsonType.Object then Ret (mkJson p, s)
    else Json_nullptr s.
Proof.
  intros H. unfold Object_from_impl, Json_nullptr, Json_impl, deref, bind, ret.
  rewrite H. destruct (JsonType.eqb _ _); reflexivity.
Qed.

Lemma JsonType_eqb_eq (a b : JsonType.t) :
  JsonType.eqb a b = true <-> a = b.
Proof.
  destruct a, b; split; intros H; try reflexivity; try discriminate H.
Qed.

(** A handle constructed from [nullptr] refers to the null singleton. *)
Lemma Json_nullptr_canonical (s : state) :
  statics_ok s ->
  exists a s',
    Json_nullptr s = Ret (a, s') /\
    NullNode_get s = Ret (impl a, s') /\
    type a s' = Ret (JsonType.Null, s') /\
    (exists t, heap s' = heap s ++ t).
Proof.
  intros Hok.
  destruct (NullNode_get_canonical s Hok) as (p & s' & Hg & _ & Hp & Ht & _).
  exists (mkJson p), s'. unfold Json_nullptr, bind, ret. rewrite Hg.
  split; [reflexivity|]. split; [reflexivity|].
  split; [apply (type_node s' (mkJson p) _ Hp)|exact Ht].
Qed.

(** C7. [toArray] and [toObject] return on every value.  The view shares the
    value's own node when the node has the container kind asked for, and
    refers to the null singleton otherwise; in particular [toArray] on a
    string yields a handle of kind [Null]. *)
Theorem view_narrowing_never_fails (s : state) (j : Json) (n : Node) :
  statics_ok s ->
  heap s !! impl j = Some n ->
  (exists a s',
     toArray j s = Ret (a, s') /\
     ((Node_type n = JsonType.Array /\ impl a = impl j /\ s' = s) \/
      (Node_type n <> JsonType.Array /\
       NullNode_get s = Ret (impl a, s') /\
       type a s' = Ret (JsonType.Null, s')))) /\
  (exists o s',
     toObject j s = Ret (o, s') /\
     ((Node_type n = JsonType.Object /\ impl o = impl j /\ s' = s) \/
      (Node_type n <> JsonType.Object /\
       NullNode_get s = Ret (impl o, s') /\
       type o s' = Ret (JsonType.Null, s')))) /\
  (forall str, n = StringNode str ->
     exists a s', toArray j s = Ret (a, s') /\
                  type a s' = Ret (JsonType.Null, s')).
Proof.
  intros Hok Hj.
  destruct (Json_nullptr_canonical s Hok) as (z & s' & Hz & Hg & Hty & _).
  assert (exists a s',
     toArray j s = Ret (a, s') /\
     ((Node_type n = JsonType.Array /\ impl a = impl j /\ s' = s) \/
      (Node_type n <> JsonType.Array /\
       NullNode_get s = Ret (impl a, s') /\
       type a s' = Ret (JsonType.Null, s')))) as HA.
  { unfold toArray. rewrite (Array_from_impl_node _ _ _ Hj).
    destruct (JsonType.eqb (Node_type n) JsonType.Array) eqn:E.
    - apply JsonType_eqb_eq in E. exists (mkJson (impl j)), s. auto.
    - exists z, s'. split; [exact Hz|]. right. split; [|auto].
      intros H%JsonType_eqb_eq. congruence. }
  split; [exact HA|]. split.
  - unfold toObject. rewrite (Object_from_impl_node _ _ _ Hj).
    destruct (JsonType.eqb (Node_type n) JsonType.Object) eqn:E.
    + apply JsonType_eqb_eq in E. exists (mkJson (impl j)), s. auto.
    + exists z, s'. split; [exact Hz|]. right. split; [|auto].
      intros H%JsonType_eqb_eq. congruence.
  - intros str ->. destruct HA as (a & sa & Ha & [(Hk & _)|(_ & _ & Hn)]).
    + discriminate.
    + exists a, sa. auto.
Qed.

Lemma view_narrowing_never_fails_witness :
  statics_ok example_state /\
  heap example_state !! impl (mkJson 4) = Some (StringNode "x") /\
  exists a s',
    toArray (mkJson 4) example_state = Ret (a, s') /\
    type a s' = Ret (JsonType.Null, s').
Proof.
  split; [exact statics_ok_example|]. split; [reflexivity|].
  exact (proj2 (proj2 (view_narrowing_never_fails example_state (mkJson 4)
                         (StringNode "x") statics_ok_example eq_refl))
               "x"%string eq_refl).
Defined.

(** ** Indexed access *)

Lemma Json_index_node (s : state) (j : Json) (v : list Json) (i : Z) :
  heap s !! impl j = Some (ArrayNode v) ->
  Json_index j i s =
    if size_t_of_int i <? Z.of_nat (length v)
    then Ret (ArraySlot (impl j) (Z.to_nat (size_t_of_int i)), s)
    else Undefined.
Proof. intros H. eval_node H. destruct (_ <? _); reflexivity. Qed.

(** C5, as the code has it.  On an array whose size a vector can have,
    [at(i)] throws [std::out_of_range] for every [int] [i] with [i < 0] or
    [i >= size], and returns the element at position [i] otherwise;
    [operator[](int)] returns the reference to that element for
    [0 <= i < size], and for every other [int] it does not throw: it has no
    bounds check and its behaviour is undefined. *)
Theorem indexed_read_in_and_out_of_range (s : state) (j : Json)
    (v : list Json) (i : Z) :
  heap s !! impl j = Some (ArrayNode v) ->
  int_range i ->
  Z.of_nat (length v) <= vector_max_size ->
  (i < 0 \/ Z.of_nat (length v) <= i -> Json_at j i s = Throw out_of_range) /\
  (0 <= i < Z.of_nat (length v) ->
   exists x,
     v !! Z.to_nat i = Some x /\
     Json_at j i s = Ret (x, s) /\
     Json_index j i s = Ret (ArraySlot (impl j) (Z.to_nat i), s) /\
     ref_get (ArraySlot (impl j) (Z.to_nat i)) s = Ret (x, s)) /\
  (i < 0 \/ Z.of_nat (length v) <= i ->
   Json_index j i s = Undefined /\ Json_index j i s <> Throw out_of_range).
Proof.
  intros Hj Hi Hmax.
  rewrite (Json_at_node _ _ _ _ Hj), (Json_index_node _ _ _ _ Hj).
  assert (vector_max_size < 2 ^ 63) as Hm by (vm_compute; reflexivity).
  assert (i < 0 \/ Z.of_nat (length v) <= i ->
          Z.of_nat (length v) <= size_t_of_int i) as Hout.
  { intros [Hneg|Hge].
    - rewrite (size_t_of_int_neg _ Hneg Hi).
      unfold int_range, INT_MIN in Hi. lia.
    - rewrite size_t_of_int_nonneg by (auto; lia). exact Hge. }
  split; [|split].
  - intros H. apply vector_at_out_of_range, Hout, H.
  - intros [H0 Hlt]. rewrite (size_t_of_int_nonneg _ H0 Hi).
    destruct (v !! Z.to_nat i) as [x|] eqn:E.
    + exists x. split; [reflexivity|].
      split.
      { rewrite <- (Z2Nat.id i H0) at 1. apply vector_at_in_range, E. }
      destruct (Z.ltb_spec i (Z.of_nat (length v))); [|lia].
      split; [reflexivity|].
      unfold ref_get, ArrayNode_value, bind, ret, deref. simpl impl.
      rewrite Hj, E. reflexivity.
    + apply lookup_ge_None in E. lia.
  - intros H. apply Hout in H.
    destruct (Z.ltb_spec (size_t_of_int i) (Z.of_nat (length v))); [lia|].
    split; [reflexivity|discriminate].
Qed.

Lemma indexed_read_in_and_out_of_range_witness :
  heap example_state !! impl (mkJson 3) = Some (ArrayNode [mkJson 2; mkJson 4]) /\
  int_range 1 /\ int_range 2 /\ int_range (-1) /\
  Z.of_nat (length [mkJson 2; mkJson 4]) <= vector_max_size /\
  Json_at (mkJson 3) 1 example_state = Ret (mkJson 4, example_state) /\
  Json_at (mkJson 3) 2 example_state = Throw out_of_range /\
  Json_index (mkJson 3) 2 example_state = Undefined /\
  Json_at (mkJson 3) (-1) example_state = Throw out_of_range /\
  Json_index (mkJson 3) (-1) example_state = Undefined.
Proof.
  assert (forall i, -1 <= i <= 2 -> int_range i) as Hi
    by (unfold int_range, INT_MIN, INT_MAX; lia).
  assert (Z.of_nat (length [mkJson 2; mkJson 4]) <= vector_max_size) as Hm
    by (vm_compute; discriminate).
  pose proof (fun i H => indexed_read_in_and_out_of_range example_state (mkJson 3)
                           [mkJson 2; mkJson 4] i eq_refl (Hi i H) Hm) as Hthm.
  split; [reflexivity|].
  do 3 (split; [apply Hi; lia|]). split; [exact Hm|].
  split.
  { destruct (Hthm 1 ltac:(lia)) as (_ & Hin & _).
    destruct Hin as (x & Hx & Hat & _); [simpl; lia|].
    simpl in Hx. injection Hx as <-. exact Hat. }
  destruct (Hthm 2 ltac:(lia)) as (Hat2 & _ & Hidx2).
  destruct (Hthm (-1) ltac:(lia)) as (Hat1 & _ & Hidx1).
  split; [apply Hat2; simpl; lia|].
  split; [apply Hidx2; simpl; lia|].
  split; [apply Hat1; simpl; lia|].
  apply Hidx1; simpl; lia.
Defined.

(** C5 (the claim fails on [operator[](int)]).  The indexed access does no
    bounds check: past the end of a one-element array it does not throw, it
    is undefined, while [at] at the same index throws. *)
Lemma indexed_access_is_unchecked :
  (let* a := array_of_ints [7] in Json_index a 5) empty_state = Undefined /\
  (let* a := array_of_ints [7] in Json_index a 5) empty_state
    <> Throw out_of_range /\
  (let* a := array_of_ints [7] in Json_index a (-1)) empty_state = Undefined /\
  (let* a := array_of_ints [7] in Json_at a 5) empty_state = Throw out_of_range.
Proof. repeat split; try reflexivity. discriminate. Qed.

(** ** Shared mutation and detachment *)


Lemma push_node (s : state) (j x : Json) (v : list Json) :
  heap s !! impl j = Some (ArrayNode v) ->
  push j x s =
    Ret (tt, mkState (<[impl j := ArrayNode (v ++ [x])]> (heap s))
                     (null_instance s) (true_instance s) (false_instance s)).
Proof. intros H. eval_node H. Qed.




(** ** [compare]: unfolding the first steps *)

Lemma compare_unfold (n : nat) (s : state) (a b : Json) (na nb : Node) :
  heap s !! impl a = Some na ->
  heap s !! impl b = Some nb ->
  compare (S n) a b s =
    if negb (JsonType.to_int (Node_type na) - JsonType.to_int (Node_type nb) =? 0)
    then Ret (int_sign (JsonType.to_int (Node_type na)
                        - JsonType.to_int (Node_type nb)), s)
    else
      match na, nb with
      | NullNode, _ => Ret (0, s)
      | BooleanNode l, BooleanNode r => Ret (b2z l - b2z r, s)
      | IntegerNode l, IntegerNode r => Ret (number_compare l r, s)
      | NumberNode l, NumberNode r => Ret (number_compare l r, s)
      | StringNode l, StringNode r => Ret (string_compare l r, s)
      | ArrayNode _, _ => array_compare (compare n) a b s
      | ObjectNode _, _ => object_compare (compare n) a b s
      | _, _ => Undefined
      end.
Proof.
  intros Ha Hb. simpl. unfold compare_body.
  unfold bind at 1. rewrite (type_node _ _ _ Ha).
  unfold bind at 1. rewrite (type_node _ _ _ Hb).
  destruct (negb _) eqn:E; [reflexivity|].
  apply negb_false_iff, Z.eqb_eq in E.
  destruct na, nb; simpl in E; try discriminate E; simpl;
    unfold_ops; repeat (rewrite ?Ha, ?Hb; simpl); try reflexivity;
    destruct a, b; reflexivity.
Qed.

(** ** [array_compare] and [object_compare] *)

Lemma elementwise_length cmp s l r c :
  elementwise cmp s l r c -> length l = length r.
Proof. induction 1; simpl; congruence. Qed.

Lemma entrywise_length cmp s l r c :
  entrywise cmp s l r c -> length l = length r.
Proof. induction 1; simpl; congruence. Qed.

Lemma size_is_int (n : nat) :
  Z.of_nat n <= INT_MAX -> int_range (Z.of_nat n).
Proof. unfold int_range, INT_MIN, INT_MAX. lia. Qed.

Lemma size_diff_is_int (n m : nat) :
  Z.of_nat n <= INT_MAX -> Z.of_nat m <= INT_MAX ->
  int_range (Z.of_nat n - Z.of_nat m).
Proof. unfold int_range, INT_MIN, INT_MAX. lia. Qed.

Lemma array_compare_node cmp s a b la lb :
  heap s !! impl a = Some (ArrayNode la) ->
  heap s !! impl b = Some (ArrayNode lb) ->
  array_compare cmp a b s =
    let size_diff :=
      int_wrap (int_wrap (Z.of_nat (length la)) - int_wrap (Z.of_nat (length lb))) in
    if negb (size_diff =? 0) then Ret (int_sign size_diff, s)
    else array_compare_loop cmp a b 0 (Z.to_nat (int_wrap (Z.of_nat (length la)))) s.
Proof.
  intros Ha Hb. unfold array_compare.
  unfold bind at 1. rewrite (Json_length_node _ _ _ Ha).
  unfold bind at 1. rewrite (Json_length_node _ _ _ Hb).
  simpl. destruct (negb _); reflexivity.
Qed.

Lemma object_compare_node cmp s a b lm rm :
  heap s !! impl a = Some (ObjectNode lm) ->
  heap s !! impl b = Some (ObjectNode rm) ->
  object_compare cmp a b s =
    let size_diff :=
      int_wrap (int_wrap (Z.of_nat (length lm)) - int_wrap (Z.of_nat (length rm))) in
    if negb (size_diff =? 0) then Ret (int_sign size_diff, s)
    else object_compare_loop cmp lm rm s.
Proof.
  intros Ha Hb. unfold object_compare.
  unfold bind at 1. rewrite (Object_data_node _ _ _ Ha).
  unfold bind at 1. rewrite (Object_data_node _ _ _ Hb).
  simpl. destruct (negb _); reflexivity.
Qed.

(** The loop of [array_compare] computes the element-wise comparison. *)
Lemma array_compare_loop_elementwise cmp s a b la lb :
  heap s !! impl a = Some (ArrayNode la) ->
  heap s !! impl b = Some (ArrayNode lb) ->
  Z.of_nat (length la) <= INT_MAX ->
  forall l r c, elementwise cmp s l r c ->
  forall pl pr, la = pl ++ l -> lb = pr ++ r -> length pl = length pr ->
  array_compare_loop cmp a b (Z.of_nat (length pl)) (length l) s = Ret (c, s).
Proof.
  intros Ha Hb Hmax l r c Hel.
  assert (forall pl x l', la = pl ++ x :: l' ->
            Json_at a (Z.of_nat (length pl)) s = Ret (x, s)) as Hat_a.
  { intros pl x l' E. rewrite (Json_at_node _ _ _ _ Ha).
    rewrite size_t_of_int_nonneg; [|lia|].
    - apply vector_at_in_range. rewrite E. apply list_lookup_middle. reflexivity.
    - apply size_is_int. rewrite E, length_app in Hmax. lia. }
  assert (forall pl pr x l' y r', la = pl ++ x :: l' -> lb = pr ++ y :: r' ->
            length pl = length pr ->
            Json_at b (Z.of_nat (length pl)) s = Ret (y, s)) as Hat_b.
  { intros pl pr x l' y r' E E' Hlen. rewrite (Json_at_node _ _ _ _ Hb).
    rewrite size_t_of_int_nonneg; [|lia|].
    - apply vector_at_in_range. rewrite E', Hlen.
      apply list_lookup_middle. reflexivity.
    - apply size_is_int. rewrite E, length_app in Hmax. lia. }
  induction Hel as [|x y l r c Hc Hel IH|x y l r c Hc Hne Hlen];
    intros pl pr El Er Hp; simpl.
  - reflexivity.
  - unfold bind at 1. rewrite (Hat_a _ _ _ El).
    unfold bind at 1. rewrite (Hat_b _ _ _ _ _ _ El Er Hp).
    unfold bind at 1. rewrite Hc. simpl.
    replace (Z.of_nat (length pl) + 1) with (Z.of_nat (length (pl ++ [x])))
      by (rewrite length_app; simpl; lia).
    apply (IH (pl ++ [x]) (pr ++ [y])).
    + rewrite El, <- app_assoc. reflexivity.
    + rewrite Er, <- app_assoc. reflexivity.
    + rewrite !length_app. simpl. lia.
  - unfold bind at 1. rewrite (Hat_a _ _ _ El).
    unfold bind at 1. rewrite (Hat_b _ _ _ _ _ _ El Er Hp).
    unfold bind at 1. rewrite Hc.
    destruct (Z.eqb_spec c 0); [contradiction|reflexivity].
Qed.

(** The loop of [object_compare] computes the entry-wise comparison. *)
Lemma object_compare_loop_entrywise cmp s l r c :
  entrywise cmp s l r c -> object_compare_loop cmp l r s = Ret (c, s).
Proof.
  induction 1 as [|k x y l r c Hc Hel IH|k k' x y l r Hne Hlen
                  |k x y l r c Hc Hne Hlen]; simpl.
  - reflexivity.
  - rewrite string_compare_refl. simpl. unfold bind. rewrite Hc. simpl.
    exact IH.
  - destruct (Z.eqb_spec (string_compare k k') 0); [contradiction|reflexivity].
  - rewrite string_compare_refl. simpl. unfold bind. rewrite Hc.
    destruct (Z.eqb_spec c 0); [contradiction|reflexivity].
Qed.

(** The rule "by key first, then by value" and the loop of [object_compare]
    agree: a result the rule allows has the sign of the result of the loop,
    which the rule allows too. *)
Lemma by_key_then_value_entrywise cmp s l r c :
  by_key_then_value cmp s l r c ->
  exists c', entrywise cmp s l r c' /\ by_key_then_value cmp s l r c' /\
             Z.sgn c' = Z.sgn c.
Proof.
  induction 1 as [|k x y l r c Hc H IH|k k' x y l r c Hk Hneg Hlen
                  |k k' x y l r c Hk Hpos Hlen|k x y l r c Hc Hne Hlen].
  - exists 0. repeat split; constructor.
  - destruct IH as (c' & He & Hb & Hs). exists c'.
    split; [apply entrywise_zero; assumption|].
    split; [apply by_key_same; assumption|exact Hs].
  - pose proof (string_compare_sign k k') as Hs. rewrite Hk in Hs.
    exists (string_compare k k').
    split; [apply entrywise_key; [lia|exact Hlen]|].
    split; [apply by_key_before; [exact Hk|lia|exact Hlen]|lia].
  - pose proof (string_compare_sign k k') as Hs. rewrite Hk in Hs.
    exists (string_compare k k').
    split; [apply entrywise_key; [lia|exact Hlen]|].
    split; [apply by_key_after; [exact Hk|lia|exact Hlen]|lia].
  - exists c. split; [apply entrywise_value; assumption|].
    split; [apply by_value; assumption|reflexivity].
Qed.

(** C8. Two arrays whose sizes [int] can hold: the shorter one sorts first;
    at equal sizes the result is the first non-zero comparison of two
    elements at the same index, taken in index order, and [0] when there is
    none.  Two objects likewise: the one with fewer entries sorts first; at
    equal sizes the two key-ordered sequences of entries are walked together,
    keys compared before values: the result is the one of the first entry
    that differs, negative or positive as its key sorts before or after the
    other key in the lexicographic order, the comparison of the two values
    under the same key, and [0] when no entry differs. *)
Theorem compare_of_containers (n : nat) (s : state) (a b p q : Json)
    (la lb : list Json) (lm rm : json_map) :
  heap s !! impl a = Some (ArrayNode la) ->
  heap s !! impl b = Some (ArrayNode lb) ->
  heap s !! impl p = Some (ObjectNode lm) ->
  heap s !! impl q = Some (ObjectNode rm) ->
  Z.of_nat (length la) <= INT_MAX ->
  Z.of_nat (length lb) <= INT_MAX ->
  Z.of_nat (length lm) <= INT_MAX ->
  Z.of_nat (length rm) <= INT_MAX ->
  ((length la < length lb)%nat -> compare (S n) a b s = Ret (-1, s)) /\
  ((length lb < length la)%nat -> compare (S n) a b s = Ret (1, s)) /\
  (forall c, elementwise (compare n) s la lb c ->
             compare (S n) a b s = Ret (c, s)) /\
  ((length lm < length rm)%nat -> compare (S n) p q s = Ret (-1, s)) /\
  ((length rm < length lm)%nat -> compare (S n) p q s = Ret (1, s)) /\
  (forall c, by_key_then_value (compare n) s lm rm c ->
             exists c', compare (S n) p q s = Ret (c', s) /\
                        by_key_then_value (compare n) s lm rm c' /\
                        Z.sgn c' = Z.sgn c).
Proof.
  intros Ha Hb Hp Hq Hla Hlb Hlm Hrm.
  rewrite (compare_unfold n s a b _ _ Ha Hb).
  rewrite (compare_unfold n s p q _ _ Hp Hq). simpl.
  rewrite (array_compare_node _ _ _ _ _ _ Ha Hb).
  rewrite (object_compare_node _ _ _ _ _ _ Hp Hq). simpl.
  rewrite !(int_wrap_id _ (size_is_int _ Hla)), !(int_wrap_id _ (size_is_int _ Hlb)),
    !(int_wrap_id _ (size_is_int _ Hlm)), !(int_wrap_id _ (size_is_int _ Hrm)).
  rewrite (int_wrap_id _ (size_diff_is_int _ _ Hla Hlb)),
    (int_wrap_id _ (size_diff_is_int _ _ Hlm Hrm)).
  repeat match goal with |- _ /\ _ => split end.
  - intros H. destruct (Z.eqb_spec (Z.of_nat (length la) - Z.of_nat (length lb)) 0);
      [lia|]. simpl. rewrite int_sign_neg by lia. reflexivity.
  - intros H. destruct (Z.eqb_spec (Z.of_nat (length la) - Z.of_nat (length lb)) 0);
      [lia|]. simpl. rewrite int_sign_pos by lia. reflexivity.
  - intros c Hel. pose proof (elementwise_length _ _ _ _ _ Hel) as Hlen.
    rewrite Hlen, Z.sub_diag. simpl. rewrite <- Hlen, Nat2Z.id.
    apply (array_compare_loop_elementwise _ s a b la lb Ha Hb Hla la lb c Hel [] []);
      reflexivity.
  - intros H. destruct (Z.eqb_spec (Z.of_nat (length lm) - Z.of_nat (length rm)) 0);
      [lia|]. simpl. rewrite int_sign_neg by lia. reflexivity.
  - intros H. destruct (Z.eqb_spec (Z.of_nat (length lm) - Z.of_nat (length rm)) 0);
      [lia|]. simpl. rewrite int_sign_pos by lia. reflexivity.
  - intros c Hby.
    destruct (by_key_then_value_entrywise _ _ _ _ _ Hby) as (c' & Hel & Hby' & Hs).
    exists c'. split; [|split; [exact Hby'|exact Hs]].
    pose proof (entrywise_length _ _ _ _ _ Hel) as Hlen.
    rewrite Hlen, Z.sub_diag. simpl.
    apply object_compare_loop_entrywise, Hel.
Qed.

Lemma compare_of_containers_witness :
  heap keys_state !! impl (mkJson 2) = Some (ArrayNode [mkJson 0]) /\
  heap keys_state !! impl (mkJson 3) = Some (ArrayNode [mkJson 0; mkJson 1]) /\
  heap keys_state !! impl (mkJson 4) = Some (ObjectNode [("a"%string, mkJson 0)]) /\
  heap keys_state !! impl (mkJson 5) = Some (ObjectNode [("c"%string, mkJson 0)]) /\
  Z.of_nat (length [mkJson 0]) <= INT_MAX /\
  Z.of_nat (length [mkJson 0; mkJson 1]) <= INT_MAX /\
  Z.of_nat (length [("a"%string, mkJson 0)]) <= INT_MAX /\
  Z.of_nat (length [("c"%string, mkJson 0)]) <= INT_MAX /\
  by_key_then_value (compare 1) keys_state
    [("a"%string, mkJson 0)] [("c"%string, mkJson 0)] (-1) /\
  compare 2 (mkJson 2) (mkJson 3) keys_state = Ret (-1, keys_state) /\
  exists c,
    compare 2 (mkJson 4) (mkJson 5) keys_state = Ret (c, keys_state) /\ c < 0.
Proof.
  assert (forall k : nat, (k <= 3)%nat -> Z.of_nat k <= INT_MAX) as Hsmall
    by (unfold INT_MAX; lia).
  assert (by_key_then_value (compare 1) keys_state
            [("a"%string, mkJson 0)] [("c"%string, mkJson 0)] (-1)) as Hby
    by (apply by_key_before; [reflexivity|lia|reflexivity]).
  pose proof (compare_of_containers 1 keys_state (mkJson 2) (mkJson 3)
                (mkJson 4) (mkJson 5) _ _ _ _ eq_refl eq_refl eq_refl eq_refl
                (Hsmall 1%nat ltac:(lia)) (Hsmall 2%nat ltac:(lia))
                (Hsmall 1%nat ltac:(lia)) (Hsmall 1%nat ltac:(lia)))
    as (Harr & _ & _ & _ & _ & Hobj).
  do 4 (split; [reflexivity|]).
  do 4 (split; [apply Hsmall; simpl; lia|]).
  split; [exact Hby|].
  split; [apply Harr; simpl; lia|].
  destruct (Hobj (-1) Hby) as (c & Hc & _ & Hs).
  exists c. split; [exact Hc|lia].
Defined.

(** The result on two keys is the one of [std::string::compare], returned as
    it is: [-2] on [{"a":1}] and [{"c":1}], and [-1] on [{"a":1}] and
    [{"a":2}], by the values. *)
Example compare_of_objects_by_key_and_by_value :
  compare 2 (mkJson 4) (mkJson 5) keys_state = Ret (-2, keys_state) /\
  compare 2 (mkJson 5) (mkJson 4) keys_state = Ret (2, keys_state) /\
  compare 2 (mkJson 4) (mkJson 6) keys_state = Ret (-1, keys_state).
Proof. repeat split; reflexivity. Qed.

(** Equal-length arrays compare element-wise: [[1,3]] against [[1,2]]. *)
Example elementwise_1_3_vs_1_2 :
  elementwise (compare 1) order_state
    [mkJson 0; mkJson 2] [mkJson 0; mkJson 1] 1.
Proof.
  apply elementwise_zero; [reflexivity|].
  apply elementwise_first; [reflexivity|lia|reflexivity].
Qed.

(** ** [compare] on trees: it returns, and it is reflexive *)

(** Values of different kinds are ordered as the enumerators of [JsonType]
    are, whatever their payloads. *)
Lemma compare_of_different_kinds (n : nat) (s : state) (a b : Json)
    (na nb : Node) :
  heap s !! impl a = Some na ->
  heap s !! impl b = Some nb ->
  (JsonType.to_int (Node_type na) < JsonType.to_int (Node_type nb) ->
   compare (S n) a b s = Ret (-1, s)) /\
  (JsonType.to_int (Node_type nb) < JsonType.to_int (Node_type na) ->
   compare (S n) a b s = Ret (1, s)).
Proof.
  intros Ha Hb. rewrite (compare_unfold n s a b _ _ Ha Hb).
  split; intros H;
    (destruct (Z.eqb_spec (JsonType.to_int (Node_type na)
                           - JsonType.to_int (Node_type nb)) 0); [lia|]); simpl.
  - rewrite int_sign_neg by lia. reflexivity.
  - rewrite int_sign_pos by lia. reflexivity.
Qed.

Lemma tree_node (n : nat) (s : state) (j : Json) :
  tree n s j -> exists m, heap s !! impl j = Some m.
Proof.
  destruct n; simpl; [contradiction|].
  destruct (heap s !! impl j); [eauto|contradiction].
Qed.

Lemma elementwise_exists (cmp : Json -> Json -> M Z) (s : state)
    (P : Json -> Prop) :
  (forall x y, P x -> P y -> exists c, cmp x y s = Ret (c, s)) ->
  forall l r, Forall P l -> Forall P r -> length l = length r ->
  exists c, elementwise cmp s l r c.
Proof.
  intros Hcmp l. induction l as [|x l IH]; intros [|y r] Hl Hr Hlen;
    try discriminate Hlen.
  - exists 0. constructor.
  - apply Forall_cons in Hl as [Hx Hl]. apply Forall_cons in Hr as [Hy Hr].
    injection Hlen as Hlen.
    destruct (Hcmp x y Hx Hy) as [c Hc].
    destruct (Z.eq_dec c 0) as [->|Hne].
    + destruct (IH r Hl Hr Hlen) as [c' Hc']. exists c'.
      apply elementwise_zero; assumption.
    + exists c. apply elementwise_first; assumption.
Qed.

Lemma entrywise_exists (cmp : Json -> Json -> M Z) (s : state)
    (P : Json -> Prop) :
  (forall x y, P x -> P y -> exists c, cmp x y s = Ret (c, s)) ->
  forall l r : json_map,
  Forall (fun kv => P kv.2) l -> Forall (fun kv => P kv.2) r ->
  length l = length r ->
  exists c, entrywise cmp s l r c.
Proof.
  intros Hcmp l. induction l as [|[k x] l IH]; intros [|[k' y] r] Hl Hr Hlen;
    try discriminate Hlen.
  - exists 0. constructor.
  - apply Forall_cons in Hl as [Hx Hl]. apply Forall_cons in Hr as [Hy Hr].
    injection Hlen as Hlen. simpl in Hx, Hy.
    destruct (Z.eq_dec (string_compare k k') 0) as [Hk|Hk].
    + apply string_compare_eq in Hk. subst k'.
      destruct (Hcmp x y Hx Hy) as [c Hc].
      destruct (Z.eq_dec c 0) as [->|Hne].
      * destruct (IH r Hl Hr Hlen) as [c' Hc']. exists c'.
        apply entrywise_zero; assumption.
      * exists c. apply entrywise_value; assumption.
    + exists (string_compare k k'). apply entrywise_key; assumption.
Qed.

(** On two trees of depth at most [n], [compare] returns with fuel [n], and
    leaves the state as it was. *)
Lemma compare_returns (n : nat) (s : state) :
  forall a b, tree n s a -> tree n s b ->
  exists c, compare n a b s = Ret (c, s).
Proof.
  induction n as [|n IH]; intros a b Ha Hb; [contradiction|].
  destruct (tree_node _ _ _ Ha) as [na Hna].
  destruct (tree_node _ _ _ Hb) as [nb Hnb].
  rewrite (compare_unfold n s a b _ _ Hna Hnb).
  destruct (negb _) eqn:E; [eauto|].
  apply negb_false_iff, Z.eqb_eq in E.
  simpl in Ha, Hb. rewrite Hna in Ha. rewrite Hnb in Hb.
  destruct na, nb; simpl in E; try discriminate E; eauto.
  - destruct Ha as [Hla Ha], Hb as [Hlb Hb].
    rewrite (array_compare_node _ _ _ _ _ _ Hna Hnb). simpl.
    rewrite !(int_wrap_id _ (size_is_int _ Hla)), !(int_wrap_id _ (size_is_int _ Hlb)).
    rewrite (int_wrap_id _ (size_diff_is_int _ _ Hla Hlb)).
    destruct (negb _) eqn:E'; [eauto|].
    apply negb_false_iff, Z.eqb_eq in E'.
    assert (length value = length value0) as Hlen by lia.
    destruct (elementwise_exists (compare n) s (tree n s) IH _ _ Ha Hb Hlen)
      as [c Hc].
    exists c. rewrite Nat2Z.id.
    apply (array_compare_loop_elementwise _ s a b _ _ Hna Hnb Hla _ _ c Hc [] []);
      reflexivity.
  - destruct Ha as [Hla Ha], Hb as [Hlb Hb].
    rewrite (object_compare_node _ _ _ _ _ _ Hna Hnb). simpl.
    rewrite !(int_wrap_id _ (size_is_int _ Hla)), !(int_wrap_id _ (size_is_int _ Hlb)).
    rewrite (int_wrap_id _ (size_diff_is_int _ _ Hla Hlb)).
    destruct (negb _) eqn:E'; [eauto|].
    apply negb_false_iff, Z.eqb_eq in E'.
    assert (length value = length value0) as Hlen by lia.
    destruct (entrywise_exists (compare n) s (tree n s) IH _ _ Ha Hb Hlen)
      as [c Hc].
    exists c. apply object_compare_loop_entrywise, Hc.
Qed.

(** A tree compares equal to itself. *)
Lemma compare_refl (n : nat) (s : state) :
  forall a, tree n s a -> compare n a a s = Ret (0, s).
Proof.
  induction n as [|n IH]; intros a Ha; [contradiction|].
  destruct (tree_node _ _ _ Ha) as [na Hna].
  rewrite (compare_unfold n s a a _ _ Hna Hna).
  rewrite Z.sub_diag. simpl.
  simpl in Ha. rewrite Hna in Ha.
  destruct na; try reflexivity.
  - destruct value; reflexivity.
  - rewrite number_compare_int_refl. reflexivity.
  - rewrite number_compare_double_refl. reflexivity.
  - rewrite string_compare_refl. reflexivity.
  - destruct Ha as [Hla Ha].
    rewrite (array_compare_node _ _ _ _ _ _ Hna Hna). simpl.
    rewrite Z.sub_diag. simpl.
    rewrite !(int_wrap_id _ (size_is_int _ Hla)), Nat2Z.id.
    assert (elementwise (compare n) s value value 0) as Hel.
    { clear Hna Hla. induction Ha as [|x l Hx Hl IHl]; [constructor|].
      apply elementwise_zero; [apply IH, Hx|exact IHl]. }
    apply (array_compare_loop_elementwise _ s a a _ _ Hna Hna Hla _ _ 0 Hel [] []);
      reflexivity.
  - destruct Ha as [Hla Ha].
    rewrite (object_compare_node _ _ _ _ _ _ Hna Hna). simpl.
    rewrite Z.sub_diag. simpl.
    apply object_compare_loop_entrywise.
    clear Hna Hla. induction Ha as [|[k x] l Hx Hl IHl]; [constructor|].
    apply entrywise_zero; [apply IH, Hx|exact IHl].
Qed.

(** ** More fuel never changes a result *)

Lemma bind_Ret {A B : Type} (m : M A) (k : A -> M B) (s : state)
    (r : B * state) :
  bind m k s = Ret r -> exists a s', m s = Ret (a, s') /\ k a s' = Ret r.
Proof.
  unfold bind. destruct (m s) as [[a s']| | | |]; try discriminate. eauto.
Qed.

Section Monotone.
Variables cmp cmp' : Json -> Json -> M Z.
Hypothesis cmp_le : forall x y s r, cmp x y s = Ret r -> cmp' x y s = Ret r.

Lemma array_compare_loop_mono (a b : Json) (todo : nat) :
  forall i s r,
    array_compare_loop cmp a b i todo s = Ret r ->
    array_compare_loop cmp' a b i todo s = Ret r.
Proof.
  induction todo as [|todo IH]; intros i s r; simpl; [auto|].
  intros (l & s1 & Hl & H)%bind_Ret. apply bind_Ret in H as (x & s2 & Hx & H).
  apply bind_Ret in H as (c & s3 & Hc & H).
  unfold bind. rewrite Hl, Hx, (cmp_le _ _ _ _ Hc).
  destruct (negb (c =? 0)); [exact H|apply IH, H].
Qed.

Lemma array_compare_mono (a b : Json) (s : state) (r : Z * state) :
  array_compare cmp a b s = Ret r -> array_compare cmp' a b s = Ret r.
Proof.
  unfold array_compare.
  intros (ll & s1 & Hl & H)%bind_Ret. apply bind_Ret in H as (rl & s2 & Hr & H).
  unfold bind. rewrite Hl, Hr.
  destruct (negb _); [exact H|apply array_compare_loop_mono, H].
Qed.

Lemma object_compare_loop_mono (l r : json_map) :
  forall s res,
    object_compare_loop cmp l r s = Ret res ->
    object_compare_loop cmp' l r s = Ret res.
Proof.
  revert r. induction l as [|[lk lv] l IH]; intros [|[rk rv] r] s res; simpl;
    auto.
  destruct (negb (string_compare lk rk =? 0)); [auto|].
  intros (c & s1 & Hc & H)%bind_Ret.
  unfold bind. rewrite (cmp_le _ _ _ _ Hc).
  destruct (negb (c =? 0)); [exact H|apply IH, H].
Qed.

Lemma object_compare_mono (a b : Json) (s : state) (r : Z * state) :
  object_compare cmp a b s = Ret r -> object_compare cmp' a b s = Ret r.
Proof.
  unfold object_compare.
  intros (lm & s1 & Hl & H)%bind_Ret. apply bind_Ret in H as (rm & s2 & Hr & H).
  unfold bind. rewrite Hl, Hr.
  destruct (negb _); [exact H|apply object_compare_loop_mono, H].
Qed.

Lemma compare_body_mono (a b : Json) (s : state) (r : Z * state) :
  compare_body cmp a b s = Ret r -> compare_body cmp' a b s = Ret r.
Proof.
  unfold compare_body.
  intros (lt & s1 & Hl & H)%bind_Ret. apply bind_Ret in H as (rt & s2 & Hr & H).
  unfold bind at 1. rewrite Hl. unfold bind at 1. rewrite Hr.
  destruct (negb _); [exact H|].
  destruct lt; try exact H.
  - apply bind_Ret in H as (la & s3 & Hla & H).
    apply bind_Ret in H as (ra & s4 & Hra & H).
    unfold bind. rewrite Hla, Hra. apply array_compare_mono, H.
  - apply bind_Ret in H as (lo & s3 & Hlo & H).
    apply bind_Ret in H as (ro & s4 & Hro & H).
    unfold bind. rewrite Hlo, Hro. apply object_compare_mono, H.
Qed.
End Monotone.

(** A result [compare] reaches with some fuel is its result with any larger
    amount of fuel. *)
Lemma compare_fuel_S (n : nat) :
  forall a b s r, compare n a b s = Ret r -> compare (S n) a b s = Ret r.
Proof.
  induction n as [|n IH]; intros a b s r H; [discriminate H|].
  change (compare_body (compare (S n)) a b s = Ret r).
  apply (compare_body_mono (compare n)); [exact IH|exact H].
Qed.

Lemma compare_fuel_le (n m : nat) (a b : Json) (s : state) (r : Z * state) :
  (n <= m)%nat -> compare n a b s = Ret r -> compare m a b s = Ret r.
Proof.
  induction 1 as [|m Hle IH]; [auto|].
  intros H. apply compare_fuel_S, IH, H.
Qed.

(** ** The sign of a rounded difference *)

Section Rounding.
Variables prec emax : Z.
Hypothesis prec_pos : 0 < prec.
Hypothesis prec_lt_emax : prec < emax.

Lemma digits2_pos_bound (m : positive) :
  2 ^ (Z.pos (digits2_pos m) - 1) <= Z.pos m < 2 ^ Z.pos (digits2_pos m).
Proof.
  induction m as [m IH|m IH|]; simpl digits2_pos.
  - rewrite Pos2Z.inj_succ.
    replace (Z.succ (Z.pos (digits2_pos m)) - 1) with (Z.pos (digits2_pos m)) by lia.
    rewrite Z.pow_succ_r by lia.
    replace (Z.pos (digits2_pos m)) with (Z.succ (Z.pos (digits2_pos m) - 1)) at 1 by lia.
    rewrite Z.pow_succ_r by lia. lia.
  - rewrite Pos2Z.inj_succ.
    replace (Z.succ (Z.pos (digits2_pos m)) - 1) with (Z.pos (digits2_pos m)) by lia.
    rewrite Z.pow_succ_r by lia.
    replace (Z.pos (digits2_pos m)) with (Z.succ (Z.pos (digits2_pos m) - 1)) at 1 by lia.
    rewrite Z.pow_succ_r by lia. lia.
  - simpl. lia.
Qed.

Lemma shr_1_m (mrs : shr_record) :
  0 <= shr_m mrs -> shr_m (shr_1 mrs) = shr_m mrs / 2.
Proof.
  destruct mrs as [m r s]. simpl. intros Hm.
  destruct m as [|[p|p|]|p]; simpl shr_m in *.
  - reflexivity.
  - apply (Z.div_unique (Z.pos p~1) 2 (Z.pos p) 1); lia.
  - apply (Z.div_unique (Z.pos p~0) 2 (Z.pos p) 0); lia.
  - reflexivity.
  - lia.
Qed.

Lemma iter_shr_1_m (p : positive) :
  forall mrs, 0 <= shr_m mrs ->
  shr_m (SpecFloat.iter_pos shr_1 p mrs) = shr_m mrs / 2 ^ Z.pos p.
Proof.
  induction p as [p IH|p IH|]; intros mrs Hm; simpl SpecFloat.iter_pos.
  - assert (0 <= shr_m (shr_1 mrs)) as H1
      by (rewrite shr_1_m by exact Hm; apply Z.div_pos; lia).
    assert (0 <= shr_m (SpecFloat.iter_pos shr_1 p (shr_1 mrs))) as H2
      by (rewrite IH by exact H1; apply Z.div_pos; [exact H1|lia]).
    rewrite IH by exact H2. rewrite IH by exact H1. rewrite shr_1_m by exact Hm.
    rewrite !Z.div_div by lia. f_equal.
    rewrite Pos2Z.inj_xI. rewrite <- Z.pow_add_r by lia.
    rewrite <- Z.pow_succ_r by lia. f_equal. lia.
  - assert (0 <= shr_m (SpecFloat.iter_pos shr_1 p mrs)) as H2
      by (rewrite IH by exact Hm; apply Z.div_pos; [exact Hm|lia]).
    rewrite IH by exact H2. rewrite IH by exact Hm.
    rewrite !Z.div_div by lia. f_equal.
    rewrite Pos2Z.inj_xO. rewrite <- Z.pow_add_r by lia. f_equal. lia.
  - rewrite shr_1_m by exact Hm. reflexivity.
Qed.

Lemma shr_record_of_loc_m (m : Z) (l : location) :
  shr_m (shr_record_of_loc m l) = m.
Proof. destruct l as [|[]]; reflexivity. Qed.

(** Shifting a positive mantissa to its format exponent leaves it positive,
    when the exponent is not below [emin]. *)
Lemma shr_fexp_pos (m : positive) (e : Z) (l : location) :
  emin prec emax <= e ->
  0 < shr_m (fst (shr_fexp prec emax (Z.pos m) e l)) /\
  emin prec emax <= snd (shr_fexp prec emax (Z.pos m) e l).
Proof.
  intros He. unfold shr_fexp, shr. simpl Zdigits2.
  pose proof (digits2_pos_bound m) as [Hlo Hhi].
  set (d := Z.pos (digits2_pos m)) in *.
  destruct (fexp prec emax (d + e) - e) as [|n|n] eqn:En; simpl;
    rewrite ?shr_record_of_loc_m; try lia.
  rewrite iter_shr_1_m by (rewrite shr_record_of_loc_m; lia).
  rewrite shr_record_of_loc_m.
  unfold fexp in En.
  assert (Z.pos n <= d - 1) as Hn by lia.
  split; [|lia].
  apply Z.div_str_pos. split; [lia|].
  apply Z.le_trans with (2 ^ (d - 1)); [|exact Hlo].
  apply Z.pow_le_mono_r; lia.
Qed.

Lemma round_nearest_even_pos (m : Z) (l : location) :
  0 < m -> 0 < round_nearest_even m l.
Proof.
  intros Hm. destruct l as [|[]]; simpl; try lia.
  destruct (Z.even m); lia.
Qed.

Lemma binary_round_aux_signed (sx : bool) (m : positive) (e : Z) (l : location) :
  emin prec emax <= e ->
  signed sx (binary_round_aux prec emax sx (Z.pos m) e l).
Proof.
  intros He. unfold binary_round_aux.
  destruct (shr_fexp_pos m e l He) as [H1 H2].
  destruct (shr_fexp prec emax (Z.pos m) e l) as [mrs' e']. simpl in H1, H2.
  pose proof (round_nearest_even_pos _ (loc_of_shr_record mrs') H1) as H3.
  destruct (round_nearest_even (shr_m mrs') (loc_of_shr_record mrs')) as [|m2|m2];
    try lia.
  destruct (shr_fexp_pos m2 e' loc_Exact H2) as [H4 _].
  destruct (shr_fexp prec emax (Z.pos m2) e' loc_Exact) as [mrs'' e''].
  simpl in H4.
  destruct (shr_m mrs'') as [|m3|m3]; try lia.
  destruct (e'' <=? emax - prec); reflexivity.
Qed.

Lemma binary_round_signed (sx : bool) (m : positive) (e : Z) :
  emin prec emax <= e ->
  signed sx (binary_round prec emax sx m e).
Proof.
  intros He. unfold binary_round, shl_align.
  destruct (fexp prec emax (Z.pos (digits2_pos m) + e) - e) as [|d|d] eqn:Ed;
    apply binary_round_aux_signed; try exact He.
  unfold fexp. lia.
Qed.

Lemma shl_align_fst (m : positive) (e e' : Z) :
  e' <= e -> Z.pos (fst (shl_align m e e')) = Z.pos m * 2 ^ (e - e').
Proof.
  intros He. unfold shl_align.
  destruct (e' - e) as [|d|d] eqn:Ed; simpl fst; try lia.
  - replace (e - e') with 0 by lia. lia.
  - change (Pos.iter xO m d) with (shift_pos d m).
    rewrite shift_pos_correct. change (Z.pow_pos 2 d) with (2 ^ Z.pos d).
    replace (e - e') with (Z.pos d) by lia. lia.
Qed.

Lemma canonical_mantissa_inv (m : positive) (e : Z) :
  canonical_mantissa prec emax m e = true ->
  emin prec emax <= e /\
  Z.pos (digits2_pos m) <= prec /\
  (emin prec emax < e -> Z.pos (digits2_pos m) = prec).
Proof.
  unfold canonical_mantissa, fexp. intros H%Z.eqb_eq. lia.
Qed.

(** Of two canonical mantissas, the one with the larger exponent is the
    larger number. *)
Lemma canonical_mantissa_lt (mx my : positive) (ex ey : Z) :
  canonical_mantissa prec emax mx ex = true ->
  canonical_mantissa prec emax my ey = true ->
  ex < ey ->
  Z.pos mx < Z.pos my * 2 ^ (ey - ex).
Proof.
  intros (Hex & Hdx & _)%canonical_mantissa_inv
         (Hey & _ & Hdy)%canonical_mantissa_inv Hlt.
  pose proof (digits2_pos_bound mx) as [_ Hx].
  pose proof (digits2_pos_bound my) as [Hy _].
  rewrite Hdy in Hy by lia.
  assert (2 ^ Z.pos (digits2_pos mx) <= 2 ^ prec) as H1
    by (apply Z.pow_le_mono_r; lia).
  assert (2 ^ 1 <= 2 ^ (ey - ex)) as H2 by (apply Z.pow_le_mono_r; lia).
  assert (2 ^ prec = 2 ^ (prec - 1) * 2 ^ 1) as H3
    by (rewrite <- Z.pow_add_r by lia; f_equal; lia).
  assert (0 < 2 ^ (prec - 1)) as H4 by (apply Z.pow_pos_nonneg; lia).
  nia.
Qed.

Ltac compare_by_lia :=
  symmetry;
  first [ apply Z.compare_eq_iff; lia
        | apply Z.compare_lt_iff; lia
        | apply Z.compare_gt_iff; lia ].

Lemma SFcompare_finite (sx : bool) (mx : positive) (ex : Z)
    (sy : bool) (my : positive) (ey : Z) :
  canonical_mantissa prec emax mx ex = true ->
  canonical_mantissa prec emax my ey = true ->
  SFcompare (S754_finite sx mx ex) (S754_finite sy my ey)
  = Some (exact_diff sx mx ex sy my ey ?= 0).
Proof.
  intros Hx Hy. unfold exact_diff.
  rewrite !shl_align_fst by lia.
  assert (0 < 2 ^ (ex - Z.min ex ey)) as Px by (apply Z.pow_pos_nonneg; lia).
  assert (0 < 2 ^ (ey - Z.min ex ey)) as Py by (apply Z.pow_pos_nonneg; lia).
  simpl SFcompare. f_equal.
  destruct sx, sy; unfold cond_Zopp.
  - destruct (Z.compare_spec ex ey) as [E|E|E].
    + subst ey. rewrite Z.min_id, Z.sub_diag, Pos.compare_cont_spec.
      unfold Pos.switch_Eq. rewrite Z.pow_0_r.
      destruct (Pos.compare_spec mx my); simpl CompOpp; compare_by_lia.
    + pose proof (canonical_mantissa_lt _ _ _ _ Hx Hy E).
      rewrite Z.min_l by lia. rewrite Z.sub_diag, Z.pow_0_r.
      compare_by_lia.
    + pose proof (canonical_mantissa_lt _ _ _ _ Hy Hx E).
      rewrite Z.min_r by lia. rewrite Z.sub_diag, Z.pow_0_r.
      compare_by_lia.
  - compare_by_lia.
  - compare_by_lia.
  - destruct (Z.compare_spec ex ey) as [E|E|E].
    + subst ey. rewrite Z.min_id, Z.sub_diag, Pos.compare_cont_spec.
      unfold Pos.switch_Eq. rewrite Z.pow_0_r.
      destruct (Pos.compare_spec mx my); simpl CompOpp; compare_by_lia.
    + pose proof (canonical_mantissa_lt _ _ _ _ Hx Hy E).
      rewrite Z.min_l by lia. rewrite Z.sub_diag, Z.pow_0_r.
      compare_by_lia.
    + pose proof (canonical_mantissa_lt _ _ _ _ Hy Hx E).
      rewrite Z.min_r by lia. rewrite Z.sub_diag, Z.pow_0_r.
      compare_by_lia.
Qed.

Lemma float_sign_signed (sx : bool) (d : double) :
  signed sx d -> float_sign d = if sx then -1 else 1.
Proof.
  destruct d as [| | |s m e]; simpl; try contradiction;
    intros ->; destruct sx; reflexivity.
Qed.

(** The sign of the rounded difference of two valid numbers is the result
    of their comparison. *)
Lemma SFsub_sign (x y : spec_float) :
  valid_binary prec emax x = true ->
  valid_binary prec emax y = true ->
  float_sign (SFsub prec emax x y) = dbl_compare_sign x y.
Proof.
  intros Hx Hy. unfold dbl_compare_sign.
  destruct x as [sx|sx| |sx mx ex], y as [sy|sy| |sy my ey];
    try (destruct sx; reflexivity);
    try (destruct sx, sy; reflexivity);
    try (destruct sy; reflexivity); try reflexivity.
  simpl in Hx, Hy. unfold bounded in Hx, Hy.
  apply andb_true_iff in Hx as [Hx _]. apply andb_true_iff in Hy as [Hy _].
  rewrite (SFcompare_finite _ _ _ _ _ _ Hx Hy).
  unfold SFsub. fold (exact_diff sx mx ex sy my ey).
  destruct (canonical_mantissa_inv _ _ Hx) as (Hex & _).
  destruct (canonical_mantissa_inv _ _ Hy) as (Hey & _).
  assert (emin prec emax <= Z.min ex ey) as Hmin by lia.
  destruct (exact_diff sx mx ex sy my ey) as [|d|d]; simpl.
  - reflexivity.
  - apply (float_sign_signed false), binary_round_signed, Hmin.
  - apply (float_sign_signed true), binary_round_signed, Hmin.
Qed.

Lemma exact_diff_swap (sx : bool) (mx : positive) (ex : Z)
    (sy : bool) (my : positive) (ey : Z) :
  exact_diff sy my ey sx mx ex = - exact_diff sx mx ex sy my ey.
Proof. unfold exact_diff. rewrite (Z.min_comm ey ex). lia. Qed.

(** Swapping the operands of the native comparison reverses its result. *)
Lemma dbl_compare_sign_swap (x y : spec_float) :
  valid_binary prec emax x = true ->
  valid_binary prec emax y = true ->
  dbl_compare_sign y x = - dbl_compare_sign x y.
Proof.
  intros Hx Hy. unfold dbl_compare_sign.
  destruct x as [sx|sx| |sx mx ex], y as [sy|sy| |sy my ey];
    try (destruct sx; reflexivity);
    try (destruct sx, sy; reflexivity);
    try (destruct sy; reflexivity); try reflexivity.
  simpl in Hx, Hy. unfold bounded in Hx, Hy.
  apply andb_true_iff in Hx as [Hx _]. apply andb_true_iff in Hy as [Hy _].
  rewrite (SFcompare_finite _ _ _ _ _ _ Hx Hy).
  rewrite (SFcompare_finite _ _ _ _ _ _ Hy Hx).
  rewrite exact_diff_swap.
  destruct (exact_diff sx mx ex sy my ey); reflexivity.
Qed.

Lemma scaled_finite_bound (m : positive) (e : Z) :
  bounded prec emax m e = true ->
  0 < Z.pos m * 2 ^ (e - emin prec emax) < 2 ^ (emax - emin prec emax).
Proof.
  unfold bounded. intros [Hc Hb%Z.leb_le]%andb_true_iff.
  destruct (canonical_mantissa_inv _ _ Hc) as (He & Hd & _).
  pose proof (digits2_pos_bound m) as [_ Hm].
  assert (0 < 2 ^ (e - emin prec emax)) as Hp by (apply Z.pow_pos_nonneg; lia).
  assert (2 ^ Z.pos (digits2_pos m) <= 2 ^ prec) as H1
    by (apply Z.pow_le_mono_r; lia).
  assert (2 ^ prec * 2 ^ (e - emin prec emax) <= 2 ^ (emax - emin prec emax)) as H2.
  { rewrite <- Z.pow_add_r by lia. apply Z.pow_le_mono_r; lia. }
  nia.
Qed.

Lemma exact_diff_scaled (sx : bool) (mx : positive) (ex : Z)
    (sy : bool) (my : positive) (ey : Z) :
  emin prec emax <= ex -> emin prec emax <= ey ->
  scaled prec emax (S754_finite sx mx ex) - scaled prec emax (S754_finite sy my ey)
  = exact_diff sx mx ex sy my ey * 2 ^ (Z.min ex ey - emin prec emax).
Proof.
  intros Hex Hey. unfold exact_diff. simpl scaled.
  rewrite !shl_align_fst by lia.
  replace (ex - emin prec emax)
    with ((ex - Z.min ex ey) + (Z.min ex ey - emin prec emax)) by lia.
  replace (ey - emin prec emax)
    with ((ey - Z.min ex ey) + (Z.min ex ey - emin prec emax)) by lia.
  rewrite !Z.pow_add_r by lia.
  destruct sx, sy; unfold cond_Zopp; lia.
Qed.

(** The native comparison of two valid numbers is the comparison of their
    scaled values. *)
Lemma SFcompare_scaled (x y : spec_float) :
  valid_binary prec emax x = true ->
  valid_binary prec emax y = true ->
  x <> S754_nan -> y <> S754_nan ->
  SFcompare x y = Some (scaled prec emax x ?= scaled prec emax y).
Proof.
  intros Hx Hy Nx Ny.
  assert (0 < 2 ^ (emax - emin prec emax)) as Hinf
    by (apply Z.pow_pos_nonneg; unfold emin; lia).
  destruct x as [sx|sx| |sx mx ex], y as [sy|sy| |sy my ey];
    try contradiction; simpl in Hx, Hy;
    try (pose proof (scaled_finite_bound _ _ Hx));
    try (pose proof (scaled_finite_bound _ _ Hy)).
  1-8: unfold SFcompare, scaled, cond_Zopp;
       repeat match goal with b : bool |- _ => destruct b end;
       f_equal; compare_by_lia.
  unfold bounded in Hx, Hy.
  apply andb_true_iff in Hx as [Hx _]. apply andb_true_iff in Hy as [Hy _].
  rewrite (SFcompare_finite _ _ _ _ _ _ Hx Hy). f_equal.
  destruct (canonical_mantissa_inv _ _ Hx) as (Hex & _).
  destruct (canonical_mantissa_inv _ _ Hy) as (Hey & _).
  rewrite (Z.compare_sub (scaled _ _ _)), (exact_diff_scaled _ _ _ _ _ _ Hex Hey).
  assert (0 < 2 ^ (Z.min ex ey - emin prec emax)) as Hp
    by (apply Z.pow_pos_nonneg; lia).
  destruct (Z.compare_spec (exact_diff sx mx ex sy my ey) 0); compare_by_lia.
Qed.
End Rounding.

(** ** [compare] on numbers *)

(** On doubles, [number_compare] is the sign of the rounded difference. *)
Lemma number_compare_double (x y : double) :
  number_compare x y = float_sign (dbl_sub x y).
Proof. reflexivity. Qed.

(** On two valid doubles, [number_compare] agrees with the native
    comparison: the rounded difference of two different numbers is never
    zero. *)
Lemma number_compare_double_sign (x y : double) :
  dbl_valid x -> dbl_valid y -> number_compare x y = dbl_compare_sign x y.
Proof.
  intros Hx Hy. rewrite number_compare_double.
  apply SFsub_sign; [reflexivity|exact Hx|exact Hy].
Qed.

(** The three cases of the native order of two valid doubles. *)
Lemma number_compare_double_order (x y : double) :
  dbl_valid x -> dbl_valid y ->
  (dbl_lt x y = true -> number_compare x y = -1) /\
  (SFeqb x y = true -> number_compare x y = 0) /\
  (dbl_lt y x = true -> number_compare x y = 1).
Proof.
  intros Hx Hy. rewrite (number_compare_double_sign _ _ Hx Hy).
  pose proof (dbl_compare_sign_swap dbl_prec dbl_emax eq_refl x y Hx Hy) as Hswap.
  unfold dbl_lt, SFltb, SFeqb. unfold dbl_compare_sign in *.
  destruct (SFcompare x y) as [[]|], (SFcompare y x) as [[]|];
    repeat split; intros H; try reflexivity; try discriminate H;
    try discriminate Hswap.
Qed.

Lemma compare_of_numbers (n : nat) (s : state) (a b : Json) (x y : double) :
  heap s !! impl a = Some (NumberNode x) ->
  heap s !! impl b = Some (NumberNode y) ->
  dbl_valid x -> dbl_valid y ->
  compare (S n) a b s = Ret (dbl_compare_sign x y, s).
Proof.
  intros Ha Hb Hx Hy. rewrite (compare_unfold n s a b _ _ Ha Hb). simpl.
  rewrite (number_compare_double_sign _ _ Hx Hy). reflexivity.
Qed.

(** On two integers whose difference [int] can hold, [compare] is the sign
    of the difference. *)
Lemma compare_of_integers (n : nat) (s : state) (a b : Json) (x y : Z) :
  heap s !! impl a = Some (IntegerNode x) ->
  heap s !! impl b = Some (IntegerNode y) ->
  int_range (x - y) ->
  compare (S n) a b s = Ret (int_sign (x - y), s).
Proof.
  intros Ha Hb Hr. rewrite (compare_unfold n s a b _ _ Ha Hb). simpl.
  rewrite (number_compare_int_small _ _ Hr). reflexivity.
Qed.

(** [1.0] against [2.0], and back. *)
Example compare_of_doubles :
  result
    ((let* a := Json_double (dbl_of_pos 1) in
      let* b := Json_double (dbl_of_pos 2) in
      let* ab := compare 1 a b in
      let* ba := compare 1 b a in
      let* aa := compare 1 a a in
      ret (ab, ba, aa)) empty_state)
  = Some (-1, 1, 0).
Proof. vm_compute. reflexivity. Qed.

(** A NaN compares equal to every number, which are not all equal. *)
Example compare_with_nan :
  result
    ((let* a := Json_double (dbl_of_pos 1) in
      let* b := Json_double dbl_nan in
      let* c := Json_double (dbl_of_pos 2) in
      let* ab := compare 1 a b in
      let* bc := compare 1 b c in
      let* ac := compare 1 a c in
      ret (ab, bc, ac)) empty_state)
  = Some (0, 0, -1).
Proof. vm_compute. reflexivity. Qed.

(** C4 (the code departs from the claim).  [number_compare] subtracts in
    [int]: for [INT_MAX] and [-1] the difference [2^31] wraps to [INT_MIN],
    and [compare] answers [-1] where the sign of the difference is [1]. *)
Theorem compare_of_integers_overflows :
  result
    ((let* a := Json_int INT_MAX in
      let* b := Json_int (-1) in
      compare 1 a b) empty_state)
  = Some (-1) /\
  int_sign (INT_MAX - (-1)) = 1 /\
  int_wrap (INT_MAX - (-1)) = INT_MIN.
Proof. repeat split. Qed.

(** C3 (the code departs from the claim).  With the same overflow, [compare]
    is neither antisymmetric nor transitive on integers: [INT_MIN] is below
    [0] and [0] is below [INT_MIN]; [INT_MAX] is below [-1] and [-1] below
    [0], yet [INT_MAX] is above [0]. *)
Theorem compare_is_not_a_total_order :
  result
    ((let* a := Json_int INT_MIN in
      let* b := Json_int 0 in
      let* ab := compare 1 a b in
      let* ba := compare 1 b a in
      ret (ab, ba)) empty_state)
  = Some (-1, -1) /\
  result
    ((let* a := Json_int INT_MAX in
      let* b := Json_int (-1) in
      let* c := Json_int 0 in
      let* ab := compare 1 a b in
      let* bc := compare 1 b c in
      let* ac := compare 1 a c in
      ret (ab, bc, ac)) empty_state)
  = Some (-1, -1, 1).
Proof. split; reflexivity. Qed.

(** ** The order on orderable trees *)

Lemma int_sign_sgn (d : Z) : int_sign d = Z.sgn d.
Proof.
  unfold int_sign. destruct (Z.ltb_spec 0 d), (Z.ltb_spec d 0); simpl; lia.
Qed.

Lemma consistent_sgn (x y z : Z) :
  consistent (Z.sgn (x - y)) (Z.sgn (y - z)) (Z.sgn (x - z)).
Proof. unfold consistent. lia. Qed.

Lemma sgn_swap (x y : Z) : Z.sgn (y - x) = - Z.sgn (x - y).
Proof. lia. Qed.

Lemma number_compare_small (x y : Z) :
  small_int x -> small_int y -> number_compare x y = Z.sgn (x - y).
Proof.
  unfold small_int. intros Hx Hy.
  rewrite number_compare_int_small, int_sign_sgn; [reflexivity|].
  unfold int_range, INT_MIN, INT_MAX. lia.
Qed.

Lemma number_compare_ordered (x y : double) :
  dbl_ordered x -> dbl_ordered y ->
  number_compare x y = Z.sgn (dbl_scaled x - dbl_scaled y).
Proof.
  intros [Hx Nx] [Hy Ny]. rewrite (number_compare_double_sign _ _ Hx Hy).
  unfold dbl_compare_sign, dbl_scaled.
  rewrite (SFcompare_scaled dbl_prec dbl_emax eq_refl eq_refl x y Hx Hy Nx Ny).
  destruct (Z.compare_spec (scaled dbl_prec dbl_emax x) (scaled dbl_prec dbl_emax y));
    lia.
Qed.

Lemma b2z_diff_sgn (l r : bool) : b2z l - b2z r = Z.sgn (b2z l - b2z r).
Proof. destruct l, r; reflexivity. Qed.

(** [std::string::compare] is a total order. *)
Lemma string_compare_swap (a b : string) :
  Z.sgn (string_compare b a) = - Z.sgn (string_compare a b).
Proof.
  rewrite !string_compare_sign. unfold lexicographic.
  rewrite (String.compare_antisym b a).
  destruct (String.compare a b); reflexivity.
Qed.

Lemma string_compare_lt (a b : string) :
  string_compare a b < 0 <-> OrderedTypeEx.String_as_OT.lt a b.
Proof.
  rewrite <- OrderedTypeEx.String_as_OT.cmp_lt.
  pose proof (string_compare_sign a b) as E.
  unfold lexicographic, OrderedTypeEx.String_as_OT.cmp in *.
  destruct (String.compare a b); split; intros H; try lia; try discriminate H;
    reflexivity.
Qed.

Lemma string_compare_gt (a b : string) :
  0 < string_compare a b <-> OrderedTypeEx.String_as_OT.lt b a.
Proof.
  rewrite <- string_compare_lt. pose proof (string_compare_swap a b). lia.
Qed.

Lemma string_compare_trans (a b c : string) :
  string_compare a b <= 0 -> string_compare b c <= 0 ->
  string_compare a c <= 0 /\
  (string_compare a b < 0 \/ string_compare b c < 0 -> string_compare a c < 0).
Proof.
  intros Hab Hbc.
  destruct (Z.eq_dec (string_compare a b) 0) as [Eab|Nab].
  - apply string_compare_eq in Eab. subst b.
    rewrite string_compare_refl. split; [exact Hbc|lia].
  - destruct (Z.eq_dec (string_compare b c) 0) as [Ebc|Nbc].
    + apply string_compare_eq in Ebc. subst c.
      rewrite string_compare_refl. split; [exact Hab|lia].
    + assert (string_compare a c < 0); [|lia].
      apply string_compare_lt.
      apply (OrderedTypeEx.String_as_OT.lt_trans a b c);
        apply string_compare_lt; lia.
Qed.

Lemma string_compare_consistent (a b c : string) :
  consistent (string_compare a b) (string_compare b c) (string_compare a c).
Proof.
  split.
  - apply string_compare_trans.
  - intros Hab Hbc.
    pose proof (string_compare_trans c b a) as H.
    pose proof (string_compare_swap a b). pose proof (string_compare_swap b c).
    pose proof (string_compare_swap a c). lia.
Qed.

Lemma consistent_zero : consistent 0 0 0.
Proof. unfold consistent. lia. Qed.

Section ListOrder.
Variable cmp : Json -> Json -> M Z.
Variable s : state.
Variable P : Json -> Prop.
Hypothesis cmp_swap :
  forall x y c, P x -> P y -> cmp x y s = Ret (c, s) ->
    exists c', cmp y x s = Ret (c', s) /\ Z.sgn c' = - Z.sgn c.
Hypothesis cmp_consistent :
  forall x y z c1 c2 c3, P x -> P y -> P z ->
    cmp x y s = Ret (c1, s) -> cmp y z s = Ret (c2, s) ->
    cmp x z s = Ret (c3, s) -> consistent c1 c2 c3.

Lemma elementwise_swap (l r : list Json) (c : Z) :
  Forall P l -> Forall P r ->
  elementwise cmp s l r c ->
  exists c', elementwise cmp s r l c' /\ Z.sgn c' = - Z.sgn c.
Proof.
  intros Hl Hr H. revert Hl Hr.
  induction H as [|x y l r c Hc H IH|x y l r c Hc Hne Hlen];
    intros Hl Hr.
  - exists 0. split; [constructor|reflexivity].
  - apply Forall_cons in Hl as [Hx Hl]. apply Forall_cons in Hr as [Hy Hr].
    destruct (cmp_swap x y 0 Hx Hy Hc) as (z & Hz & Hs).
    assert (z = 0) as -> by lia.
    destruct (IH Hl Hr) as (c' & H' & Hs').
    exists c'. split; [apply elementwise_zero; assumption|exact Hs'].
  - apply Forall_cons in Hl as [Hx Hl]. apply Forall_cons in Hr as [Hy Hr].
    destruct (cmp_swap x y c Hx Hy Hc) as (c' & Hc' & Hs).
    exists c'. split; [|exact Hs].
    apply elementwise_first; [exact Hc'|lia|auto].
Qed.

Lemma elementwise_consistent (l r t : list Json) (c1 c2 c3 : Z) :
  Forall P l -> Forall P r -> Forall P t ->
  elementwise cmp s l r c1 -> elementwise cmp s r t c2 ->
  elementwise cmp s l t c3 -> consistent c1 c2 c3.
Proof.
  intros Hl Hr Ht H1. revert t c2 c3 Hl Hr Ht.
  induction H1 as [|x y l r c1 Hc1 H1 IH|x y l r c1 Hc1 Hne Hlen];
    intros t c2 c3 Hl Hr Ht H2 H3.
  - inversion H2; subst. inversion H3; subst. apply consistent_zero.
  - apply Forall_cons in Hl as [Hx Hl]. apply Forall_cons in Hr as [Hy Hr].
    inversion H2; subst; inversion H3; subst;
      apply Forall_cons in Ht as [Hz Ht];
      match goal with
      | Ha : cmp x y s = Ret (?a, s), Hb : cmp y ?z s = Ret (?b, s),
        Hc : cmp x ?z s = Ret (?c, s) |- _ =>
          pose proof (cmp_consistent x y z a b c Hx Hy Hz Ha Hb Hc) as Hk
      end;
      first [ eapply IH; eassumption | unfold consistent in *; lia ].
  - apply Forall_cons in Hl as [Hx Hl]. apply Forall_cons in Hr as [Hy Hr].
    inversion H2; subst; inversion H3; subst;
      apply Forall_cons in Ht as [Hz Ht];
      match goal with
      | Ha : cmp x y s = Ret (?a, s), Hb : cmp y ?z s = Ret (?b, s),
        Hc : cmp x ?z s = Ret (?c, s) |- _ =>
          pose proof (cmp_consistent x y z a b c Hx Hy Hz Ha Hb Hc) as Hk
      end;
      unfold consistent in *; lia.
Qed.

Lemma entrywise_swap (l r : json_map) (c : Z) :
  Forall (fun kv => P kv.2) l -> Forall (fun kv => P kv.2) r ->
  entrywise cmp s l r c ->
  exists c', entrywise cmp s r l c' /\ Z.sgn c' = - Z.sgn c.
Proof.
  intros Hl Hr H. revert Hl Hr.
  induction H as [|k x y l r c Hc H IH|k k' x y l r Hne Hlen
                  |k x y l r c Hc Hne Hlen]; intros Hl Hr.
  - exists 0. split; [constructor|reflexivity].
  - apply Forall_cons in Hl as [Hx Hl]. apply Forall_cons in Hr as [Hy Hr].
    destruct (cmp_swap x y 0 Hx Hy Hc) as (z & Hz & Hs).
    assert (z = 0) as -> by lia.
    destruct (IH Hl Hr) as (c' & H' & Hs').
    exists c'. split; [apply entrywise_zero; assumption|exact Hs'].
  - pose proof (string_compare_swap k k') as Hs.
    exists (string_compare k' k). split; [|exact Hs].
    apply entrywise_key; [lia|auto].
  - apply Forall_cons in Hl as [Hx Hl]. apply Forall_cons in Hr as [Hy Hr].
    destruct (cmp_swap x y c Hx Hy Hc) as (c' & Hc' & Hs).
    exists c'. split; [|exact Hs].
    apply entrywise_value; [exact Hc'|lia|auto].
Qed.

Lemma entrywise_consistent (l r t : json_map) (c1 c2 c3 : Z) :
  Forall (fun kv => P kv.2) l -> Forall (fun kv => P kv.2) r ->
  Forall (fun kv => P kv.2) t ->
  entrywise cmp s l r c1 -> entrywise cmp s r t c2 ->
  entrywise cmp s l t c3 -> consistent c1 c2 c3.
Proof.
  intros Hl Hr Ht H1. revert t c2 c3 Hl Hr Ht.
  induction H1 as [|k x y l r c1 Hc1 H1 IH|k k' x y l r Hne Hlen
                   |k x y l r c1 Hc1 Hne Hlen];
    intros t c2 c3 Hl Hr Ht H2 H3.
  - inversion H2; subst. inversion H3; subst. apply consistent_zero.
  - apply Forall_cons in Hl as [Hx Hl]. apply Forall_cons in Hr as [Hy Hr].
    inversion H2; subst; inversion H3; subst;
      apply Forall_cons in Ht as [Hz Ht]; simpl in Hx, Hy, Hz;
      rewrite ?string_compare_refl in *;
      try match goal with
      | Ha : cmp x y s = Ret (?a, s), Hb : cmp y ?z s = Ret (?b, s),
        Hc : cmp x ?z s = Ret (?c, s) |- _ =>
          pose proof (cmp_consistent x y z a b c Hx Hy Hz Ha Hb Hc) as Hk
      end;
      first [ eapply IH; eassumption | unfold consistent in *; lia ].
  - inversion H2; subst; inversion H3; subst;
      rewrite ?string_compare_refl in *; try lia;
      match goal with
      | |- consistent (string_compare ?a ?b) _ _ =>
          match goal with
          | Hc : context [string_compare b ?c] |- _ =>
              pose proof (string_compare_consistent a b c) as Hk
          | _ => idtac
          end
      end;
      rewrite ?string_compare_refl in *;
      unfold consistent in *; lia.
  - apply Forall_cons in Hl as [Hx Hl]. apply Forall_cons in Hr as [Hy Hr].
    inversion H2; subst; inversion H3; subst;
      apply Forall_cons in Ht as [Hz Ht]; simpl in Hx, Hy, Hz;
      rewrite ?string_compare_refl in *;
      try match goal with
      | Ha : cmp x y s = Ret (?a, s), Hb : cmp y ?z s = Ret (?b, s),
        Hc : cmp x ?z s = Ret (?c, s) |- _ =>
          pose proof (cmp_consistent x y z a b c Hx Hy Hz Ha Hb Hc) as Hk
      end;
      unfold consistent in *; lia.
Qed.
End ListOrder.

Lemma orderable_tree (n : nat) (s : state) :
  forall j, orderable n s j -> tree n s j.
Proof.
  induction n as [|n IH]; intros j; simpl; [auto|].
  destruct (heap s !! impl j) as [[]|]; auto.
  - intros [Hl H]. split; [exact Hl|]. eapply Forall_impl; [exact H|exact IH].
  - intros [Hl H]. split; [exact Hl|].
    eapply Forall_impl; [exact H|]. intros kv. apply IH.
Qed.

Section ContainerCompare.
Variable cmp : Json -> Json -> M Z.
Variable s : state.
Variable P : Json -> Prop.
Hypothesis cmp_returns :
  forall x y, P x -> P y -> exists c, cmp x y s = Ret (c, s).

Lemma array_compare_lengths (a b : Json) (la lb : list Json) :
  heap s !! impl a = Some (ArrayNode la) ->
  heap s !! impl b = Some (ArrayNode lb) ->
  Z.of_nat (length la) <= INT_MAX -> Z.of_nat (length lb) <= INT_MAX ->
  length la <> length lb ->
  array_compare cmp a b s
  = Ret (Z.sgn (Z.of_nat (length la) - Z.of_nat (length lb)), s).
Proof.
  intros Ha Hb Hla Hlb Hne. rewrite (array_compare_node _ _ _ _ _ _ Ha Hb). simpl.
  rewrite !(int_wrap_id _ (size_is_int _ Hla)), !(int_wrap_id _ (size_is_int _ Hlb)).
  rewrite (int_wrap_id _ (size_diff_is_int _ _ Hla Hlb)).
  destruct (Z.eqb_spec (Z.of_nat (length la) - Z.of_nat (length lb)) 0); [lia|].
  simpl. rewrite int_sign_sgn. reflexivity.
Qed.

Lemma array_compare_elementwise (a b : Json) (la lb : list Json) (c : Z) :
  heap s !! impl a = Some (ArrayNode la) ->
  heap s !! impl b = Some (ArrayNode lb) ->
  Z.of_nat (length la) <= INT_MAX ->
  elementwise cmp s la lb c ->
  array_compare cmp a b s = Ret (c, s).
Proof.
  intros Ha Hb Hla Hel. pose proof (elementwise_length _ _ _ _ _ Hel) as Hlen.
  rewrite (array_compare_node _ _ _ _ _ _ Ha Hb). simpl.
  rewrite <- Hlen, Z.sub_diag. simpl.
  rewrite !(int_wrap_id _ (size_is_int _ Hla)), Nat2Z.id.
  apply (array_compare_loop_elementwise _ s a b la lb Ha Hb Hla la lb c Hel [] []);
    reflexivity.
Qed.

Lemma array_compare_cases (a b : Json) (la lb : list Json) (c : Z) :
  heap s !! impl a = Some (ArrayNode la) ->
  heap s !! impl b = Some (ArrayNode lb) ->
  Z.of_nat (length la) <= INT_MAX -> Z.of_nat (length lb) <= INT_MAX ->
  Forall P la -> Forall P lb ->
  array_compare cmp a b s = Ret (c, s) ->
  (length la <> length lb /\
   c = Z.sgn (Z.of_nat (length la) - Z.of_nat (length lb))) \/
  (length la = length lb /\ elementwise cmp s la lb c).
Proof.
  intros Ha Hb Hla Hlb Pa Pb H.
  destruct (Nat.eq_dec (length la) (length lb)) as [Hlen|Hne].
  - right. split; [exact Hlen|].
    destruct (elementwise_exists cmp s P cmp_returns _ _ Pa Pb Hlen) as [c' Hc'].
    rewrite (array_compare_elementwise _ _ _ _ _ Ha Hb Hla Hc') in H.
    injection H as <-. exact Hc'.
  - left. split; [exact Hne|].
    rewrite (array_compare_lengths _ _ _ _ Ha Hb Hla Hlb Hne) in H.
    injection H as <-. reflexivity.
Qed.

Lemma object_compare_lengths (a b : Json) (lm rm : json_map) :
  heap s !! impl a = Some (ObjectNode lm) ->
  heap s !! impl b = Some (ObjectNode rm) ->
  Z.of_nat (length lm) <= INT_MAX -> Z.of_nat (length rm) <= INT_MAX ->
  length lm <> length rm ->
  object_compare cmp a b s
  = Ret (Z.sgn (Z.of_nat (length lm) - Z.of_nat (length rm)), s).
Proof.
  intros Ha Hb Hla Hlb Hne. rewrite (object_compare_node _ _ _ _ _ _ Ha Hb). simpl.
  rewrite !(int_wrap_id _ (size_is_int _ Hla)), !(int_wrap_id _ (size_is_int _ Hlb)).
  rewrite (int_wrap_id _ (size_diff_is_int _ _ Hla Hlb)).
  destruct (Z.eqb_spec (Z.of_nat (length lm) - Z.of_nat (length rm)) 0); [lia|].
  simpl. rewrite int_sign_sgn. reflexivity.
Qed.

Lemma object_compare_entrywise (a b : Json) (lm rm : json_map) (c : Z) :
  heap s !! impl a = Some (ObjectNode lm) ->
  heap s !! impl b = Some (ObjectNode rm) ->
  entrywise cmp s lm rm c ->
  object_compare cmp a b s = Ret (c, s).
Proof.
  intros Ha Hb Hel. pose proof (entrywise_length _ _ _ _ _ Hel) as Hlen.
  rewrite (object_compare_node _ _ _ _ _ _ Ha Hb). simpl.
  rewrite <- Hlen, Z.sub_diag. simpl.
  apply object_compare_loop_entrywise, Hel.
Qed.

Lemma object_compare_cases (a b : Json) (lm rm : json_map) (c : Z) :
  heap s !! impl a = Some (ObjectNode lm) ->
  heap s !! impl b = Some (ObjectNode rm) ->
  Z.of_nat (length lm) <= INT_MAX -> Z.of_nat (length rm) <= INT_MAX ->
  Forall (fun kv => P kv.2) lm -> Forall (fun kv => P kv.2) rm ->
  object_compare cmp a b s = Ret (c, s) ->
  (length lm <> length rm /\
   c = Z.sgn (Z.of_nat (length lm) - Z.of_nat (length rm))) \/
  (length lm = length rm /\ entrywise cmp s lm rm c).
Proof.
  intros Ha Hb Hla Hlb Pa Pb H.
  destruct (Nat.eq_dec (length lm) (length rm)) as [Hlen|Hne].
  - right. split; [exact Hlen|].
    destruct (entrywise_exists cmp s P cmp_returns _ _ Pa Pb Hlen) as [c' Hc'].
    rewrite (object_compare_entrywise _ _ _ _ _ Ha Hb Hc') in H.
    injection H as <-. exact Hc'.
  - left. split; [exact Hne|].
    rewrite (object_compare_lengths _ _ _ _ Ha Hb Hla Hlb Hne) in H.
    injection H as <-. reflexivity.
Qed.
End ContainerCompare.

Lemma orderable_returns (n : nat) (s : state) (x y : Json) :
  orderable n s x -> orderable n s y -> exists c, compare n x y s = Ret (c, s).
Proof. intros Hx Hy. apply compare_returns; apply orderable_tree; assumption. Qed.

Lemma sgn_opp (x y : Z) : y = - x -> Z.sgn y = - Z.sgn x.
Proof. lia. Qed.

(** On orderable trees, swapping the operands of [compare] reverses the
    sign of the result. *)
Lemma compare_swap (n : nat) (s : state) :
  forall a b c, orderable n s a -> orderable n s b ->
  compare n a b s = Ret (c, s) ->
  exists c', compare n b a s = Ret (c', s) /\ Z.sgn c' = - Z.sgn c.
Proof.
  induction n as [|n IH]; intros a b c Ha Hb; [contradiction|].
  destruct (tree_node _ _ _ (orderable_tree _ _ _ Ha)) as [na Hna].
  destruct (tree_node _ _ _ (orderable_tree _ _ _ Hb)) as [nb Hnb].
  rewrite (compare_unfold n s a b _ _ Hna Hnb), (compare_unfold n s b a _ _ Hnb Hna).
  simpl in Ha, Hb. rewrite Hna in Ha. rewrite Hnb in Hb.
  destruct (Z.eqb_spec (JsonType.to_int (Node_type na)
                        - JsonType.to_int (Node_type nb)) 0) as [E|E];
    destruct (Z.eqb_spec (JsonType.to_int (Node_type nb)
                          - JsonType.to_int (Node_type na)) 0) as [E'|E'];
    try lia; simpl negb; cbv iota.
  2: { intros [= <-]. eexists. split; [reflexivity|].
       rewrite !int_sign_sgn. lia. }
  clear E'. destruct na, nb; simpl in E; try lia.
  - intros [= <-]. exists 0. split; reflexivity.
  - intros [= <-]. eexists. split; [reflexivity|]. apply sgn_opp. lia.
  - rewrite (number_compare_small _ _ Ha Hb), (number_compare_small _ _ Hb Ha).
    intros [= <-]. eexists. split; [reflexivity|]. apply sgn_opp. lia.
  - rewrite (number_compare_ordered _ _ Ha Hb), (number_compare_ordered _ _ Hb Ha).
    intros [= <-]. eexists. split; [reflexivity|]. apply sgn_opp. lia.
  - intros [= <-]. eexists. split; [reflexivity|]. apply string_compare_swap.
  - destruct Ha as [Hla Fa], Hb as [Hlb Fb]. intros H.
    apply (array_compare_cases _ s (orderable n s) (orderable_returns n s)
             a b _ _ c Hna Hnb Hla Hlb Fa Fb) in H as [[Hne ->]|[Hlen Hel]].
    + rewrite (array_compare_lengths _ s b a _ _ Hnb Hna Hlb Hla) by congruence.
      eexists. split; [reflexivity|]. apply sgn_opp. lia.
    + destruct (elementwise_swap _ s (orderable n s) IH _ _ _ Fa Fb Hel)
        as (c' & Hel' & Hs).
      exists c'. split; [|exact Hs].
      apply (array_compare_elementwise _ s b a _ _ _ Hnb Hna Hlb Hel').
  - destruct Ha as [Hla Fa], Hb as [Hlb Fb]. intros H.
    apply (object_compare_cases _ s (orderable n s) (orderable_returns n s)
             a b _ _ c Hna Hnb Hla Hlb Fa Fb) in H as [[Hne ->]|[Hlen Hel]].
    + rewrite (object_compare_lengths _ s b a _ _ Hnb Hna Hlb Hla) by congruence.
      eexists. split; [reflexivity|]. apply sgn_opp. lia.
    + destruct (entrywise_swap _ s (orderable n s) IH _ _ _ Fa Fb Hel)
        as (c' & Hel' & Hs).
      exists c'. split; [|exact Hs].
      apply (object_compare_entrywise _ s b a _ _ _ Hnb Hna Hel').
Qed.

(** On orderable trees, [compare] is transitive, and compatible with the
    equivalence of the values that compare equal. *)
Lemma compare_consistent (n : nat) (s : state) :
  forall a b c c1 c2 c3,
    orderable n s a -> orderable n s b -> orderable n s c ->
    compare n a b s = Ret (c1, s) -> compare n b c s = Ret (c2, s) ->
    compare n a c s = Ret (c3, s) -> consistent c1 c2 c3.
Proof.
  induction n as [|n IH]; intros a b c c1 c2 c3 Ha Hb Hc; [contradiction|].
  destruct (tree_node _ _ _ (orderable_tree _ _ _ Ha)) as [na Hna].
  destruct (tree_node _ _ _ (orderable_tree _ _ _ Hb)) as [nb Hnb].
  destruct (tree_node _ _ _ (orderable_tree _ _ _ Hc)) as [nc Hnc].
  rewrite (compare_unfold n s a b _ _ Hna Hnb), (compare_unfold n s b c _ _ Hnb Hnc),
    (compare_unfold n s a c _ _ Hna Hnc).
  simpl in Ha, Hb, Hc. rewrite Hna in Ha. rewrite Hnb in Hb. rewrite Hnc in Hc.
  destruct (Z.eqb_spec (JsonType.to_int (Node_type na)
                        - JsonType.to_int (Node_type nb)) 0) as [E1|E1];
    destruct (Z.eqb_spec (JsonType.to_int (Node_type nb)
                          - JsonType.to_int (Node_type nc)) 0) as [E2|E2];
    destruct (Z.eqb_spec (JsonType.to_int (Node_type na)
                          - JsonType.to_int (Node_type nc)) 0) as [E3|E3];
    try lia; simpl negb; cbv iota.
  all: try solve
    [ intros H1 H2 H3;
      repeat match goal with
      | H : Ret (int_sign _, _) = Ret (_, _) |- _ =>
          rewrite int_sign_sgn in H; injection H as <-
      end;
      unfold consistent; lia ].
  destruct na, nb; simpl in E1; try lia; destruct nc; simpl in E2; try lia;
    clear E1 E2 E3.
  - intros [= <-] [= <-] [= <-]. apply consistent_zero.
  - intros [= <-] [= <-] [= <-]. destruct value, value0, value1; simpl;
      unfold consistent; lia.
  - rewrite (number_compare_small _ _ Ha Hb), (number_compare_small _ _ Hb Hc),
      (number_compare_small _ _ Ha Hc).
    intros [= <-] [= <-] [= <-]. apply consistent_sgn.
  - rewrite (number_compare_ordered _ _ Ha Hb), (number_compare_ordered _ _ Hb Hc),
      (number_compare_ordered _ _ Ha Hc).
    intros [= <-] [= <-] [= <-]. apply consistent_sgn.
  - intros [= <-] [= <-] [= <-]. apply string_compare_consistent.
  - destruct Ha as [Hla Fa], Hb as [Hlb Fb], Hc as [Hlc Fc]. intros H1 H2 H3.
    apply (array_compare_cases _ s (orderable n s) (orderable_returns n s)
             a b _ _ c1 Hna Hnb Hla Hlb Fa Fb) in H1.
    apply (array_compare_cases _ s (orderable n s) (orderable_returns n s)
             b c _ _ c2 Hnb Hnc Hlb Hlc Fb Fc) in H2.
    apply (array_compare_cases _ s (orderable n s) (orderable_returns n s)
             a c _ _ c3 Hna Hnc Hla Hlc Fa Fc) in H3.
    destruct H1 as [[N1 ->]|[L1 W1]], H2 as [[N2 ->]|[L2 W2]],
      H3 as [[N3 ->]|[L3 W3]];
      try (unfold consistent; lia).
    apply (elementwise_consistent _ s (orderable n s) IH _ _ _ _ _ _ Fa Fb Fc W1 W2 W3).
  - destruct Ha as [Hla Fa], Hb as [Hlb Fb], Hc as [Hlc Fc]. intros H1 H2 H3.
    apply (object_compare_cases _ s (orderable n s) (orderable_returns n s)
             a b _ _ c1 Hna Hnb Hla Hlb Fa Fb) in H1.
    apply (object_compare_cases _ s (orderable n s) (orderable_returns n s)
             b c _ _ c2 Hnb Hnc Hlb Hlc Fb Fc) in H2.
    apply (object_compare_cases _ s (orderable n s) (orderable_returns n s)
             a c _ _ c3 Hna Hnc Hla Hlc Fa Fc) in H3.
    destruct H1 as [[N1 ->]|[L1 W1]], H2 as [[N2 ->]|[L2 W2]],
      H3 as [[N3 ->]|[L3 W3]];
      try (unfold consistent; lia).
    apply (entrywise_consistent _ s (orderable n s) IH _ _ _ _ _ _ Fa Fb Fc W1 W2 W3).
Qed.

(** On orderable trees [compare] is a total order: reflexive,
    antisymmetric and transitive. *)
Lemma compare_total_order (n : nat) (s : state) (a b c : Json) :
  orderable n s a -> orderable n s b -> orderable n s c ->
  compare n a a s = Ret (0, s) /\
  exists ab ba bc ac,
    compare n a b s = Ret (ab, s) /\
    compare n b a s = Ret (ba, s) /\
    Z.sgn ba = - Z.sgn ab /\
    compare n b c s = Ret (bc, s) /\
    compare n a c s = Ret (ac, s) /\
    consistent ab bc ac.
Proof.
  intros Ha Hb Hc. split; [apply compare_refl, orderable_tree, Ha|].
  destruct (orderable_returns n s a b Ha Hb) as [ab Hab].
  destruct (orderable_returns n s b c Hb Hc) as [bc Hbc].
  destruct (orderable_returns n s a c Ha Hc) as [ac Hac].
  destruct (compare_swap n s a b ab Ha Hb Hab) as (ba & Hba & Hs).
  exists ab, ba, bc, ac.
  split; [exact Hab|]. split; [exact Hba|]. split; [exact Hs|].
  split; [exact Hbc|]. split; [exact Hac|].
  apply (compare_consistent n s a b c ab bc ac Ha Hb Hc Hab Hbc Hac).
Qed.

Example order_state_orderable :
  orderable 2 order_state (mkJson 3) /\
  orderable 2 order_state (mkJson 4) /\
  orderable 2 order_state (mkJson 7).
Proof.
  assert (forall k : nat, (k <= 3)%nat -> Z.of_nat k <= INT_MAX) as Hsmall
    by (unfold INT_MAX; lia).
  assert (small_int 1 /\ small_int 2 /\ small_int 3) as (H1 & H2 & H3)
    by (unfold small_int; lia).
  repeat split; simpl; try (apply Hsmall; lia);
    repeat (first [apply Forall_nil_2 | apply Forall_cons_2]);
    simpl; assumption.
Qed.

(** * Further properties of the code *)

(** ** Scalars: construction and typed access *)

(** X1. A scalar read back through the accessor of its kind is the scalar the
    handle was constructed from, in every state. *)
Theorem construct_then_read (s : state) :
  (forall b, exists j s',
     Json_bool b s = Ret (j, s') /\ toBool j s' = Ret (b, s') /\
     type j s' = Ret (JsonType.Boolean, s')) /\
  (forall i, exists j s',
     Json_int i s = Ret (j, s') /\ toInt j s' = Ret (i, s') /\
     type j s' = Ret (JsonType.Integer, s')) /\
  (forall d, exists j s',
     Json_double d s = Ret (j, s') /\ toNumber j s' = Ret (d, s') /\
     type j s' = Ret (JsonType.Number, s')) /\
  (forall str, exists j s',
     Json_string str s = Ret (j, s') /\ toString j s' = Ret (str, s') /\
     type j s' = Ret (JsonType.String, s')).
Proof.
  assert (forall n, (heap s ++ [n]) !! length (heap s) = Some n) as Hf
    by (intros n; apply lookup_fresh).
  split; [|split; [|split]]; intros v; eexists _, _;
    (split; [reflexivity|]); split;
    unfold_ops; simpl; repeat (rewrite Hf; simpl); reflexivity.
Qed.

(** X2. Every operation that belongs to one kind fails its assertion on a
    value of another kind: nothing is converted, and nothing is changed. *)
Theorem kind_mismatch_fails_the_assertion (s : state) (j x : Json) (n : Node)
    (i : Z) (key : string) :
  heap s !! impl j = Some n ->
  (Node_type n <> JsonType.Boolean -> toBool j s = AssertFailed) /\
  (Node_type n <> JsonType.Integer -> toInt j s = AssertFailed) /\
  (Node_type n <> JsonType.Number -> toNumber j s = AssertFailed) /\
  (Node_type n <> JsonType.String -> toString j s = AssertFailed) /\
  (Node_type n <> JsonType.Array ->
     Json_length j s = AssertFailed /\ Json_at j i s = AssertFailed /\
     Json_index j i s = AssertFailed /\ push j x s = AssertFailed /\
     Array_data j s = AssertFailed) /\
  (Node_type n <> JsonType.Object ->
     Json_index_key j key s = AssertFailed /\
     Json_index_key_const j key s = AssertFailed /\
     Object_data j s = AssertFailed).
Proof.
  intros H.
  repeat match goal with |- _ /\ _ => split end; intros Hk;
    repeat match goal with |- _ /\ _ => split end;
    destruct n; try (exfalso; apply Hk; reflexivity); eval_node H.
Qed.

Lemma kind_mismatch_fails_the_assertion_witness :
  heap example_state !! impl (mkJson 2) = Some (IntegerNode 1) /\
  toNumber (mkJson 2) example_state = AssertFailed /\
  toBool (mkJson 2) example_state = AssertFailed.
Proof.
  pose proof (kind_mismatch_fails_the_assertion example_state (mkJson 2)
                (mkJson 0) (IntegerNode 1) 0 "a" eq_refl)
    as (Hb & _ & Hn & _).
  split; [reflexivity|].
  split; [apply Hn|apply Hb]; discriminate.
Defined.

(** ** Arrays and objects: writing and reading back *)

Lemma map_find_insert_ne (key k : string) (x : Json) (m : json_map) :
  k <> key -> map_find k (map_insert key x m) = map_find k m.
Proof.
  intros Hne. induction m as [|[k0 y] m IH]; simpl.
  - destruct (String.eqb_spec k key); [contradiction|reflexivity].
  - destruct (String.compare key k0) eqn:E; simpl.
    + apply String.compare_eq_iff in E. subst k0.
      destruct (String.eqb_spec k key); [contradiction|reflexivity].
    + destruct (String.eqb_spec k key); [contradiction|reflexivity].
    + rewrite IH. reflexivity.
Qed.

Lemma map_insert_insert (key : string) (x y : Json) (m : json_map) :
  map_insert key y (map_insert key x m) = map_insert key y m.
Proof.
  induction m as [|[k0 z] m IH]; simpl.
  - rewrite String_compare_refl. reflexivity.
  - destruct (String.compare key k0) eqn:E; simpl.
    + rewrite E. reflexivity.
    + rewrite String_compare_refl. reflexivity.
    + rewrite E, IH. reflexivity.
Qed.

Lemma map_insert_length_present (key : string) (x y : Json) (m : json_map) :
  map_sorted m -> map_find key m = Some y ->
  length (map_insert key x m) = length m.
Proof.
  unfold map_sorted. induction m as [|[k0 z] m IH]; simpl; intros Hs Hf;
    [discriminate|].
  apply StronglySorted_inv in Hs as [Hs Hall].
  destruct (String.compare key k0) eqn:E; simpl.
  - reflexivity.
  - exfalso. destruct (String.eqb_spec key k0) as [->|Hne].
    + rewrite String_compare_refl in E. discriminate.
    + assert (key ∈ m.*1) as Hin.
      { destruct (decide (key ∈ m.*1)) as [|Hn]; [assumption|].
        apply map_find_None in Hn. congruence. }
      rewrite Forall_forall in Hall. specialize (Hall _ Hin).
      apply (string_lt_irrefl key), (string_lt_trans key k0 key E Hall).
  - destruct (String.eqb_spec key k0) as [->|Hne].
    + rewrite String_compare_refl in E. discriminate.
    + rewrite (IH Hs Hf). reflexivity.
Qed.

Lemma Json_index_key_node (s : state) (j : Json) (m : json_map) (key : string) :
  heap s !! impl j = Some (ObjectNode m) ->
  Json_index_key j key s =
    match map_find key m with
    | Some _ => Ret (ObjectSlot (impl j) key, s)
    | None =>
        Ret (ObjectSlot (impl j) key,
             mkState (<[impl j := ObjectNode
                                    (map_insert key (mkJson (length (heap s))) m)]>
                        (heap s ++ [ObjectNode []]))
                     (null_instance s) (true_instance s) (false_instance s))
    end.
Proof. intros H. eval_node H. destruct (map_find key m); reflexivity. Qed.

Lemma ref_set_ObjectSlot (s : state) (p : ptr) (m : json_map) (key : string)
    (x val : Json) :
  heap s !! p = Some (ObjectNode m) ->
  map_find key m = Some x ->
  ref_set (ObjectSlot p key) val s =
    Ret (tt, mkState (<[p := ObjectNode (map_insert key val m)]> (heap s))
                     (null_instance s) (true_instance s) (false_instance s)).
Proof.
  intros H Hf. unfold ref_set, ObjectNode_value, store, deref, bind, ret.
  simpl impl. rewrite H, Hf. reflexivity.
Qed.

Lemma ref_set_ArraySlot (s : state) (p : ptr) (v : list Json) (i : nat)
    (val : Json) :
  heap s !! p = Some (ArrayNode v) ->
  (i < length v)%nat ->
  ref_set (ArraySlot p i) val s =
    Ret (tt, mkState (<[p := ArrayNode (<[i := val]> v)]> (heap s))
                     (null_instance s) (true_instance s) (false_instance s)).
Proof.
  intros H Hi. unfold ref_set, ArrayNode_value, store, deref, bind, ret.
  simpl impl. rewrite H. destruct (decide (i < length v)%nat); [reflexivity|lia].
Qed.

(** X3. Successive calls of [push] on an array append the pushed handles in
    call order; every other node, and the singletons, stay as they were. *)
Theorem push_list_appends (xs : list Json) :
  forall (s : state) (a : Json) (v : list Json),
    heap s !! impl a = Some (ArrayNode v) ->
    exists s',
      push_list a xs s = Ret (tt, s') /\
      Array_data a s' = Ret (v ++ xs, s') /\
      same_elsewhere (impl a) s s'.
Proof.
  induction xs as [|x xs IH]; intros s a v Ha; simpl.
  - exists s. rewrite app_nil_r.
    split; [reflexivity|]. split; [apply Array_data_node, Ha|].
    repeat split.
  - unfold bind. rewrite (push_node _ _ _ _ Ha).
    match goal with |- context [push_list a xs ?s1] =>
      assert (heap s1 !! impl a = Some (ArrayNode (v ++ [x]))) as Ha1
        by (simpl; apply list_lookup_insert_eq, (lookup_lt_Some _ _ _ Ha));
      destruct (IH s1 a _ Ha1) as (s' & Hrun & Hdata & Hsame & Hn & Ht & Hf)
    end.
    exists s'. split; [exact Hrun|].
    split; [rewrite <- app_assoc in Hdata; exact Hdata|].
    split; [|auto].
    intros q Hq. rewrite (Hsame q Hq). simpl.
    apply list_lookup_insert_ne. congruence.
Qed.

Lemma push_list_appends_witness :
  heap example_state !! impl (mkJson 5) = Some (ArrayNode []) /\
  exists s',
    push_list (mkJson 5) [mkJson 2; mkJson 4] example_state = Ret (tt, s') /\
    Array_data (mkJson 5) s' = Ret ([mkJson 2; mkJson 4], s').
Proof.
  split; [reflexivity|].
  destruct (push_list_appends [mkJson 2; mkJson 4] example_state (mkJson 5) []
              eq_refl) as (s' & H1 & H2 & _).
  exists s'. auto.
Defined.

(** X4. [arr[i] = val] with [0 <= i < size] overwrites the element at [i]
    in the shared node: [at(i)] then returns [val], the length and the
    elements at the other indices are the same, and no other node changes.
    With [i] past the end the access is undefined. *)
Theorem indexed_assignment (s : state) (j val : Json) (v : list Json) (i : Z) :
  heap s !! impl j = Some (ArrayNode v) ->
  int_range i ->
  (0 <= i < Z.of_nat (length v) ->
   exists s',
     assign_index j i val s = Ret (tt, s') /\
     Array_data j s' = Ret (<[Z.to_nat i := val]> v, s') /\
     Json_at j i s' = Ret (val, s') /\
     Json_length j s' = Ret (int_wrap (Z.of_nat (length v)), s') /\
     (forall k x, int_range k -> k <> i ->
        Json_at j k s = Ret (x, s) -> Json_at j k s' = Ret (x, s')) /\
     same_elsewhere (impl j) s s') /\
  (Z.of_nat (length v) <= i -> assign_index j i val s = Undefined).
Proof.
  intros Hj Hi. unfold assign_index, bind.
  rewrite (Json_index_node _ _ _ _ Hj). split.
  - intros [H0 Hlt]. rewrite (size_t_of_int_nonneg _ H0 Hi).
    destruct (Z.ltb_spec i (Z.of_nat (length v))); [|lia].
    rewrite (ref_set_ArraySlot _ _ _ _ _ Hj) by lia.
    eexists. split; [reflexivity|].
    match goal with |- Array_data _ ?s' = _ /\ _ =>
      assert (heap s' !! impl j = Some (ArrayNode (<[Z.to_nat i := val]> v))) as Hj'
        by (simpl; apply list_lookup_insert_eq, (lookup_lt_Some _ _ _ Hj))
    end.
    split; [apply Array_data_node, Hj'|].
    split.
    { rewrite (Json_at_node _ _ _ _ Hj'), (size_t_of_int_nonneg _ H0 Hi).
      match goal with |- vector_at ?w _ ?s' = _ =>
        pose proof (vector_at_in_range s' w (Z.to_nat i) val) as Hv
      end.
      rewrite Z2Nat.id in Hv by exact H0.
      apply Hv, list_lookup_insert_eq. lia. }
    split.
    { rewrite (Json_length_node _ _ _ Hj'), length_insert. reflexivity. }
    split.
    { intros k x Hk Hne. rewrite (Json_at_node _ _ _ _ Hj), (Json_at_node _ _ _ _ Hj').
      unfold vector_at. rewrite length_insert.
      destruct (_ <? _); [|discriminate].
      rewrite list_lookup_insert_ne.
      - destruct (v !! _); [|discriminate]. intros [= <-]. reflexivity.
      - intros Heq. apply Hne.
        destruct (Z_lt_le_dec k 0) as [Hneg|Hpos].
        + rewrite (size_t_of_int_neg _ Hneg Hk) in Heq.
          unfold int_range, INT_MIN, INT_MAX in *. lia.
        + rewrite (size_t_of_int_nonneg _ Hpos Hk) in Heq. lia. }
    repeat split. intros q Hq. simpl. apply list_lookup_insert_ne. congruence.
  - intros Hge. rewrite size_t_of_int_nonneg by (auto; lia).
    destruct (Z.ltb_spec i (Z.of_nat (length v))); [lia|reflexivity].
Qed.

Lemma indexed_assignment_witness :
  heap example_state !! impl (mkJson 3) = Some (ArrayNode [mkJson 2; mkJson 4]) /\
  int_range 1 /\
  exists s',
    assign_index (mkJson 3) 1 (mkJson 0) example_state = Ret (tt, s') /\
    Json_at (mkJson 3) 1 s' = Ret (mkJson 0, s').
Proof.
  assert (int_range 1) as Hi by (unfold int_range, INT_MIN, INT_MAX; lia).
  split; [reflexivity|]. split; [exact Hi|].
  destruct (proj1 (indexed_assignment example_state (mkJson 3) (mkJson 0)
                     [mkJson 2; mkJson 4] 1 eq_refl Hi))
    as (s' & H1 & _ & H2 & _); [simpl; lia|].
  exists s'. auto.
Defined.

Lemma keyed_assignment_aux (s : state) (j val : Json) (m : json_map)
    (key : string) :
  heap s !! impl j = Some (ObjectNode m) ->
  exists s',
    assign_key j key val s = Ret (tt, s') /\
    heap s' !! impl j = Some (ObjectNode (map_insert key val m)) /\
    (forall q n, q <> impl j -> heap s !! q = Some n -> heap s' !! q = Some n).
Proof.
  intros Hj. pose proof (lookup_lt_Some _ _ _ Hj) as Hlt.
  unfold assign_key, bind. rewrite (Json_index_key_node _ _ _ _ Hj).
  destruct (map_find key m) as [x|] eqn:Hf.
  - rewrite (ref_set_ObjectSlot _ _ _ _ _ _ Hj Hf).
    eexists. split; [reflexivity|]. simpl. split.
    + apply list_lookup_insert_eq, Hlt.
    + intros q n Hq Hn. rewrite list_lookup_insert_ne by congruence. exact Hn.
  - match goal with |- context [ref_set _ _ ?s1] =>
      assert (heap s1 !! impl j
              = Some (ObjectNode (map_insert key (mkJson (length (heap s))) m)))
        as Hj1
        by (simpl; apply list_lookup_insert_eq; rewrite length_app; lia)
    end.
    rewrite (ref_set_ObjectSlot _ _ _ _ _ _ Hj1 (map_find_insert _ _ _)).
    eexists. split; [reflexivity|]. simpl. rewrite map_insert_insert. split.
    + apply list_lookup_insert_eq. rewrite length_insert, length_app. lia.
    + intros q n Hq Hn. rewrite !list_lookup_insert_ne by congruence.
      apply lookup_old, Hn.
Qed.

(** X5. [obj[key] = val] binds [key] to [val] in the shared node, whether the
    key was there or not: the read-only lookup of [key] then returns [val],
    every other key has the entry it had, the keys stay in increasing order,
    the size grows by one exactly when the key was absent, and the nodes the
    heap held elsewhere are unchanged. *)
Theorem keyed_assignment (s : state) (j val : Json) (m : json_map)
    (key : string) :
  heap s !! impl j = Some (ObjectNode m) ->
  map_sorted m ->
  exists s',
    assign_key j key val s = Ret (tt, s') /\
    Object_data j s' = Ret (map_insert key val m, s') /\
    map_sorted (map_insert key val m) /\
    Json_index_key_const j key s' = Ret (val, s') /\
    (forall k, k <> key -> map_find k (map_insert key val m) = map_find k m) /\
    length (map_insert key val m)
      = match map_find key m with
        | Some _ => length m
        | None => S (length m)
        end /\
    (forall q n, q <> impl j -> heap s !! q = Some n -> heap s' !! q = Some n).
Proof.
  intros Hj Hs.
  destruct (keyed_assignment_aux s j val m key Hj) as (s' & Hrun & Hj' & Hother).
  exists s'. split; [exact Hrun|].
  split; [apply Object_data_node, Hj'|].
  split; [apply map_insert_sorted, Hs|].
  split.
  { rewrite (Json_index_key_const_node _ _ _ _ Hj'), map_find_insert. reflexivity. }
  split; [intros k Hk; apply map_find_insert_ne, Hk|].
  split; [|exact Hother].
  destruct (map_find key m) as [x|] eqn:Hf.
  - apply (map_insert_length_present _ _ x _ Hs Hf).
  - apply map_insert_length, Hf.
Qed.

Lemma keyed_assignment_witness :
  heap example_state !! impl (mkJson 1) =
    Some (ObjectNode [("a"%string, mkJson 2)]) /\
  map_sorted [("a"%string, mkJson 2)] /\
  exists s',
    assign_key (mkJson 1) "b" (mkJson 4) example_state = Ret (tt, s') /\
    Json_index_key_const (mkJson 1) "b" s' = Ret (mkJson 4, s').
Proof.
  assert (map_sorted [("a"%string, mkJson 2)]) as Hs by (repeat constructor).
  split; [reflexivity|]. split; [exact Hs|].
  destruct (keyed_assignment example_state (mkJson 1) (mkJson 4)
              [("a"%string, mkJson 2)] "b" eq_refl Hs)
    as (s' & H1 & _ & _ & H2 & _).
  exists s'. auto.
Defined.

(** X6. Default-constructed values never share a node, unlike the values
    constructed from [nullptr]: after [Json a; Json b; a[key] = val;] the
    object [b] is still empty, and after [Array a; Array b; a.push(x);] the
    array [b] is. *)
Theorem default_constructed_values_are_separate (s : state) (key : string)
    (val : Json) :
  (exists a s1 b s2 s3,
     Json_default s = Ret (a, s1) /\ Json_default s1 = Ret (b, s2) /\
     impl a <> impl b /\
     assign_key a key val s2 = Ret (tt, s3) /\
     Json_index_key_const a key s3 = Ret (val, s3) /\
     Object_data b s3 = Ret ([], s3)) /\
  (exists a s1 b s2 s3,
     Array_default s = Ret (a, s1) /\ Array_default s1 = Ret (b, s2) /\
     impl a <> impl b /\
     push a val s2 = Ret (tt, s3) /\
     Array_data a s3 = Ret ([val], s3) /\
     Json_length b s3 = Ret (0, s3)).
Proof.
  split.
  - set (a := mkJson (length (heap s))).
    set (s1 := mkState (heap s ++ [ObjectNode []]) (null_instance s)
                       (true_instance s) (false_instance s)).
    set (b := mkJson (length (heap s1))).
    set (s2 := mkState (heap s1 ++ [ObjectNode []]) (null_instance s)
                       (true_instance s) (false_instance s)).
    assert (heap s2 !! impl a = Some (ObjectNode [])) as Ha
      by (apply lookup_old, lookup_fresh).
    assert (heap s2 !! impl b = Some (ObjectNode [])) as Hb
      by apply lookup_fresh.
    assert (impl a <> impl b) as Hne
      by (simpl; rewrite length_app; simpl; lia).
    destruct (keyed_assignment_aux s2 a val [] key Ha)
      as (s3 & Hrun & Hj' & Hother).
    exists a, s1, b, s2, s3.
    split; [reflexivity|]. split; [reflexivity|].
    split; [exact Hne|]. split; [exact Hrun|]. split.
    + rewrite (Json_index_key_const_node _ _ _ _ Hj'), map_find_insert.
      reflexivity.
    + apply Object_data_node, Hother; [congruence|exact Hb].
  - set (a := mkJson (length (heap s))).
    set (s1 := mkState (heap s ++ [ArrayNode []]) (null_instance s)
                       (true_instance s) (false_instance s)).
    set (b := mkJson (length (heap s1))).
    set (s2 := mkState (heap s1 ++ [ArrayNode []]) (null_instance s)
                       (true_instance s) (false_instance s)).
    assert (heap s2 !! impl a = Some (ArrayNode [])) as Ha
      by (apply lookup_old, lookup_fresh).
    assert (impl a <> impl b) as Hne
      by (simpl; rewrite length_app; simpl; lia).
    set (s3 := mkState (<[impl a := ArrayNode [val]]> (heap s2)) (null_instance s)
                       (true_instance s) (false_instance s)).
    assert (heap s3 !! impl a = Some (ArrayNode [val])) as Ha3
      by (apply list_lookup_insert_eq, (lookup_lt_Some _ _ _ Ha)).
    assert (heap s3 !! impl b = Some (ArrayNode [])) as Hb3.
    { simpl. rewrite list_lookup_insert_ne by exact Hne. apply lookup_fresh. }
    exists a, s1, b, s2, s3.
    split; [reflexivity|]. split; [reflexivity|]. split; [exact Hne|].
    split; [apply (push_node _ _ _ _ Ha)|].
    split; [apply Array_data_node, Ha3|].
    rewrite (Json_length_node _ _ _ Hb3). reflexivity.
Qed.

(** ** [compare] and [operator==]: what they read and what they leave *)

Lemma type_Ret (j : Json) (s s' : state) (k : JsonType.t) :
  type j s = Ret (k, s') ->
  exists n, heap s !! impl j = Some n /\ k = Node_type n /\ s' = s.
Proof.
  unfold type, deref, bind, ret.
  destruct (heap s !! impl j) as [n|]; [|discriminate].
  intros [= <- <-]. eauto.
Qed.

Lemma compare_Ret_nodes (n : nat) (a b : Json) (s : state) (r : Z * state) :
  compare (S n) a b s = Ret r ->
  exists na nb, heap s !! impl a = Some na /\ heap s !! impl b = Some nb.
Proof.
  simpl. unfold compare_body.
  intros (lt & s1 & Hl & H)%bind_Ret. apply bind_Ret in H as (rt & s2 & Hr & _).
  apply type_Ret in Hl as (na & Hna & _ & ->).
  apply type_Ret in Hr as (nb & Hnb & _ & _). eauto.
Qed.

Lemma Json_length_Ret (j : Json) (s s' : state) (l : Z) :
  Json_length j s = Ret (l, s') ->
  exists v, heap s !! impl j = Some (ArrayNode v) /\ s' = s.
Proof.
  intros H. destruct (heap s !! impl j) as [n|] eqn:E.
  - destruct n; try (revert H; eval_node E; discriminate).
    rewrite (Json_length_node _ _ _ E) in H. injection H as _ <-. eauto.
  - revert H. eval_node E. discriminate.
Qed.

Lemma Json_at_Ret (j x : Json) (i : Z) (s s' : state) :
  Json_at j i s = Ret (x, s') ->
  exists v, heap s !! impl j = Some (ArrayNode v) /\ s' = s.
Proof.
  intros H. destruct (heap s !! impl j) as [n|] eqn:E.
  - destruct n; try (revert H; eval_node E; discriminate).
    rewrite (Json_at_node _ _ _ _ E) in H. unfold vector_at in H.
    destruct (_ <? _); [|discriminate].
    destruct (_ !! _); [|discriminate]. injection H as _ <-. eauto.
  - revert H. eval_node E. discriminate.
Qed.

Lemma Object_data_Ret (j : Json) (m : json_map) (s s' : state) :
  Object_data j s = Ret (m, s') ->
  heap s !! impl j = Some (ObjectNode m) /\ s' = s.
Proof.
  intros H. destruct (heap s !! impl j) as [n|] eqn:E.
  - destruct n; try (revert H; eval_node E; discriminate).
    rewrite (Object_data_node _ _ _ E) in H. injection H as <- <-. auto.
  - revert H. eval_node E. discriminate.
Qed.

Section ReadOnly.
Variable cmp : Json -> Json -> M Z.
Hypothesis cmp_read_only :
  forall x y s c s', cmp x y s = Ret (c, s') -> s' = s.

Lemma array_compare_loop_read_only (a b : Json) (todo : nat) :
  forall i s c s',
    array_compare_loop cmp a b i todo s = Ret (c, s') -> s' = s.
Proof.
  induction todo as [|todo IH]; intros i s c s'; simpl.
  - intros [= _ <-]. reflexivity.
  - intros (l & s1 & Hl & H)%bind_Ret. apply bind_Ret in H as (r & s2 & Hr & H).
    apply bind_Ret in H as (c0 & s3 & Hc & H).
    apply Json_at_Ret in Hl as (_ & _ & ->).
    apply Json_at_Ret in Hr as (_ & _ & ->).
    apply cmp_read_only in Hc as ->.
    destruct (negb (c0 =? 0)); [injection H as _ <-; reflexivity|].
    apply IH in H. exact H.
Qed.

Lemma array_compare_read_only (a b : Json) (s s' : state) (c : Z) :
  array_compare cmp a b s = Ret (c, s') -> s' = s.
Proof.
  unfold array_compare.
  intros (ll & s1 & Hl & H)%bind_Ret. apply bind_Ret in H as (rl & s2 & Hr & H).
  apply Json_length_Ret in Hl as (_ & _ & ->).
  apply Json_length_Ret in Hr as (_ & _ & ->).
  destruct (negb _); [injection H as _ <-; reflexivity|].
  apply array_compare_loop_read_only in H. exact H.
Qed.

Lemma object_compare_loop_read_only (l r : json_map) :
  forall s c s', object_compare_loop cmp l r s = Ret (c, s') -> s' = s.
Proof.
  revert r. induction l as [|[lk lv] l IH]; intros [|[rk rv] r] s c s'; simpl;
    try discriminate; try (intros [= _ <-]; reflexivity).
  destruct (negb (string_compare lk rk =? 0));
    [intros [= _ <-]; reflexivity|].
  intros (c0 & s1 & Hc & H)%bind_Ret. apply cmp_read_only in Hc as ->.
  destruct (negb (c0 =? 0)); [injection H as _ <-; reflexivity|].
  apply IH in H. exact H.
Qed.

Lemma object_compare_read_only (a b : Json) (s s' : state) (c : Z) :
  object_compare cmp a b s = Ret (c, s') -> s' = s.
Proof.
  unfold object_compare.
  intros (lm & s1 & Hl & H)%bind_Ret. apply bind_Ret in H as (rm & s2 & Hr & H).
  apply Object_data_Ret in Hl as (_ & ->).
  apply Object_data_Ret in Hr as (_ & ->).
  destruct (negb _); [injection H as _ <-; reflexivity|].
  apply object_compare_loop_read_only in H. exact H.
Qed.
End ReadOnly.

Lemma compare_keeps_the_state (n : nat) :
  forall a b s c s', compare n a b s = Ret (c, s') -> s' = s.
Proof.
  induction n as [|n IH]; intros a b s c s' H; [discriminate H|].
  destruct (compare_Ret_nodes _ _ _ _ _ H) as (na & nb & Hna & Hnb).
  rewrite (compare_unfold n s a b _ _ Hna Hnb) in H.
  destruct (negb _); [injection H as _ <-; reflexivity|].
  destruct na, nb; try discriminate H;
    try (injection H as _ <-; reflexivity);
    first [ apply (array_compare_read_only _ IH) in H; exact H
          | apply (object_compare_read_only _ IH) in H; exact H ].
Qed.

Lemma equals_keeps_the_state (n : nat) (a b : Json) (s s' : state) (e : bool) :
  equals n a b s = Ret (e, s') -> s' = s.
Proof.
  unfold equals.
  destruct (decide (impl a = impl b)); [intros [= _ <-]; reflexivity|].
  intros (lt & s1 & Hl & H)%bind_Ret.
  apply bind_Ret in H as (rt & s2 & Hr & H).
  apply type_Ret in Hl as (_ & _ & _ & ->).
  apply type_Ret in Hr as (_ & _ & _ & ->).
  destruct (negb _); [injection H as _ <-; reflexivity|].
  apply bind_Ret in H as (c & s3 & Hc & H).
  apply compare_keeps_the_state in Hc as ->.
  injection H as _ <-. reflexivity.
Qed.

(** X7. [compare], [operator==] and [operator!=] only read: whenever they
    return, the heap and the singletons are what they were before the call. *)
Theorem comparison_is_read_only (n : nat) (a b : Json) (s s' : state) :
  (forall c, compare n a b s = Ret (c, s') -> s' = s) /\
  (forall e, equals n a b s = Ret (e, s') -> s' = s) /\
  (forall e, not_equals n a b s = Ret (e, s') -> s' = s).
Proof.
  assert (forall e s1, equals n a b s = Ret (e, s1) -> s1 = s) as Heq
    by (intros e s1; apply equals_keeps_the_state).
  split; [intros c; apply compare_keeps_the_state|].
  split; [intros e; apply Heq|].
  intros e. unfold not_equals.
  intros (e0 & s1 & He & H)%bind_Ret. apply Heq in He as ->.
  injection H as _ <-. reflexivity.
Qed.

Lemma equals_unfold (n : nat) (s : state) (a b : Json) (na nb : Node) :
  heap s !! impl a = Some na ->
  heap s !! impl b = Some nb ->
  equals n a b s =
    if decide (impl a = impl b) then Ret (true, s)
    else if negb (JsonType.eqb (Node_type na) (Node_type nb)) then Ret (false, s)
    else bind (compare n a b) (fun c => ret (c =? 0)) s.
Proof.
  intros Ha Hb. unfold equals.
  destruct (decide (impl a = impl b)); [reflexivity|].
  unfold bind at 1. rewrite (type_node _ _ _ Ha).
  unfold bind at 1. rewrite (type_node _ _ _ Hb).
  destruct (negb _); reflexivity.
Qed.

(** X8. On trees, [operator==] is true exactly when [compare] is [0], and
    [operator!=] is its negation: the identity shortcut and the test of the
    kinds never disagree with the comparison. *)
Theorem equals_agrees_with_compare (n : nat) (s : state) (a b : Json) :
  tree n s a -> tree n s b ->
  exists c,
    compare n a b s = Ret (c, s) /\
    equals n a b s = Ret (c =? 0, s) /\
    not_equals n a b s = Ret (negb (c =? 0), s).
Proof.
  intros Ha Hb.
  destruct (compare_returns n s a b Ha Hb) as [c Hc].
  destruct (tree_node _ _ _ Ha) as [na Hna].
  destruct (tree_node _ _ _ Hb) as [nb Hnb].
  exists c. split; [exact Hc|].
  assert (equals n a b s = Ret (c =? 0, s)) as He.
  { rewrite (equals_unfold n s a b _ _ Hna Hnb).
    destruct (decide (impl a = impl b)) as [E|E].
    - destruct a as [pa], b as [pb]. simpl in E. subst pb.
      rewrite (compare_refl n s _ Ha) in Hc. injection Hc as <-. reflexivity.
    - destruct (negb _) eqn:Ek.
      + apply negb_true_iff in Ek.
        assert (JsonType.to_int (Node_type na) <> JsonType.to_int (Node_type nb))
          as Hk by (unfold JsonType.eqb in Ek; apply Z.eqb_neq, Ek).
        destruct n as [|n]; [contradiction|].
        destruct (compare_of_different_kinds n s a b na nb Hna Hnb) as [Hlt Hgt].
        destruct (Z_lt_le_dec (JsonType.to_int (Node_type na))
                              (JsonType.to_int (Node_type nb))) as [Hl|Hl].
        * rewrite (Hlt Hl) in Hc. injection Hc as <-. reflexivity.
        * rewrite Hgt in Hc by lia. injection Hc as <-. reflexivity.
      + unfold bind, ret. rewrite Hc. reflexivity. }
  split; [exact He|].
  unfold not_equals, bind, ret. rewrite He. reflexivity.
Qed.

Lemma equals_agrees_with_compare_witness :
  tree 2 order_state (mkJson 3) /\ tree 2 order_state (mkJson 5) /\
  exists c,
    compare 2 (mkJson 3) (mkJson 5) order_state = Ret (c, order_state) /\
    equals 2 (mkJson 3) (mkJson 5) order_state = Ret (c =? 0, order_state).
Proof.
  assert (forall k : nat, (k <= 3)%nat -> Z.of_nat k <= INT_MAX) as Hsmall
    by (unfold INT_MAX; lia).
  assert (tree 2 order_state (mkJson 3)) as H3.
  { simpl. split; [apply Hsmall; lia|].
    repeat (first [apply Forall_nil_2 | apply Forall_cons_2]); exact I. }
  assert (tree 2 order_state (mkJson 5)) as H5.
  { simpl. split; [apply Hsmall; lia|].
    repeat (first [apply Forall_nil_2 | apply Forall_cons_2]); exact I. }
  split; [exact H3|]. split; [exact H5|].
  destruct (equals_agrees_with_compare 2 order_state (mkJson 3) (mkJson 5) H3 H5)
    as (c & Hc & He & _).
  exists c. auto.
Defined.

(** X9. Two values of different kinds are never equal, whatever their
    payloads: an [Integer] is not equal to the [Number] of the same value.
    [operator==] answers before it compares, so with any fuel. *)
Theorem different_kinds_are_not_equal (n : nat) (s : state) (a b : Json)
    (na nb : Node) :
  heap s !! impl a = Some na ->
  heap s !! impl b = Some nb ->
  Node_type na <> Node_type nb ->
  equals n a b s = Ret (false, s) /\ not_equals n a b s = Ret (true, s).
Proof.
  intros Ha Hb Hk.
  assert (equals n a b s = Ret (false, s)) as He.
  { rewrite (equals_unfold n s a b _ _ Ha Hb).
    destruct (decide (impl a = impl b)) as [E|E]; [congruence|].
    destruct (JsonType.eqb _ _) eqn:Ek; [|reflexivity].
    apply JsonType_eqb_eq in Ek. contradiction. }
  split; [exact He|]. unfold not_equals, bind, ret. rewrite He. reflexivity.
Qed.

Lemma different_kinds_are_not_equal_witness :
  heap example_state !! impl (mkJson 2) = Some (IntegerNode 1) /\
  heap example_state !! impl (mkJson 4) = Some (StringNode "x") /\
  Node_type (IntegerNode 1) <> Node_type (StringNode "x") /\
  equals 0 (mkJson 2) (mkJson 4) example_state = Ret (false, example_state).
Proof.
  assert (Node_type (IntegerNode 1) <> Node_type (StringNode "x")) as Hk
    by discriminate.
  split; [reflexivity|]. split; [reflexivity|]. split; [exact Hk|].
  apply (different_kinds_are_not_equal 0 example_state (mkJson 2) (mkJson 4)
           _ _ eq_refl eq_refl Hk).
Defined.

(** X10. A NaN compares equal to every number, on either side: [compare]
    gives [0] and [operator==] gives [true], for every [double], NaN or
    not. *)
Theorem nan_equals_every_number (n : nat) (s : state) (a b : Json)
    (y : double) :
  heap s !! impl a = Some (NumberNode dbl_nan) ->
  heap s !! impl b = Some (NumberNode y) ->
  compare (S n) a b s = Ret (0, s) /\
  compare (S n) b a s = Ret (0, s) /\
  equals (S n) a b s = Ret (true, s) /\
  equals (S n) b a s = Ret (true, s).
Proof.
  intros Ha Hb.
  assert (compare (S n) a b s = Ret (0, s)) as Hab.
  { rewrite (compare_unfold n s a b _ _ Ha Hb). reflexivity. }
  assert (compare (S n) b a s = Ret (0, s)) as Hba.
  { rewrite (compare_unfold n s b a _ _ Hb Ha). simpl.
    destruct y as [[]|[]| |]; reflexivity. }
  split; [exact Hab|]. split; [exact Hba|].
  rewrite (equals_unfold (S n) s a b _ _ Ha Hb),
    (equals_unfold (S n) s b a _ _ Hb Ha).
  unfold bind, ret. rewrite Hab, Hba. simpl.
  split; [destruct (decide (impl a = impl b))|destruct (decide (impl b = impl a))];
    reflexivity.
Qed.

Lemma nan_equals_every_number_witness :
  heap number_state !! impl (mkJson 0) = Some (NumberNode dbl_nan) /\
  heap number_state !! impl (mkJson 1) = Some (NumberNode (dbl_of_pos 1)) /\
  equals 1 (mkJson 0) (mkJson 1) number_state = Ret (true, number_state).
Proof.
  split; [reflexivity|]. split; [reflexivity|].
  apply (nan_equals_every_number 0 number_state (mkJson 0) (mkJson 1)
           (dbl_of_pos 1) eq_refl eq_refl).
Defined.

(** ** A value compared with itself *)

Section SelfCompare.
Variable cmp : Json -> Json -> M Z.
Hypothesis cmp_self :
  forall y s r, cmp y y s = Ret r -> r = (0, s).

Lemma array_compare_loop_self (a : Json) (todo : nat) :
  forall i s r, array_compare_loop cmp a a i todo s = Ret r -> r = (0, s).
Proof.
  induction todo as [|todo IH]; intros i s r; simpl.
  - intros [= <-]. reflexivity.
  - intros (l & s1 & Hl & H)%bind_Ret. apply bind_Ret in H as (y & s2 & Hy & H).
    apply bind_Ret in H as (c0 & s3 & Hc & H).
    pose proof (Json_at_Ret _ _ _ _ _ Hl) as (_ & _ & ->).
    rewrite Hl in Hy. injection Hy as <- <-.
    apply cmp_self in Hc. injection Hc as -> ->.
    simpl in H. apply IH in H. exact H.
Qed.

Lemma array_compare_self (a : Json) (s : state) (r : Z * state) :
  array_compare cmp a a s = Ret r -> r = (0, s).
Proof.
  unfold array_compare.
  intros (ll & s1 & Hl & H)%bind_Ret. apply bind_Ret in H as (rl & s2 & Hr & H).
  pose proof (Json_length_Ret _ _ _ _ Hl) as (_ & _ & ->).
  rewrite Hl in Hr. injection Hr as <- <-.
  rewrite Z.sub_diag in H. simpl in H.
  apply array_compare_loop_self in H. exact H.
Qed.

Lemma object_compare_loop_self (l : json_map) :
  forall s r, object_compare_loop cmp l l s = Ret r -> r = (0, s).
Proof.
  induction l as [|[k x] l IH]; intros s r; simpl.
  - intros [= <-]. reflexivity.
  - rewrite string_compare_refl. simpl.
    intros (c0 & s1 & Hc & H)%bind_Ret.
    apply cmp_self in Hc. injection Hc as -> ->.
    simpl in H. apply IH in H. exact H.
Qed.

Lemma object_compare_self (a : Json) (s : state) (r : Z * state) :
  object_compare cmp a a s = Ret r -> r = (0, s).
Proof.
  unfold object_compare.
  intros (lm & s1 & Hl & H)%bind_Ret. apply bind_Ret in H as (rm & s2 & Hr & H).
  pose proof (Object_data_Ret _ _ _ _ Hl) as (_ & ->).
  rewrite Hl in Hr. injection Hr as <- <-.
  rewrite Z.sub_diag in H. simpl in H.
  apply object_compare_loop_self in H. exact H.
Qed.
End SelfCompare.

(** Whatever the heap looks like, a value never compares different from
    itself. *)
Lemma compare_self (n : nat) :
  forall x s r, compare n x x s = Ret r -> r = (0, s).
Proof.
  induction n as [|n IH]; intros x s r H; [discriminate H|].
  destruct (compare_Ret_nodes _ _ _ _ _ H) as (na & nb & Hna & _).
  rewrite (compare_unfold n s x x _ _ Hna Hna), Z.sub_diag in H. simpl in H.
  destruct na; try (injection H as <-; reflexivity).
  - destruct value; injection H as <-; reflexivity.
  - rewrite number_compare_int_refl in H. injection H as <-. reflexivity.
  - rewrite number_compare_double_refl in H. injection H as <-. reflexivity.
  - rewrite string_compare_refl in H. injection H as <-. reflexivity.
  - apply (array_compare_self _ IH) in H. exact H.
  - apply (object_compare_self _ IH) in H. exact H.
Qed.

(** The loop of [array_compare] on an array against itself does not return
    when the comparison of one of the elements still to visit with itself
    does not. *)
Lemma array_compare_loop_stuck (cmp : Json -> Json -> M Z) (s : state)
    (a x : Json) (v w : list Json) :
  (forall y r, cmp y y s = Ret r -> r = (0, s)) ->
  (forall r, cmp x x s <> Ret r) ->
  heap s !! impl a = Some (ArrayNode (v ++ x :: w)) ->
  Z.of_nat (length (v ++ x :: w)) <= INT_MAX ->
  forall (todo i : nat) r,
    (i <= length v)%nat -> (i + todo > length v)%nat ->
    array_compare_loop cmp a a (Z.of_nat i) todo s <> Ret r.
Proof.
  intros Hself Hx Ha Hmax todo.
  induction todo as [|todo IH]; intros i r Hi Hcover; [lia|].
  simpl. intros H.
  apply bind_Ret in H as (l & s1 & Hl & H).
  apply bind_Ret in H as (y & s2 & Hy & H).
  apply bind_Ret in H as (c0 & s3 & Hc & H).
  pose proof (Json_at_Ret _ _ _ _ _ Hl) as (_ & _ & ->).
  rewrite Hl in Hy. injection Hy as <- <-.
  destruct (Nat.eq_dec i (length v)) as [->|Hne].
  - rewrite (Json_at_node _ _ _ _ Ha) in Hl.
    rewrite size_t_of_int_nonneg in Hl;
      [|lia|apply size_is_int; rewrite length_app in Hmax; lia].
    rewrite (vector_at_in_range s _ (length v) x) in Hl
      by (apply list_lookup_middle; reflexivity).
    injection Hl as <-. apply (Hx _ Hc).
  - apply Hself in Hc. injection Hc as -> ->. simpl in H.
    replace (Z.of_nat i + 1) with (Z.of_nat (S i)) in H by lia.
    apply (IH (S i) r) in H; [exact H|lia|lia].
Qed.

(** X11. An array that holds itself, as after [a.push(a)], is not a tree:
    [compare(a, a)] returns no result, with any amount of fuel, while
    [a == a] is true at once, by the identity of the two nodes. *)
Theorem compare_of_a_self_containing_array (s : state) (a : Json)
    (v : list Json) :
  heap s !! impl a = Some (ArrayNode v) ->
  Z.of_nat (length v) < INT_MAX ->
  exists s',
    push a a s = Ret (tt, s') /\
    Json_at a (Z.of_nat (length v)) s' = Ret (a, s') /\
    (forall n r, compare n a a s' <> Ret r) /\
    (forall n, equals n a a s' = Ret (true, s')).
Proof.
  intros Ha Hlen. rewrite (push_node _ _ _ _ Ha). eexists.
  split; [reflexivity|].
  match goal with |- Json_at _ _ ?s' = _ /\ _ =>
    set (s1 := s');
    assert (heap s1 !! impl a = Some (ArrayNode (v ++ [a]))) as Ha1
      by (simpl; apply list_lookup_insert_eq, (lookup_lt_Some _ _ _ Ha))
  end.
  assert (Z.of_nat (length (v ++ [a])) <= INT_MAX) as Hmax
    by (rewrite length_app; simpl; lia).
  split.
  { rewrite (Json_at_node _ _ _ _ Ha1).
    rewrite size_t_of_int_nonneg by (try apply size_is_int; lia).
    apply vector_at_in_range, list_lookup_middle. reflexivity. }
  split.
  - intros n. induction n as [|n IH]; intros r H; [discriminate H|].
    rewrite (compare_unfold n s1 a a _ _ Ha1 Ha1), Z.sub_diag in H. simpl in H.
    rewrite (array_compare_node _ _ _ _ _ _ Ha1 Ha1) in H. simpl in H.
    rewrite Z.sub_diag in H. simpl in H.
    rewrite (int_wrap_id _ (size_is_int _ Hmax)), Nat2Z.id in H.
    apply (array_compare_loop_stuck (compare n) s1 a a v []
             (fun y r => compare_self n y s1 r) IH Ha1 Hmax
             (length (v ++ [a])) 0%nat r) in H;
      [exact H|lia|rewrite length_app; simpl; lia].
  - intros n. unfold equals.
    destruct (decide (impl a = impl a)); [reflexivity|congruence].
Qed.

Lemma compare_of_a_self_containing_array_witness :
  heap example_state !! impl (mkJson 5) = Some (ArrayNode []) /\
  Z.of_nat (length (@nil Json)) < INT_MAX /\
  exists s',
    push (mkJson 5) (mkJson 5) example_state = Ret (tt, s') /\
    compare 3 (mkJson 5) (mkJson 5) s' = OutOfFuel /\
    equals 3 (mkJson 5) (mkJson 5) s' = Ret (true, s').
Proof.
  assert (Z.of_nat (length (@nil Json)) < INT_MAX) as Hlen
    by (unfold INT_MAX; simpl; lia).
  split; [reflexivity|]. split; [exact Hlen|].
  destruct (compare_of_a_self_containing_array example_state (mkJson 5) []
              eq_refl Hlen) as (s' & Hpush & _ & _ & Heq).
  exists s'. split; [exact Hpush|].
  split; [|apply Heq].
  injection Hpush as <-. reflexivity.
Defined.

(** ** The order [compare] defines *)

(** X12. On two trees of depth at most [n], [compare] returns with fuel
    [n], and returns the same result with any larger amount of fuel. *)
Theorem compare_result_is_independent_of_fuel (n : nat) (s : state)
    (a b : Json) :
  tree n s a -> tree n s b ->
  exists c, forall m, (n <= m)%nat -> compare m a b s = Ret (c, s).
Proof.
  intros Ha Hb. destruct (compare_returns n s a b Ha Hb) as [c Hc].
  exists c. intros m Hm. apply (compare_fuel_le n m a b s _ Hm Hc).
Qed.

Lemma order_state_trees :
  tree 2 order_state (mkJson 3) /\ tree 2 order_state (mkJson 4) /\
  tree 2 order_state (mkJson 5).
Proof.
  assert (forall k : nat, (k <= 3)%nat -> Z.of_nat k <= INT_MAX) as Hsmall
    by (unfold INT_MAX; lia).
  repeat split; try (apply Hsmall; simpl; lia);
    repeat (first [apply Forall_nil_2 | apply Forall_cons_2]); exact I.
Defined.

Lemma compare_result_is_independent_of_fuel_witness :
  tree 2 order_state (mkJson 3) /\ tree 2 order_state (mkJson 4) /\
  exists c, forall m, (2 <= m)%nat ->
    compare m (mkJson 3) (mkJson 4) order_state = Ret (c, order_state).
Proof.
  destruct order_state_trees as (H3 & H4 & _).
  split; [exact H3|]. split; [exact H4|].
  apply (compare_result_is_independent_of_fuel 2 order_state (mkJson 3)
           (mkJson 4) H3 H4).
Defined.

(** X13. Every tree compares equal to itself, whatever it holds: integers at
    the ends of the range, infinities and NaN included. *)
Theorem compare_is_reflexive_on_trees (n m : nat) (s : state) (a : Json) :
  tree n s a -> (n <= m)%nat -> compare m a a s = Ret (0, s).
Proof.
  intros Ha Hm. apply (compare_fuel_le n m a a s _ Hm), compare_refl, Ha.
Qed.

Lemma compare_is_reflexive_on_trees_witness :
  tree 2 order_state (mkJson 4) /\ (2 <= 5)%nat /\
  compare 5 (mkJson 4) (mkJson 4) order_state = Ret (0, order_state).
Proof.
  destruct order_state_trees as (_ & H4 & _).
  assert (2 <= 5)%nat as Hle by lia.
  split; [exact H4|]. split; [exact Hle|].
  apply (compare_is_reflexive_on_trees 2 5 order_state (mkJson 4) H4 Hle).
Defined.

(** X14. Two values of different kinds are ordered as the enumerators of
    [JsonType] are, Null < Boolean < Integer < Number < String < Array <
    Object, before any payload is read: the result is [-1] or [1], never
    [0]. *)
Theorem compare_orders_by_kind_first (n : nat) (s : state) (a b : Json)
    (na nb : Node) :
  heap s !! impl a = Some na ->
  heap s !! impl b = Some nb ->
  Node_type na <> Node_type nb ->
  compare (S n) a b s
  = Ret (if JsonType.to_int (Node_type na) <? JsonType.to_int (Node_type nb)
         then -1 else 1, s) /\
  compare (S n) b a s
  = Ret (if JsonType.to_int (Node_type na) <? JsonType.to_int (Node_type nb)
         then 1 else -1, s).
Proof.
  intros Ha Hb Hk.
  assert (JsonType.to_int (Node_type na) <> JsonType.to_int (Node_type nb)) as Hne.
  { intros E. apply Hk. destruct na, nb; simpl in E; try lia; reflexivity. }
  destruct (compare_of_different_kinds n s a b na nb Ha Hb) as [Hlt Hgt].
  destruct (compare_of_different_kinds n s b a nb na Hb Ha) as [Hlt' Hgt'].
  destruct (Z.ltb_spec (JsonType.to_int (Node_type na))
                       (JsonType.to_int (Node_type nb))).
  - split; [apply Hlt|apply Hgt']; lia.
  - split; [apply Hgt|apply Hlt']; lia.
Qed.

Lemma compare_orders_by_kind_first_witness :
  heap example_state !! impl (mkJson 2) = Some (IntegerNode 1) /\
  heap example_state !! impl (mkJson 4) = Some (StringNode "x") /\
  Node_type (IntegerNode 1) <> Node_type (StringNode "x") /\
  compare 1 (mkJson 2) (mkJson 4) example_state = Ret (-1, example_state).
Proof.
  assert (Node_type (IntegerNode 1) <> Node_type (StringNode "x")) as Hk
    by discriminate.
  split; [reflexivity|]. split; [reflexivity|]. split; [exact Hk|].
  apply (proj1 (compare_orders_by_kind_first 0 example_state (mkJson 2)
                  (mkJson 4) _ _ eq_refl eq_refl Hk)).
Defined.

(** X15. On two integers whose difference an [int] can hold, [compare] is
    the sign of the difference, and [operator==] is true exactly when the
    integers are the same. *)
Theorem compare_of_integers_in_range (n : nat) (s : state) (a b : Json)
    (x y : Z) :
  heap s !! impl a = Some (IntegerNode x) ->
  heap s !! impl b = Some (IntegerNode y) ->
  int_range (x - y) ->
  compare (S n) a b s = Ret (Z.sgn (x - y), s) /\
  equals (S n) a b s = Ret (x =? y, s).
Proof.
  intros Ha Hb Hr.
  assert (compare (S n) a b s = Ret (Z.sgn (x - y), s)) as Hc
    by (rewrite (compare_of_integers n s a b x y Ha Hb Hr), int_sign_sgn;
        reflexivity).
  split; [exact Hc|].
  rewrite (equals_unfold (S n) s a b _ _ Ha Hb).
  change (negb (JsonType.eqb (Node_type (IntegerNode x))
                             (Node_type (IntegerNode y)))) with false.
  cbv iota.
  destruct (decide (impl a = impl b)) as [E|E].
  - assert (x = y) as -> by congruence. rewrite Z.eqb_refl. reflexivity.
  - unfold bind, ret. rewrite Hc. do 2 f_equal.
    destruct (Z.eqb_spec x y), (Z.eqb_spec (Z.sgn (x - y)) 0); try reflexivity;
      lia.
Qed.

Lemma compare_of_integers_in_range_witness :
  heap order_state !! impl (mkJson 0) = Some (IntegerNode 1) /\
  heap order_state !! impl (mkJson 2) = Some (IntegerNode 3) /\
  int_range (1 - 3) /\
  compare 1 (mkJson 0) (mkJson 2) order_state = Ret (-1, order_state).
Proof.
  assert (int_range (1 - 3)) as Hr by (unfold int_range, INT_MIN, INT_MAX; lia).
  split; [reflexivity|]. split; [reflexivity|]. split; [exact Hr|].
  apply (proj1 (compare_of_integers_in_range 0 order_state (mkJson 0) (mkJson 2)
                  1 3 eq_refl eq_refl Hr)).
Defined.

(** X16. On two doubles, [compare] follows the native order: [-1] when
    [x < y], [0] when [x == y], [1] when [x > y] (and [0] when one is a
    NaN).  The rounded difference of two different doubles is never zero, and
    never of the wrong sign, gradual underflow and overflow included. *)
Theorem compare_of_numbers_follows_the_native_order (n : nat) (s : state)
    (a b : Json) (x y : double) :
  heap s !! impl a = Some (NumberNode x) ->
  heap s !! impl b = Some (NumberNode y) ->
  dbl_valid x -> dbl_valid y ->
  (dbl_lt x y = true -> compare (S n) a b s = Ret (-1, s)) /\
  (SFeqb x y = true -> compare (S n) a b s = Ret (0, s)) /\
  (dbl_lt y x = true -> compare (S n) a b s = Ret (1, s)) /\
  (SFcompare x y = None -> compare (S n) a b s = Ret (0, s)).
Proof.
  intros Ha Hb Hx Hy.
  rewrite (compare_of_numbers n s a b x y Ha Hb Hx Hy).
  destruct (number_compare_double_order x y Hx Hy) as (Hlt & Heq & Hgt).
  rewrite (number_compare_double_sign x y Hx Hy) in Hlt, Heq, Hgt.
  split; [intros H; rewrite (Hlt H); reflexivity|].
  split; [intros H; rewrite (Heq H); reflexivity|].
  split; [intros H; rewrite (Hgt H); reflexivity|].
  intros H. unfold dbl_compare_sign. rewrite H. reflexivity.
Qed.

Lemma compare_of_numbers_follows_the_native_order_witness :
  heap number_state !! impl (mkJson 1) = Some (NumberNode (dbl_of_pos 1)) /\
  heap number_state !! impl (mkJson 2) = Some (NumberNode (dbl_of_pos 2)) /\
  dbl_valid (dbl_of_pos 1) /\ dbl_valid (dbl_of_pos 2) /\
  dbl_lt (dbl_of_pos 1) (dbl_of_pos 2) = true /\
  compare 1 (mkJson 1) (mkJson 2) number_state = Ret (-1, number_state).
Proof.
  assert (dbl_valid (dbl_of_pos 1)) as H1 by (vm_compute; reflexivity).
  assert (dbl_valid (dbl_of_pos 2)) as H2 by (vm_compute; reflexivity).
  assert (dbl_lt (dbl_of_pos 1) (dbl_of_pos 2) = true) as Hlt
    by (vm_compute; reflexivity).
  split; [reflexivity|]. split; [reflexivity|].
  split; [exact H1|]. split; [exact H2|]. split; [exact Hlt|].
  apply (proj1 (compare_of_numbers_follows_the_native_order 0 number_state
                  (mkJson 1) (mkJson 2) _ _ eq_refl eq_refl H1 H2) Hlt).
Defined.

(** X17. On two strings, [compare] is [0] exactly when the texts are the
    same, and negative exactly when the left one is the smaller in the
    lexicographic order of the characters. *)
Theorem compare_of_strings (n : nat) (s : state) (a b : Json) (x y : string) :
  heap s !! impl a = Some (StringNode x) ->
  heap s !! impl b = Some (StringNode y) ->
  exists c,
    compare (S n) a b s = Ret (c, s) /\
    (c = 0 <-> x = y) /\
    (c < 0 <-> OrderedTypeEx.String_as_OT.lt x y) /\
    (0 < c <-> OrderedTypeEx.String_as_OT.lt y x).
Proof.
  intros Ha Hb. exists (string_compare x y).
  split; [rewrite (compare_unfold n s a b _ _ Ha Hb); reflexivity|].
  split; [|split].
  - split; [apply string_compare_eq|intros ->; apply string_compare_refl].
  - apply string_compare_lt.
  - apply string_compare_gt.
Qed.

Lemma compare_of_strings_witness :
  heap keys_state !! impl (mkJson 7) = Some (StringNode "ab") /\
  heap keys_state !! impl (mkJson 8) = Some (StringNode "b") /\
  exists c,
    compare 1 (mkJson 7) (mkJson 8) keys_state = Ret (c, keys_state) /\ c < 0.
Proof.
  split; [reflexivity|]. split; [reflexivity|].
  destruct (compare_of_strings 0 keys_state (mkJson 7) (mkJson 8) "ab" "b"
              eq_refl eq_refl) as (c & Hc & _ & Hlt & _).
  exists c. split; [exact Hc|].
  apply Hlt, OrderedTypeEx.String_as_OT.cmp_lt. reflexivity.
Defined.

(** X18. On trees whose integers lie in [[-2^30, 2^30)] and whose doubles
    are not NaN, [compare] is a total order: swapping the operands reverses
    the sign of the result, and the results on [(a, b)], [(b, c)] and
    [(a, c)] are those of a transitive order. *)
Theorem compare_is_a_total_order_on_orderable_trees (n : nat) (s : state)
    (a b c : Json) :
  orderable n s a -> orderable n s b -> orderable n s c ->
  exists ab ba bc ac,
    compare n a b s = Ret (ab, s) /\
    compare n b a s = Ret (ba, s) /\
    compare n b c s = Ret (bc, s) /\
    compare n a c s = Ret (ac, s) /\
    Z.sgn ba = - Z.sgn ab /\
    (ab <= 0 -> bc <= 0 -> ac <= 0) /\
    (ab <= 0 -> bc <= 0 -> ab < 0 \/ bc < 0 -> ac < 0) /\
    (ab = 0 -> bc = 0 -> ac = 0).
Proof.
  intros Ha Hb Hc.
  destruct (compare_total_order n s a b c Ha Hb Hc)
    as (_ & ab & ba & bc & ac & Hab & Hba & Hs & Hbc & Hac & Hk).
  exists ab, ba, bc, ac. unfold consistent in Hk.
  repeat split; try assumption; lia.
Qed.

Lemma compare_is_a_total_order_on_orderable_trees_witness :
  orderable 2 order_state (mkJson 3) /\
  orderable 2 order_state (mkJson 4) /\
  orderable 2 order_state (mkJson 7) /\
  exists ab ac,
    compare 2 (mkJson 3) (mkJson 4) order_state = Ret (ab, order_state) /\
    compare 2 (mkJson 3) (mkJson 7) order_state = Ret (ac, order_state).
Proof.
  destruct order_state_orderable as (H3 & H4 & H7).
  split; [exact H3|]. split; [exact H4|]. split; [exact H7|].
  destruct (compare_is_a_total_order_on_orderable_trees 2 order_state
              (mkJson 3) (mkJson 4) (mkJson 7) H3 H4 H7)
    as (ab & _ & _ & ac & Hab & _ & _ & Hac & _).
  exists ab, ac. auto.
Defined.

(** ** Invariants of the heap *)

Lemma micro_steps_one (s s' : state) : micro_step s s' -> micro_steps s s'.
Proof. intros H. eapply micro_steps_step; [exact H|apply micro_steps_refl]. Qed.

Lemma micro_steps_trans (s1 s2 s3 : state) :
  micro_steps s1 s2 -> micro_steps s2 s3 -> micro_steps s1 s3.
Proof.
  induction 1 as [|s1 s2 s2' H12 H IH]; [auto|].
  intros H3. eapply micro_steps_step; [exact H12|apply IH, H3].
Qed.

Lemma make_shared_micro (n : Node) (s s' : state) (p : ptr) :
  make_shared n s = Ret (p, s') -> micro_steps s s'.
Proof. intros [= _ <-]. apply micro_steps_one, micro_alloc. Qed.

Lemma NullNode_get_micro (s s' : state) (p : ptr) :
  NullNode_get s = Ret (p, s') -> micro_steps s s'.
Proof.
  unfold NullNode_get. destruct (null_instance s) eqn:E; intros [= _ <-].
  - apply micro_steps_refl.
  - apply micro_steps_one, micro_null, E.
Qed.

Lemma BooleanNode_True_micro (s s' : state) (p : ptr) :
  BooleanNode_True s = Ret (p, s') -> micro_steps s s'.
Proof.
  unfold BooleanNode_True. destruct (true_instance s) eqn:E; intros [= _ <-].
  - apply micro_steps_refl.
  - apply micro_steps_one, micro_true, E.
Qed.

Lemma BooleanNode_False_micro (s s' : state) (p : ptr) :
  BooleanNode_False s = Ret (p, s') -> micro_steps s s'.
Proof.
  unfold BooleanNode_False. destruct (false_instance s) eqn:E; intros [= _ <-].
  - apply micro_steps_refl.
  - apply micro_steps_one, micro_false, E.
Qed.

(** [m] followed by the return of a value computed from its result. *)
Lemma bind_ret_state {A B : Type} (m : M A) (f : A -> B) (s s' : state) (b : B) :
  bind m (fun a => ret (f a)) s = Ret (b, s') -> exists a, m s = Ret (a, s').
Proof.
  intros (a & s1 & Hm & H)%bind_Ret. injection H as _ <-. eauto.
Qed.

Lemma from_impl_micro (k : JsonType.t) (p : ptr) (s s' : state) (j : Json) :
  (let* n := deref p in
   if JsonType.eqb (Node_type n) k then ret (Json_impl p)
   else let* q := NullNode_get in ret (Json_impl q)) s = Ret (j, s') ->
  micro_steps s s'.
Proof.
  intros (n & s1 & Hn & H)%bind_Ret.
  unfold deref in Hn. destruct (heap s !! p); [|discriminate].
  injection Hn as _ <-.
  destruct (JsonType.eqb _ _).
  - injection H as _ <-. apply micro_steps_refl.
  - apply bind_ret_state in H as [q Hq]. apply (NullNode_get_micro _ _ _ Hq).
Qed.

Lemma push_micro (j x : Json) (s s' : state) :
  push j x s = Ret (tt, s') -> micro_steps s s'.
Proof.
  intros H. destruct (heap s !! impl j) as [n|] eqn:E.
  - destruct n; try (revert H; eval_node E; discriminate).
    rewrite (push_node _ _ _ _ E) in H. injection H as <-.
    apply micro_steps_one, (micro_store s _ _ _ E); [exact I|reflexivity].
  - revert H. eval_node E. discriminate.
Qed.

Lemma Json_index_key_micro (j : Json) (key : string) (r : Json_ref)
    (s s' : state) :
  Json_index_key j key s = Ret (r, s') -> micro_steps s s'.
Proof.
  intros H. destruct (heap s !! impl j) as [n|] eqn:E.
  - destruct n; try (revert H; eval_node E; discriminate).
    rewrite (Json_index_key_node _ _ _ _ E) in H.
    destruct (map_find key value); injection H as _ <-.
    + apply micro_steps_refl.
    + eapply micro_steps_step; [apply (micro_alloc s (ObjectNode []))|].
      apply micro_steps_one.
      apply (micro_store
               (mkState (heap s ++ [ObjectNode []]) (null_instance s)
                        (true_instance s) (false_instance s))
               (impl j) (ObjectNode value));
        [apply lookup_old, E|exact I|reflexivity].
  - revert H. eval_node E. discriminate.
Qed.

Lemma Json_index_key_const_micro (j x : Json) (key : string) (s s' : state) :
  Json_index_key_const j key s = Ret (x, s') -> micro_steps s s'.
Proof.
  intros H. destruct (heap s !! impl j) as [n|] eqn:E.
  - destruct n; try (revert H; eval_node E; discriminate).
    rewrite (Json_index_key_const_node _ _ _ _ E) in H.
    destruct (map_find key value).
    + injection H as _ <-. apply micro_steps_refl.
    + apply bind_ret_state in H as [q Hq]. apply (NullNode_get_micro _ _ _ Hq).
  - revert H. eval_node E. discriminate.
Qed.

Lemma ref_set_micro (r : Json_ref) (val : Json) (s s' : state) :
  ref_set r val s = Ret (tt, s') -> micro_steps s s'.
Proof.
  destruct r as [p i|p key]; unfold ref_set, ArrayNode_value, ObjectNode_value,
    deref, bind, ret; simpl impl;
    destruct (heap s !! p) as [n|] eqn:E; try discriminate;
    destruct n; try discriminate.
  - destruct (decide (i < length value)%nat); [|discriminate].
    intros [= <-].
    apply micro_steps_one, (micro_store s _ _ _ E); [exact I|reflexivity].
  - destruct (map_find key value); [|discriminate].
    intros [= <-].
    apply micro_steps_one, (micro_store s _ _ _ E); [exact I|reflexivity].
Qed.

Lemma api_step_micro (s s' : state) : api_step s s' -> micro_steps s s'.
Proof.
  intros [j H|j H|b j H|i j H|d j H|str j H|j H|j H|j a H|j o H|j j' H
         |j b j' H|j i j' H|j d j' H|j str j' H|j x H|j key r H|j key x H
         |r val H|n a b c H|n a b e H].
  - apply bind_ret_state in H as [p Hp]. apply (make_shared_micro _ _ _ _ Hp).
  - apply bind_ret_state in H as [p Hp]. apply (NullNode_get_micro _ _ _ Hp).
  - apply bind_ret_state in H as [p Hp]. apply (make_shared_micro _ _ _ _ Hp).
  - apply bind_ret_state in H as [p Hp]. apply (make_shared_micro _ _ _ _ Hp).
  - apply bind_ret_state in H as [p Hp]. apply (make_shared_micro _ _ _ _ Hp).
  - apply bind_ret_state in H as [p Hp]. apply (make_shared_micro _ _ _ _ Hp).
  - apply bind_ret_state in H as [p Hp]. apply (make_shared_micro _ _ _ _ Hp).
  - apply bind_ret_state in H as [p Hp]. apply (make_shared_micro _ _ _ _ Hp).
  - apply (from_impl_micro _ _ _ _ _ H).
  - apply (from_impl_micro _ _ _ _ _ H).
  - apply bind_ret_state in H as [p Hp]. apply (NullNode_get_micro _ _ _ Hp).
  - apply bind_ret_state in H as [p Hp]. destruct b.
    + apply (BooleanNode_True_micro _ _ _ Hp).
    + apply (BooleanNode_False_micro _ _ _ Hp).
  - apply bind_ret_state in H as [p Hp]. apply (make_shared_micro _ _ _ _ Hp).
  - apply bind_ret_state in H as [p Hp]. apply (make_shared_micro _ _ _ _ Hp).
  - apply bind_ret_state in H as [p Hp]. apply (make_shared_micro _ _ _ _ Hp).
  - apply (push_micro _ _ _ _ H).
  - apply (Json_index_key_micro _ _ _ _ _ H).
  - apply (Json_index_key_const_micro _ _ _ _ _ H).
  - apply (ref_set_micro _ _ _ _ H).
  - apply compare_keeps_the_state in H as ->. apply micro_steps_refl.
  - apply equals_keeps_the_state in H as ->. apply micro_steps_refl.
Qed.

Lemma api_steps_micro (s s' : state) : api_steps s s' -> micro_steps s s'.
Proof.
  induction 1 as [|s1 s2 s3 H12 H IH]; [apply micro_steps_refl|].
  apply (micro_steps_trans _ s2); [apply api_step_micro, H12|exact IH].
Qed.

Lemma nodes_kept_refl (s : state) : nodes_kept s s.
Proof. intros p n H. exists n. auto. Qed.

Lemma nodes_kept_trans (s1 s2 s3 : state) :
  nodes_kept s1 s2 -> nodes_kept s2 s3 -> nodes_kept s1 s3.
Proof.
  intros H12 H23 p n H.
  destruct (H12 p n H) as (n2 & H2 & Hk2 & Hs2).
  destruct (H23 p n2 H2) as (n3 & H3 & Hk3 & Hs3).
  exists n3. split; [exact H3|]. split; [congruence|].
  intros Hc. rewrite <- (Hs2 Hc). apply Hs3. rewrite (Hs2 Hc). exact Hc.
Qed.

Lemma micro_step_nodes_kept (s s' : state) : micro_step s s' -> nodes_kept s s'.
Proof.
  intros [n|E|E|E|p n n' Hp Hc Hk] q m Hq; simpl;
    try (exists m; split; [apply lookup_old, Hq|auto]).
  destruct (decide (p = q)) as [<-|Hne].
  - exists n'. split; [apply list_lookup_insert_eq, (lookup_lt_Some _ _ _ Hp)|].
    assert (m = n) as -> by congruence.
    split; [exact Hk|]. intros Hn. contradiction.
  - exists m. rewrite list_lookup_insert_ne by exact Hne. auto.
Qed.

Lemma micro_steps_nodes_kept (s s' : state) :
  micro_steps s s' -> nodes_kept s s'.
Proof.
  induction 1 as [|s1 s2 s3 H12 H IH]; [apply nodes_kept_refl|].
  apply (nodes_kept_trans _ s2); [apply micro_step_nodes_kept, H12|exact IH].
Qed.

Lemma micro_step_statics_ok (s s' : state) :
  statics_ok s -> micro_step s s' -> statics_ok s'.
Proof.
  intros (Hn & Ht & Hf) [n|E|E|E|p n n' Hp Hc Hk];
    (split; [|split]); simpl; intros q Hq;
    try (apply lookup_old; auto; fail);
    try (injection Hq as <-; apply lookup_fresh).
  - rewrite list_lookup_insert_ne; [auto|].
    intros Heq. subst q. pose proof (Hn _ Hq) as Hs.
    assert (Some n = Some NullNode) as [= ->] by (rewrite <- Hp; exact Hs).
    destruct Hc.
  - rewrite list_lookup_insert_ne; [auto|].
    intros Heq. subst q. pose proof (Ht _ Hq) as Hs.
    assert (Some n = Some (BooleanNode true)) as [= ->] by (rewrite <- Hp; exact Hs).
    destruct Hc.
  - rewrite list_lookup_insert_ne; [auto|].
    intros Heq. subst q. pose proof (Hf _ Hq) as Hs.
    assert (Some n = Some (BooleanNode false)) as [= ->] by (rewrite <- Hp; exact Hs).
    destruct Hc.
Qed.

Lemma micro_steps_statics_ok (s s' : state) :
  micro_steps s s' -> statics_ok s -> statics_ok s'.
Proof.
  induction 1 as [|s1 s2 s3 H12 H IH]; [auto|].
  intros H1. apply IH, (micro_step_statics_ok s1 s2 H1 H12).
Qed.



(** X20. Whatever sequence of operations runs, each initialised singleton
    pointer refers to its node: the null node and the two boolean nodes are
    never overwritten.  In particular this holds in every state a program
    reaches from its start. *)
Theorem singletons_stay_intact (s s' : state) :
  statics_ok s -> api_steps s s' -> statics_ok s'.
Proof.
  intros Hs H.
  apply (micro_steps_statics_ok s s'); [apply api_steps_micro, H|exact Hs].
Qed.

Lemma program_start_step : api_steps empty_state program_start.
Proof.
  eapply api_steps_step; [|apply api_steps_refl].
  apply (step_Json_nullptr _ _ json_null). reflexivity.
Defined.



Lemma singletons_stay_intact_witness :
  statics_ok empty_state /\ api_steps empty_state program_start /\
  statics_ok program_start.
Proof.
  split; [exact statics_ok_empty|]. split; [exact program_start_step|].
  apply (singletons_stay_intact empty_state program_start statics_ok_empty
           program_start_step).
Defined.

(** ** Views and null tests *)

Lemma eq_nullptr_node (s : state) (j : Json) (n : Node) :
  heap s !! impl j = Some n ->
  eq_nullptr j s = Ret (JsonType.eqb (Node_type n) JsonType.Null, s).
Proof. intros H. eval_node H. Qed.

Lemma data_of_null (s : state) (j : Json) :
  heap s !! impl j = Some NullNode ->
  Array_data j s = AssertFailed /\ Object_data j s = AssertFailed.
Proof. intros H. split; eval_node H. Qed.

(** X21. Narrowing is tested against null: [j.toArray() == nullptr] is true
    exactly when [j] is not an array, [data()] on the view gives the elements
    of [j] when it is one and fails its assertion when it is not; the same
    for [toObject], and [j] itself is left as it was. *)
Theorem narrowed_view_is_null_or_the_container (s : state) (j : Json)
    (n : Node) :
  statics_ok s ->
  heap s !! impl j = Some n ->
  (exists a s',
     toArray j s = Ret (a, s') /\
     eq_nullptr a s'
       = Ret (negb (JsonType.eqb (Node_type n) JsonType.Array), s') /\
     Array_data a s'
       = match n with ArrayNode v => Ret (v, s') | _ => AssertFailed end /\
     heap s' !! impl j = Some n) /\
  (exists o s',
     toObject j s = Ret (o, s') /\
     eq_nullptr o s'
       = Ret (negb (JsonType.eqb (Node_type n) JsonType.Object), s') /\
     Object_data o s'
       = match n with ObjectNode m => Ret (m, s') | _ => AssertFailed end /\
     heap s' !! impl j = Some n).
Proof.
  intros Hok Hj.
  destruct (NullNode_get_canonical s Hok) as (p & s' & Hg & _ & Hp & [t Ht] & _).
  assert (heap s' !! impl j = Some n) as Hj' by (rewrite Ht; apply lookup_old, Hj).
  assert (Json_nullptr s = Ret (mkJson p, s')) as Hnull
    by (unfold Json_nullptr, bind, ret; rewrite Hg; reflexivity).
  split.
  - unfold toArray. rewrite (Array_from_impl_node _ _ _ Hj).
    destruct (JsonType.eqb (Node_type n) JsonType.Array) eqn:E.
    + exists (mkJson (impl j)), s.
      split; [reflexivity|].
      split; [rewrite (eq_nullptr_node s (mkJson (impl j)) n Hj);
              destruct n; try discriminate E; reflexivity|].
      split; [|exact Hj].
      destruct n; try discriminate E.
      apply (Array_data_node s (mkJson (impl j)) _ Hj).
    + exists (mkJson p), s'. split; [exact Hnull|].
      split; [apply (eq_nullptr_node s' (mkJson p) _ Hp)|].
      split; [|exact Hj'].
      destruct n; try discriminate E;
        apply (proj1 (data_of_null s' (mkJson p) Hp)).
  - unfold toObject. rewrite (Object_from_impl_node _ _ _ Hj).
    destruct (JsonType.eqb (Node_type n) JsonType.Object) eqn:E.
    + exists (mkJson (impl j)), s.
      split; [reflexivity|].
      split; [rewrite (eq_nullptr_node s (mkJson (impl j)) n Hj);
              destruct n; try discriminate E; reflexivity|].
      split; [|exact Hj].
      destruct n; try discriminate E.
      apply (Object_data_node s (mkJson (impl j)) _ Hj).
    + exists (mkJson p), s'. split; [exact Hnull|].
      split; [apply (eq_nullptr_node s' (mkJson p) _ Hp)|].
      split; [|exact Hj'].
      destruct n; try discriminate E;
        apply (proj2 (data_of_null s' (mkJson p) Hp)).
Qed.

Lemma narrowed_view_is_null_or_the_container_witness :
  statics_ok example_state /\
  heap example_state !! impl (mkJson 4) = Some (StringNode "x") /\
  exists a s',
    toArray (mkJson 4) example_state = Ret (a, s') /\
    eq_nullptr a s' = Ret (true, s') /\
    Array_data a s' = AssertFailed.
Proof.
  split; [exact statics_ok_example|]. split; [reflexivity|].
  destruct (proj1 (narrowed_view_is_null_or_the_container example_state
                     (mkJson 4) (StringNode "x") statics_ok_example eq_refl))
    as (a & s' & H1 & H2 & H3 & _).
  exists a, s'. auto.
Defined.

(** X22. A container holds handles, not copies: after [a.push(b)], what is
    pushed onto [b] is seen through the element of [a]. *)
Theorem pushed_values_are_shared (s : state) (a b x : Json)
    (va vb : list Json) :
  heap s !! impl a = Some (ArrayNode va) ->
  heap s !! impl b = Some (ArrayNode vb) ->
  impl a <> impl b ->
  Z.of_nat (length va) < INT_MAX ->
  exists s1 s2 e,
    push a b s = Ret (tt, s1) /\
    push b x s1 = Ret (tt, s2) /\
    Json_at a (Z.of_nat (length va)) s2 = Ret (e, s2) /\
    impl e = impl b /\
    Array_data e s2 = Ret (vb ++ [x], s2).
Proof.
  intros Ha Hb Hne Hlen.
  pose proof (lookup_lt_Some _ _ _ Ha) as Hla.
  pose proof (lookup_lt_Some _ _ _ Hb) as Hlb.
  set (s1 := mkState (<[impl a := ArrayNode (va ++ [b])]> (heap s))
                     (null_instance s) (true_instance s) (false_instance s)).
  assert (heap s1 !! impl b = Some (ArrayNode vb)) as Hb1
    by (simpl; rewrite list_lookup_insert_ne by exact Hne; exact Hb).
  set (s2 := mkState (<[impl b := ArrayNode (vb ++ [x])]> (heap s1))
                     (null_instance s1) (true_instance s1) (false_instance s1)).
  assert (heap s2 !! impl a = Some (ArrayNode (va ++ [b]))) as Ha2.
  { simpl. rewrite list_lookup_insert_ne by congruence.
    apply list_lookup_insert_eq, Hla. }
  assert (heap s2 !! impl b = Some (ArrayNode (vb ++ [x]))) as Hb2.
  { simpl. apply list_lookup_insert_eq. rewrite length_insert. exact Hlb. }
  exists s1, s2, b.
  split; [apply (push_node _ _ _ _ Ha)|].
  split; [apply (push_node _ _ _ _ Hb1)|].
  split.
  { rewrite (Json_at_node _ _ _ _ Ha2).
    rewrite size_t_of_int_nonneg;
      [|lia|unfold int_range, INT_MIN, INT_MAX in *; lia].
    apply vector_at_in_range, list_lookup_middle. reflexivity. }
  split; [reflexivity|apply Array_data_node, Hb2].
Qed.

Lemma pushed_values_are_shared_witness :
  heap example_state !! impl (mkJson 3) = Some (ArrayNode [mkJson 2; mkJson 4]) /\
  heap example_state !! impl (mkJson 5) = Some (ArrayNode []) /\
  impl (mkJson 3) <> impl (mkJson 5) /\
  Z.of_nat (length [mkJson 2; mkJson 4]) < INT_MAX /\
  exists s1 s2 e,
    push (mkJson 3) (mkJson 5) example_state = Ret (tt, s1) /\
    push (mkJson 5) (mkJson 2) s1 = Ret (tt, s2) /\
    Json_at (mkJson 3) 2 s2 = Ret (e, s2) /\
    Array_data e s2 = Ret ([mkJson 2], s2).
Proof.
  assert (impl (mkJson 3) <> impl (mkJson 5)) as Hne by (simpl; lia).
  assert (Z.of_nat (length [mkJson 2; mkJson 4]) < INT_MAX) as Hlen
    by (unfold INT_MAX; simpl; lia).
  split; [reflexivity|]. split; [reflexivity|]. split; [exact Hne|].
  split; [exact Hlen|].
  destruct (pushed_values_are_shared example_state (mkJson 3) (mkJson 5)
              (mkJson 2) _ _ eq_refl eq_refl Hne Hlen)
    as (s1 & s2 & e & H1 & H2 & H3 & _ & H4).
  exists s1, s2, e. auto.
Defined.

(** X23. The global [json::null] is a null value in every state a program
    reaches, and comparing a value with it is the null test:
    [j == json::null] and [j == nullptr] give the same answer. *)
Theorem comparing_with_null_is_the_null_test (n : nat) (s : state) (j : Json)
    (m : Node) :
  api_steps program_start s ->
  heap s !! impl j = Some m ->
  type json_null s = Ret (JsonType.Null, s) /\
  equals (S n) j json_null s = eq_nullptr j s.
Proof.
  intros Hsteps Hj.
  destruct (micro_steps_nodes_kept _ _ (api_steps_micro _ _ Hsteps) 0%nat NullNode
              eq_refl) as (z & Hz & Hk & Hsame).
  rewrite (Hsame (fun H => H)) in Hz. clear Hk Hsame z.
  split; [apply (type_node s json_null _ Hz)|].
  rewrite (eq_nullptr_node _ _ _ Hj), (equals_unfold (S n) s j json_null _ _ Hj Hz).
  destruct (decide (impl j = impl json_null)) as [E|E].
  - simpl in E. rewrite E in Hj.
    assert (Some m = Some NullNode) as [= ->] by (rewrite <- Hj; exact Hz).
    reflexivity.
  - change (Node_type NullNode) with JsonType.Null.
    destruct (JsonType.eqb (Node_type m) JsonType.Null) eqn:Ek; [|reflexivity].
    simpl negb. cbv iota.
    unfold bind, ret. rewrite (compare_unfold n s j json_null _ _ Hj Hz).
    destruct m; try discriminate Ek. reflexivity.
Qed.

Lemma comparing_with_null_is_the_null_test_witness :
  api_steps program_start program_start /\
  heap program_start !! impl json_null = Some NullNode /\
  equals 1 json_null json_null program_start = eq_nullptr json_null program_start.
Proof.
  split; [apply api_steps_refl|]. split; [reflexivity|].
  apply (comparing_with_null_is_the_null_test 0 program_start json_null NullNode
           (api_steps_refl _) eq_refl).
Defined.

(** ** Assignment of booleans, access of present keys *)

Lemma BooleanNode_True_canonical (s : state) :
  statics_ok s ->
  exists p s',
    BooleanNode_True s = Ret (p, s') /\ BooleanNode_True s' = Ret (p, s') /\
    true_instance s' = Some p /\ heap s' !! p = Some (BooleanNode true).
Proof.
  intros Hok. unfold BooleanNode_True.
  destruct (true_instance s) as [p|] eqn:E.
  - exists p, s. rewrite E. repeat split. apply Hok, E.
  - eexists _, _. split; [reflexivity|]. simpl. repeat split. apply lookup_fresh.
Qed.

Lemma BooleanNode_False_canonical (s : state) :
  statics_ok s ->
  exists p s',
    BooleanNode_False s = Ret (p, s') /\ BooleanNode_False s' = Ret (p, s') /\
    false_instance s' = Some p /\ heap s' !! p = Some (BooleanNode false).
Proof.
  intros Hok. unfold BooleanNode_False.
  destruct (false_instance s) as [p|] eqn:E.
  - exists p, s. rewrite E. repeat split. apply Hok, E.
  - eexists _, _. split; [reflexivity|]. simpl. repeat split. apply lookup_fresh.
Qed.

Lemma toBool_node (s : state) (j : Json) (v : bool) :
  heap s !! impl j = Some (BooleanNode v) -> toBool j s = Ret (v, s).
Proof. intros H. eval_node H. Qed.

(** X24. Assigned booleans share a node: after [a = v; b = v;] the two
    handles refer to the same singleton, the second assignment changes
    nothing, and [toBool] reads [v] back.  (Handles constructed from a
    boolean do not share.) *)
Theorem assigned_booleans_share_the_singleton (s : state) (a b : Json)
    (v : bool) :
  statics_ok s ->
  exists a' s1 b',
    assign_bool a v s = Ret (a', s1) /\
    assign_bool b v s1 = Ret (b', s1) /\
    impl a' = impl b' /\
    toBool a' s1 = Ret (v, s1) /\
    (if v then true_instance s1 else false_instance s1) = Some (impl a').
Proof.
  intros Hok. unfold assign_bool, bind, ret.
  destruct v.
  - destruct (BooleanNode_True_canonical s Hok) as (p & s1 & H1 & H2 & Hi & Hp).
    exists (mkJson p), s1, (mkJson p). rewrite H1, H2.
    repeat split; [apply (toBool_node s1 (mkJson p) _ Hp)|exact Hi].
  - destruct (BooleanNode_False_canonical s Hok) as (p & s1 & H1 & H2 & Hi & Hp).
    exists (mkJson p), s1, (mkJson p). rewrite H1, H2.
    repeat split; [apply (toBool_node s1 (mkJson p) _ Hp)|exact Hi].
Qed.

Lemma assigned_booleans_share_the_singleton_witness :
  statics_ok example_state /\
  exists a' s1 b',
    assign_bool (mkJson 2) true example_state = Ret (a', s1) /\
    assign_bool (mkJson 4) true s1 = Ret (b', s1) /\
    impl a' = impl b'.
Proof.
  split; [exact statics_ok_example|].
  destruct (assigned_booleans_share_the_singleton example_state (mkJson 2)
              (mkJson 4) true statics_ok_example)
    as (a' & s1 & b' & H1 & H2 & H3 & _).
  exists a', s1, b'. auto.
Defined.

(** X25. The mutable keyed access of a key the object holds changes nothing:
    it returns the reference to the mapped handle, the same handle the
    read-only lookup returns. *)
Theorem keyed_access_of_a_present_key (s : state) (j x : Json) (m : json_map)
    (key : string) :
  heap s !! impl j = Some (ObjectNode m) ->
  map_sorted m ->
  (key, x) ∈ m ->
  Json_index_key j key s = Ret (ObjectSlot (impl j) key, s) /\
  ref_get (ObjectSlot (impl j) key) s = Ret (x, s) /\
  Json_index_key_const j key s = Ret (x, s).
Proof.
  intros Hj Hs Hin. pose proof (map_find_Some _ _ _ Hs Hin) as Hf.
  rewrite (Json_index_key_node _ _ _ _ Hj), (Json_index_key_const_node _ _ _ _ Hj),
    Hf.
  repeat split.
  unfold ref_get, ObjectNode_value, deref, bind, ret. simpl impl.
  rewrite Hj, Hf. reflexivity.
Qed.

Lemma keyed_access_of_a_present_key_witness :
  heap example_state !! impl (mkJson 1) =
    Some (ObjectNode [("a"%string, mkJson 2)]) /\
  map_sorted [("a"%string, mkJson 2)] /\
  (("a"%string, mkJson 2) ∈ [("a"%string, mkJson 2)]) /\
  Json_index_key (mkJson 1) "a" example_state
    = Ret (ObjectSlot (impl (mkJson 1)) "a", example_state).
Proof.
  assert (map_sorted [("a"%string, mkJson 2)]) as Hs by (repeat constructor).
  assert (("a"%string, mkJson 2) ∈ [("a"%string, mkJson 2)]) as Hin
    by (apply list_elem_of_here).
  split; [reflexivity|]. split; [exact Hs|]. split; [exact Hin|].
  apply (proj1 (keyed_access_of_a_present_key example_state (mkJson 1) (mkJson 2)
                  _ "a" eq_refl Hs Hin)).
Defined.

(** ** Equality is by value *)

Lemma push_ints_spec (l : list Z) :
  forall (s : state) (a : Json) (v : list Json),
    heap s !! impl a = Some (ArrayNode v) ->
    exists s' es,
      push_ints a l s = Ret (tt, s') /\
      heap s' !! impl a = Some (ArrayNode (v ++ es)) /\
      Forall2 (int_at s') es l /\
      (forall q n, q <> impl a -> heap s !! q = Some n -> heap s' !! q = Some n).
Proof.
  induction l as [|x l IH]; intros s a v Ha; simpl.
  - exists s, []. rewrite app_nil_r. repeat split; auto.
  - pose proof (lookup_lt_Some _ _ _ Ha) as Hlt.
    set (e := mkJson (length (heap s))).
    set (s0 := mkState (heap s ++ [IntegerNode x]) (null_instance s)
                       (true_instance s) (false_instance s)).
    assert (heap s0 !! impl a = Some (ArrayNode v)) as Ha0
      by apply lookup_old, Ha.
    set (s1 := mkState (<[impl a := ArrayNode (v ++ [e])]> (heap s0))
                       (null_instance s0) (true_instance s0) (false_instance s0)).
    assert (impl e <> impl a) as Hne by (simpl; lia).
    assert (heap s1 !! impl a = Some (ArrayNode (v ++ [e]))) as Ha1
      by (apply list_lookup_insert_eq, (lookup_lt_Some _ _ _ Ha0)).
    assert (heap s1 !! impl e = Some (IntegerNode x)) as He1.
    { simpl. rewrite list_lookup_insert_ne by (simpl in *; lia). apply lookup_fresh. }
    destruct (IH s1 a _ Ha1) as (s' & es & Hrun & Ha' & Hes & Hold).
    exists s', (e :: es).
    split.
    { unfold bind. change (Json_int x s) with (Ret (e, s0)).
      cbv iota. rewrite (push_node s0 a e v Ha0). exact Hrun. }
    split; [rewrite <- app_assoc in Ha'; exact Ha'|].
    split; [constructor; [apply (Hold _ _ Hne He1)|exact Hes]|].
    intros q n Hq Hn. apply (Hold q n Hq). simpl.
    rewrite list_lookup_insert_ne by (simpl in *; lia). apply lookup_old, Hn.
Qed.

Lemma array_of_ints_spec (l : list Z) (s : state) :
  exists a s' es,
    array_of_ints l s = Ret (a, s') /\
    impl a = length (heap s) /\
    heap s' !! impl a = Some (ArrayNode es) /\
    Forall2 (int_at s') es l /\
    (forall q n, heap s !! q = Some n -> heap s' !! q = Some n).
Proof.
  set (a := mkJson (length (heap s))).
  set (s0 := mkState (heap s ++ [ArrayNode []]) (null_instance s)
                     (true_instance s) (false_instance s)).
  assert (heap s0 !! impl a = Some (ArrayNode [])) as Ha0 by apply lookup_fresh.
  destruct (push_ints_spec l s0 a [] Ha0) as (s' & es & Hrun & Ha' & Hes & Hold).
  exists a, s', es. split.
  { unfold array_of_ints, bind, ret. change (Array_default s) with (Ret (a, s0)).
    cbv iota. rewrite Hrun. reflexivity. }
  split; [reflexivity|]. split; [exact Ha'|]. split; [exact Hes|].
  intros q n Hn. apply Hold; [|apply lookup_old, Hn].
  apply lookup_lt_Some in Hn. simpl. lia.
Qed.

Lemma integers_elementwise (s : state) (es1 es2 : list Json) (l1 l2 : list Z) :
  Forall2 (int_at s) es1 l1 -> Forall2 (int_at s) es2 l2 ->
  Forall small_int l1 -> Forall small_int l2 ->
  length l1 = length l2 ->
  exists c, elementwise (compare 1) s es1 es2 c /\ (c = 0 <-> l1 = l2).
Proof.
  intros H1. revert es2 l2.
  induction H1 as [|e1 x1 es1 l1 He1 H1 IH]; intros es2 l2 H2 S1 S2 Hlen.
  - destruct l2; [|discriminate]. inversion H2; subst.
    exists 0. split; [constructor|tauto].
  - destruct H2 as [|e2 x2 es2 l2 He2 H2]; [discriminate|].
    apply Forall_cons in S1 as [Sx1 S1]. apply Forall_cons in S2 as [Sx2 S2].
    injection Hlen as Hlen.
    assert (compare 1 e1 e2 s = Ret (Z.sgn (x1 - x2), s)) as Hc.
    { rewrite (compare_unfold 0 s e1 e2 _ _ He1 He2). simpl.
      rewrite (number_compare_small _ _ Sx1 Sx2). reflexivity. }
    destruct (Z.eq_dec x1 x2) as [->|Hne].
    + rewrite Z.sub_diag in Hc. simpl in Hc.
      destruct (IH es2 l2 H2 S1 S2 Hlen) as (c & Hel & Hiff).
      exists c. split; [apply elementwise_zero; assumption|].
      rewrite Hiff. split; [intros ->; reflexivity|intros [= ->]; reflexivity].
    + exists (Z.sgn (x1 - x2)). split.
      * apply elementwise_first; [exact Hc|lia|].
        rewrite (Forall2_length _ _ _ H1), (Forall2_length _ _ _ H2). exact Hlen.
      * split; [lia|intros [= -> _]; contradiction].
Qed.

(** X26. Equality is by value, not by identity: two arrays built one after
    the other, by [Array()], [Json(int)] and [push], from two lists of
    integers in [[-2^30, 2^30)] are two different nodes, and [operator==] is
    true exactly when the lists are the same, in length, elements and
    order. *)
Theorem arrays_are_equal_by_value (s : state) (l1 l2 : list Z) :
  Forall small_int l1 -> Forall small_int l2 ->
  Z.of_nat (length l1) <= INT_MAX -> Z.of_nat (length l2) <= INT_MAX ->
  exists a s1 b s2,
    array_of_ints l1 s = Ret (a, s1) /\
    array_of_ints l2 s1 = Ret (b, s2) /\
    impl a <> impl b /\
    equals 2 a b s2 = Ret (bool_decide (l1 = l2), s2).
Proof.
  intros S1 S2 L1 L2.
  destruct (array_of_ints_spec l1 s) as (a & s1 & es1 & Ha & Hia & Hna & He1 & Hold1).
  destruct (array_of_ints_spec l2 s1) as (b & s2 & es2 & Hb & Hib & Hnb & He2 & Hold2).
  exists a, s1, b, s2. split; [exact Ha|]. split; [exact Hb|].
  assert (impl a <> impl b) as Hne
    by (apply lookup_lt_Some in Hna; lia).
  split; [exact Hne|].
  assert (heap s2 !! impl a = Some (ArrayNode es1)) as Hna2 by apply Hold2, Hna.
  assert (Forall2 (int_at s2) es1 l1) as He12.
  { eapply Forall2_impl; [exact He1|]. intros e x He. apply Hold2, He. }
  pose proof (Forall2_length _ _ _ He12) as Hl1.
  pose proof (Forall2_length _ _ _ He2) as Hl2.
  rewrite (equals_unfold 2 s2 a b _ _ Hna2 Hnb).
  destruct (decide (impl a = impl b)); [contradiction|].
  change (negb (JsonType.eqb (Node_type (ArrayNode es1))
                             (Node_type (ArrayNode es2)))) with false.
  cbv iota. unfold bind, ret.
  rewrite (compare_unfold 1 s2 a b _ _ Hna2 Hnb).
  change (negb (JsonType.to_int (Node_type (ArrayNode es1))
                - JsonType.to_int (Node_type (ArrayNode es2)) =? 0)) with false.
  cbv iota.
  destruct (Nat.eq_dec (length l1) (length l2)) as [Hlen|Hlen].
  - destruct (integers_elementwise s2 es1 es2 l1 l2 He12 He2 S1 S2 Hlen)
      as (c & Hel & Hiff).
    rewrite (array_compare_elementwise _ s2 a b es1 es2 c Hna2 Hnb) by
      (try exact Hel; rewrite Hl1; exact L1).
    do 2 f_equal. destruct (Z.eqb_spec c 0) as [Hc|Hc].
    + symmetry. apply bool_decide_eq_true, Hiff, Hc.
    + symmetry. apply bool_decide_eq_false. intros E. apply Hc, Hiff, E.
  - rewrite (array_compare_lengths _ s2 a b es1 es2 Hna2 Hnb) by
      (rewrite ?Hl1, ?Hl2; assumption).
    do 2 f_equal.
    destruct (Z.eqb_spec (Z.sgn (Z.of_nat (length es1) - Z.of_nat (length es2))) 0);
      [lia|].
    symmetry. apply bool_decide_eq_false. intros E. apply Hlen. congruence.
Qed.

Lemma arrays_are_equal_by_value_witness :
  Forall small_int [1; 2] /\ Forall small_int [1; 3] /\
  Z.of_nat (length [1; 2]) <= INT_MAX /\ Z.of_nat (length [1; 3]) <= INT_MAX /\
  exists a s1 b s2,
    array_of_ints [1; 2] empty_state = Ret (a, s1) /\
    array_of_ints [1; 3] s1 = Ret (b, s2) /\
    equals 2 a b s2 = Ret (false, s2).
Proof.
  assert (forall x, -4 <= x <= 4 -> small_int x) as Hs
    by (unfold small_int; lia).
  assert (Forall small_int [1; 2]) as S1
    by (repeat apply Forall_cons_2; try apply Forall_nil_2; apply Hs; lia).
  assert (Forall small_int [1; 3]) as S2
    by (repeat apply Forall_cons_2; try apply Forall_nil_2; apply Hs; lia).
  assert (Z.of_nat (length [1; 2]) <= INT_MAX) as L1
    by (unfold INT_MAX; simpl; lia).
  assert (Z.of_nat (length [1; 3]) <= INT_MAX) as L2
    by (unfold INT_MAX; simpl; lia).
  split; [exact S1|]. split; [exact S2|]. split; [exact L1|]. split; [exact L2|].
  destruct (arrays_are_equal_by_value empty_state [1; 2] [1; 3] S1 S2 L1 L2)
    as (a & s1 & b & s2 & H1 & H2 & _ & H3).
  exists a, s1, b, s2. auto.
Defined.
